(** * SE205: protected buffers (TP3) and thread-pool executor (TP5)

    A shallow embedding of
      - TP3/cond_protected_buffer.c  (monitor strategy),
      - TP3/sem_protected_buffer.c   (semaphore strategy),
      - TP5/thread_pool.c,
      - TP5/executor.c,
    together with the properties their specification states and further
    properties of the code.

    Conventions.  A C pointer ([void *], [future_t *]) is an address in [Z]
    and [NULL] is [0].  A C [int] is a [Z]; no operation of the modelled
    code reaches the limits of [int] on the inputs considered.  Logging
    ([print_task_activity], [printf]) has no effect on the data and is left
    out. *)

From Stdlib Require Import ZArith Lia Bool List.
From stdpp Require Import base list gmap.

Local Open Scope Z_scope.

Definition ptr := Z.
Definition NULL : ptr := 0.

(* ===================================================================== *)
(** * RingStore *)
(* ===================================================================== *)

Module Ring.
(** Modelled from the spec: circular_buffer.c (the unprotected RingStore)
    is not among the sources.  The spec describes it as a fixed-capacity
    circular array with "capacity C, logical count, head/tail indices, slot
    array of opaque value handles", whose "put fails when full, get fails
    when empty", retrieving elements in insertion order. *)
Record t := mk {
  slots    : list ptr;   (* slot array *)
  first    : nat;        (* head index: the oldest element *)
  last     : nat;        (* tail index: the next free slot *)
  size     : nat;        (* logical count *)
  max_size : nat         (* capacity C *)
}.
End Ring.

Abbreviation circular_buffer_t := Ring.t.

(** Modelled from the spec: [circular_buffer_init] of the missing
    circular_buffer.c, an empty store of capacity [length]. *)
Definition circular_buffer_init (length : nat) : circular_buffer_t :=
  Ring.mk (replicate length NULL) 0 0 0 length.

(** Modelled from the spec: [circular_buffer_get] of the missing
    circular_buffer.c; "get fails when empty", the failure being [NULL]. *)
Definition circular_buffer_get (b : circular_buffer_t) : ptr * circular_buffer_t :=
  if (Ring.size b =? 0)%nat then (NULL, b)
  else (default NULL (Ring.slots b !! Ring.first b),
        Ring.mk (Ring.slots b)
                ((Ring.first b + 1) mod Ring.max_size b)%nat
                (Ring.last b)
                (Ring.size b - 1)%nat
                (Ring.max_size b)).

(** Modelled from the spec: [circular_buffer_put] of the missing
    circular_buffer.c; "put fails when full", the result being 0 on
    failure and 1 on success. *)
Definition circular_buffer_put (b : circular_buffer_t) (d : ptr) : Z * circular_buffer_t :=
  if (Ring.size b =? Ring.max_size b)%nat then (0, b)
  else (1,
        Ring.mk (<[Ring.last b := d]> (Ring.slots b))
                (Ring.first b)
                ((Ring.last b + 1) mod Ring.max_size b)%nat
                (Ring.size b + 1)%nat
                (Ring.max_size b)).

(** The elements held, oldest first. *)
Definition contents (b : circular_buffer_t) : list ptr :=
  map (fun i => default NULL
                  (Ring.slots b !! ((Ring.first b + i) mod Ring.max_size b)%nat))
      (seq 0 (Ring.size b)).

(** Representation invariant of the ring. *)
Definition ring_ok (b : circular_buffer_t) : Prop :=
  length (Ring.slots b) = Ring.max_size b /\
  (Ring.size b <= Ring.max_size b)%nat /\
  (Ring.first b < Ring.max_size b \/
   (Ring.max_size b = 0 /\ Ring.first b = 0))%nat /\
  Ring.last b = ((Ring.first b + Ring.size b) mod Ring.max_size b)%nat.

(* ===================================================================== *)
(** * Threads, suspension points and the environment *)
(* ===================================================================== *)

(** The condition variables of the program. *)
Inductive cond_var_t :=
| BufEmpty                 (* b->empty   : "slot became empty" *)
| BufFull                  (* b->full    : "slot became full"  *)
| PoolCond                 (* thread_pool->cond_var *)
| FutureCond (f : ptr).    (* future->cond_var *)

(** The semaphores of a protected buffer. *)
Inductive sem_id := SemM | SemFull | SemEmpty.

(** What a suspended thread is parked on. *)
Inductive waitable :=
| OnMutex
| OnCond (c : cond_var_t)
| OnSem (s : sem_id)
| OnTimer.

(** One thread of the program is followed.  It runs until it reaches a
    suspension point (a wait on a condition variable, a semaphore that is
    0, a held mutex, a sleep); there the other threads run.  What they do
    before the followed thread runs again is one entry of the [schedule]:
    a function on the shared state [W].  With the schedule exhausted the
    thread stays [Blocked].  [Fault] is the dereference of an address that
    holds no object; [Running] is a loop that was still going when its
    iteration budget ended. *)
Definition schedule (W : Type) : Type := list (W -> W).

Inductive outcome (W A : Type) : Type :=
| Done (a : A) (w : W) (sch : schedule W)
| Blocked (on : waitable) (w : W)
| Running (w : W)
| Fault.

Arguments Done {W A} a w sch.
Arguments Blocked {W A} on w.
Arguments Running {W A} w.
Arguments Fault {W A}.

Definition M (W A : Type) : Type := W -> schedule W -> outcome W A.

#[global] Instance M_ret {W} : MRet (M W) :=
  fun A (a : A) w sch => Done a w sch.

#[global] Instance M_bind {W} : MBind (M W) :=
  fun A B (f : A -> M W B) (c : M W A) w sch =>
    match c w sch with
    | Done a w' sch' => f a w' sch'
    | Blocked on w' => Blocked on w'
    | Running w' => Running w'
    | Fault => Fault
    end.

Definition gets {W A} (f : W -> A) : M W A := fun w sch => Done (f w) w sch.

Definition modify {W} (f : W -> W) : M W unit := fun w sch => Done tt (f w) sch.

Definition fault {W A} : M W A := fun _ _ => Fault.

(** Park until [ready] holds; each wake-up re-tests it. *)
Fixpoint await {W} (on : waitable) (ready : W -> bool) (w : W) (sch : schedule W)
  {struct sch} : outcome W unit :=
  if ready w then Done tt w sch
  else match sch with
       | [] => Blocked on w
       | e :: sch' => await on ready (e w) sch'
       end.

(** The final state of a run, when it has one. *)
Definition final {W A} (o : outcome W A) : option W :=
  match o with
  | Done _ w _ => Some w
  | Blocked _ w => Some w
  | Running w => Some w
  | Fault => None
  end.

(** The value a completed run returns. *)
Definition returned {W A} (o : outcome W A) : option A :=
  match o with
  | Done a _ _ => Some a
  | _ => None
  end.

(* ===================================================================== *)
(** * TP3: the protected buffer *)
(* ===================================================================== *)

Module PB.
(** [protected_buffer_t].  The header protected_buffer.h is not among the
    sources; the fields are those the two strategies use.  A mutex is
    [true] while held.  For a condition variable the number of broadcasts
    issued on it so far is kept.  A semaphore is its value. *)
Record t := mk {
  sem_impl : bool;
  buffer   : circular_buffer_t;
  m        : bool;      (* pthread_mutex_t m *)
  empty    : nat;       (* pthread_cond_t empty *)
  full     : nat;       (* pthread_cond_t full *)
  s_m      : Z;         (* sem_t s_m *)
  s_full   : Z;         (* sem_t s_full *)
  s_empty  : Z          (* sem_t s_empty *)
}.

Definition with_buffer (r : circular_buffer_t) (b : t) : t :=
  mk (sem_impl b) r (m b) (empty b) (full b) (s_m b) (s_full b) (s_empty b).

Definition with_m (v : bool) (b : t) : t :=
  mk (sem_impl b) (buffer b) v (empty b) (full b) (s_m b) (s_full b) (s_empty b).

Definition broadcast (c : cond_var_t) (b : t) : t :=
  match c with
  | BufEmpty =>
      mk (sem_impl b) (buffer b) (m b) (S (empty b)) (full b)
         (s_m b) (s_full b) (s_empty b)
  | BufFull =>
      mk (sem_impl b) (buffer b) (m b) (empty b) (S (full b))
         (s_m b) (s_full b) (s_empty b)
  | _ => b
  end.

Definition sem (s : sem_id) (b : t) : Z :=
  match s with SemM => s_m b | SemFull => s_full b | SemEmpty => s_empty b end.

Definition with_sem (s : sem_id) (v : Z) (b : t) : t :=
  match s with
  | SemM => mk (sem_impl b) (buffer b) (m b) (empty b) (full b) v (s_full b) (s_empty b)
  | SemFull => mk (sem_impl b) (buffer b) (m b) (empty b) (full b) (s_m b) v (s_empty b)
  | SemEmpty => mk (sem_impl b) (buffer b) (m b) (empty b) (full b) (s_m b) (s_full b) v
  end.
End PB.

Abbreviation protected_buffer_t := PB.t.

(** errno.h *)
Definition ETIMEDOUT : Z := 110.

(** A [protected_buffer_t *] into the shared state: how to read and how to
    write the object it points to. *)
Record bufref (W : Type) := {
  deref  : W -> protected_buffer_t;
  assign : protected_buffer_t -> W -> W
}.

Arguments deref {W} _ _.
Arguments assign {W} _ _ _.

Section ProtectedBuffer.
Context {W : Type}.
Variable clock : W -> Z.          (* the wall clock, in milliseconds *)
Variable b : bufref W.

Definition upd (f : protected_buffer_t -> protected_buffer_t) (w : W) : W :=
  assign b (f (deref b w)) w.

(** ** pthread and semaphore primitives on the fields of [b] *)

Definition pthread_mutex_lock : M W unit :=
  fun w sch =>
    match await OnMutex (fun w => negb (PB.m (deref b w))) w sch with
    | Done _ w' sch' => Done tt (upd (PB.with_m true) w') sch'
    | o => o
    end.

Definition pthread_mutex_unlock : M W unit := modify (upd (PB.with_m false)).

Definition pthread_cond_broadcast (c : cond_var_t) : M W unit :=
  modify (upd (PB.broadcast c)).

(** [pthread_cond_wait] releases the mutex, parks the thread, and returns
    with the mutex held again: a wake-up of a thread parked there is the
    moment it has the mutex back. *)
Definition release (w : W) : W := upd (PB.with_m false) w.
Definition acquire (w : W) : W := upd (PB.with_m true) w.

(** [circular_buffer_get(b->buffer)] and [circular_buffer_put(b->buffer, d)] *)
Definition ring_get (w : W) : ptr * W :=
  let '(d, r) := circular_buffer_get (PB.buffer (deref b w)) in
  (d, upd (PB.with_buffer r) w).

Definition ring_put (d : ptr) (w : W) : Z * W :=
  let '(done, r) := circular_buffer_put (PB.buffer (deref b w)) d in
  (done, upd (PB.with_buffer r) w).

Definition buffer_get : M W ptr :=
  fun w sch => let '(d, w') := ring_get w in Done d w' sch.

Definition buffer_put (d : ptr) : M W Z :=
  fun w sch => let '(done, w') := ring_put d w in Done done w' sch.

Definition sem_post (s : sem_id) : M W unit :=
  modify (upd (fun pb => PB.with_sem s (PB.sem s pb + 1) pb)).

Definition sem_trywait (s : sem_id) : M W Z :=
  fun w sch =>
    if 0 <? PB.sem s (deref b w)
    then Done 0 (upd (fun pb => PB.with_sem s (PB.sem s pb - 1) pb) w) sch
    else Done (-1) w sch.

Fixpoint sem_wait (s : sem_id) (w : W) (sch : schedule W) {struct sch}
  : outcome W unit :=
  if 0 <? PB.sem s (deref b w)
  then Done tt (upd (fun pb => PB.with_sem s (PB.sem s pb - 1) pb) w) sch
  else match sch with
       | [] => Blocked (OnSem s) w
       | e :: sch' => sem_wait s (e w) sch'
       end.

(** [sem_timedwait]: a semaphore that can be taken at once is taken whatever
    the deadline; otherwise the call fails once the deadline has passed. *)
Fixpoint sem_timedwait (s : sem_id) (abstime : Z) (w : W) (sch : schedule W)
  {struct sch} : outcome W Z :=
  if 0 <? PB.sem s (deref b w)
  then Done 0 (upd (fun pb => PB.with_sem s (PB.sem s pb - 1) pb) w) sch
  else if abstime <=? clock w then Done (-1) w sch
  else match sch with
       | [] => Blocked (OnSem s) w
       | e :: sch' => sem_timedwait s abstime (e w) sch'
       end.

(** ** cond_protected_buffer.c: the monitor strategy *)

(** The semaphores are not used by this strategy and not initialised; 0
    stands for their content. *)
Definition cond_protected_buffer_init (length : nat) : protected_buffer_t :=
  PB.mk false (circular_buffer_init length) false 0 0 0 0 0.

(** The loop of [cond_protected_buffer_get]:
    [while ((d = circular_buffer_get(b->buffer)) == NULL)
       pthread_cond_wait(&(b->full), &(b->m));] *)
Fixpoint cond_get_wait (w : W) (sch : schedule W) {struct sch} : outcome W ptr :=
  let '(d, w1) := ring_get w in
  if d =? NULL then
    match sch with
    | [] => Blocked (OnCond BufFull) (release w1)
    | e :: sch' => cond_get_wait (acquire (e (release w1))) sch'
    end
  else Done d w1 sch.

Definition cond_protected_buffer_get : M W ptr :=
  pthread_mutex_lock ;;
  d ← cond_get_wait ;
  pthread_cond_broadcast BufEmpty ;;
  pthread_mutex_unlock ;;
  mret d.

(** The loop of [cond_protected_buffer_put]:
    [while (circular_buffer_put(b->buffer, d) == 0)
       pthread_cond_wait(&(b->empty), &(b->m));] *)
Fixpoint cond_put_wait (d : ptr) (w : W) (sch : schedule W) {struct sch}
  : outcome W unit :=
  let '(done, w1) := ring_put d w in
  if done =? 0 then
    match sch with
    | [] => Blocked (OnCond BufEmpty) (release w1)
    | e :: sch' => cond_put_wait d (acquire (e (release w1))) sch'
    end
  else Done tt w1 sch.

Definition cond_protected_buffer_put (d : ptr) : M W unit :=
  pthread_mutex_lock ;;
  cond_put_wait d ;;
  pthread_cond_broadcast BufFull ;;
  _ ← buffer_put d ;                      (* line 62: a second put of [d] *)
  pthread_mutex_unlock.

Definition cond_protected_buffer_remove : M W ptr :=
  pthread_mutex_lock ;;
  d ← buffer_get ;
  (if d =? NULL then mret tt else pthread_cond_broadcast BufEmpty) ;;
  pthread_mutex_unlock ;;
  mret d.

Definition cond_protected_buffer_add (d : ptr) : M W Z :=
  pthread_mutex_lock ;;
  done ← buffer_put d ;
  pthread_cond_broadcast BufFull ;;       (* in both cases, 0 or 1 *)
  pthread_mutex_unlock ;;
  mret done.

(** [pthread_cond_timedwait] fails with [ETIMEDOUT] at once when [abstime]
    has passed at the call, and on a wake-up at or after [abstime]. *)
Definition timedwait_rc (abstime : Z) (w : W) : Z :=
  if abstime <=? clock w then ETIMEDOUT else 0.

(** The loop of [cond_protected_buffer_poll]; the wait is on [b->empty]:
    [while ((d = circular_buffer_get(b->buffer)) == NULL) {
       rc = pthread_cond_timedwait(&(b->empty), &(b->m), abstime);
       if (rc == ETIMEDOUT) break; }] *)
Fixpoint cond_poll_wait (abstime : Z) (rc : Z) (w : W) (sch : schedule W)
  {struct sch} : outcome W (ptr * Z) :=
  let '(d, w1) := ring_get w in
  if d =? NULL then
    if timedwait_rc abstime w1 =? ETIMEDOUT then Done (d, ETIMEDOUT) w1 sch
    else match sch with
         | [] => Blocked (OnCond BufEmpty) (release w1)
         | e :: sch' =>
             let w2 := acquire (e (release w1)) in
             let rc := timedwait_rc abstime w2 in
             if rc =? ETIMEDOUT then Done (d, rc) w2 sch'
             else cond_poll_wait abstime rc w2 sch'
         end
  else Done (d, rc) w1 sch.

Definition cond_protected_buffer_poll (abstime : Z) : M W ptr :=
  pthread_mutex_lock ;;
  '(d, rc) ← cond_poll_wait abstime 0 ;
  (if rc =? ETIMEDOUT then mret tt else pthread_cond_broadcast BufEmpty) ;;
  pthread_mutex_unlock ;;
  mret d.

(** The loop of [cond_protected_buffer_offer]; the wait is on [b->full]:
    [while ((done = circular_buffer_put(b->buffer, d)) == 0) {
       rc = pthread_cond_timedwait(&(b->full), &(b->m), abstime);
       if (rc == ETIMEDOUT) break; }] *)
Fixpoint cond_offer_wait (d : ptr) (abstime : Z) (rc : Z) (w : W)
  (sch : schedule W) {struct sch} : outcome W (Z * Z) :=
  let '(done, w1) := ring_put d w in
  if done =? 0 then
    if timedwait_rc abstime w1 =? ETIMEDOUT then Done (done, ETIMEDOUT) w1 sch
    else match sch with
         | [] => Blocked (OnCond BufFull) (release w1)
         | e :: sch' =>
             let w2 := acquire (e (release w1)) in
             let rc := timedwait_rc abstime w2 in
             if rc =? ETIMEDOUT then Done (done, rc) w2 sch'
             else cond_offer_wait d abstime rc w2 sch'
         end
  else Done (done, rc) w1 sch.

Definition cond_protected_buffer_offer (d : ptr) (abstime : Z) : M W Z :=
  pthread_mutex_lock ;;
  '(done, rc) ← cond_offer_wait d abstime 0 ;
  (if rc =? ETIMEDOUT then mret tt else pthread_cond_broadcast BufEmpty) ;;
  pthread_mutex_unlock ;;
  mret done.

(** ** sem_protected_buffer.c: the semaphore strategy *)

(** [sem_init(&(b->s_m), 0, 1); sem_init(&(b->s_full), 0, 0);
    sem_init(&(b->s_empty), 0, length);]  The mutex and the condition
    variables are not used by this strategy. *)
Definition sem_protected_buffer_init (length : nat) : protected_buffer_t :=
  PB.mk true (circular_buffer_init length) false 0 0 1 0 (Z.of_nat length).

Definition sem_protected_buffer_get : M W ptr :=
  sem_wait SemFull ;;
  sem_wait SemM ;;
  d ← buffer_get ;
  sem_post SemM ;;
  sem_post SemEmpty ;;
  mret d.

Definition sem_protected_buffer_put (d : ptr) : M W unit :=
  sem_wait SemEmpty ;;
  sem_wait SemM ;;
  _ ← buffer_put d ;
  sem_post SemM ;;
  sem_post SemFull.

Definition sem_protected_buffer_remove : M W ptr :=
  rc ← sem_trywait SemFull ;
  if rc =? 0 then
    _ ← sem_trywait SemM ;                (* result not looked at *)
    d ← buffer_get ;
    sem_post SemM ;;
    sem_post SemEmpty ;;
    mret d
  else mret NULL.

Definition sem_protected_buffer_add (d : ptr) : M W Z :=
  rc ← sem_trywait SemEmpty ;
  if rc =? 0 then
    _ ← sem_trywait SemM ;                (* result not looked at *)
    _ ← buffer_put d ;
    sem_post SemM ;;
    sem_post SemM ;;                      (* line 115: [s_m], not [s_full] *)
    mret 1
  else mret 0.

Definition sem_protected_buffer_poll (abstime : Z) : M W ptr :=
  rc ← sem_timedwait SemFull abstime ;
  if rc =? 0 then
    sem_wait SemM ;;
    d ← buffer_get ;
    sem_post SemM ;;
    sem_post SemEmpty ;;
    mret d
  else mret NULL.

Definition sem_protected_buffer_offer (d : ptr) (abstime : Z) : M W Z :=
  rc ← sem_timedwait SemEmpty abstime ;
  if rc =? 0 then
    sem_wait SemM ;;
    _ ← buffer_put d ;
    sem_post SemM ;;
    sem_post SemFull ;;
    mret 1
  else mret 0.

(** ** The strategy-agnostic entry points *)

(** Modelled from the spec: protected_buffer.c, which selects between the
    "two interchangeable synchronization strategies", is not among the
    sources; executor.c calls [protected_buffer_init (0, n)] with "first
    parameter sem_impl set to false" for the monitor strategy. *)
Definition protected_buffer_init (sem_impl : bool) (length : nat)
  : protected_buffer_t :=
  if sem_impl then sem_protected_buffer_init length
  else cond_protected_buffer_init length.

(** Modelled from the spec: [protected_buffer_get] of the missing
    protected_buffer.c. *)
Definition protected_buffer_get : M W ptr :=
  fun w => if PB.sem_impl (deref b w) then sem_protected_buffer_get w
           else cond_protected_buffer_get w.

(** Modelled from the spec: [protected_buffer_add] of the missing
    protected_buffer.c. *)
Definition protected_buffer_add (d : ptr) : M W Z :=
  fun w => if PB.sem_impl (deref b w) then sem_protected_buffer_add d w
           else cond_protected_buffer_add d w.

(** Modelled from the spec: [protected_buffer_remove] of the missing
    protected_buffer.c. *)
Definition protected_buffer_remove : M W ptr :=
  fun w => if PB.sem_impl (deref b w) then sem_protected_buffer_remove w
           else cond_protected_buffer_remove w.

(** Modelled from the spec: [protected_buffer_poll] of the missing
    protected_buffer.c. *)
Definition protected_buffer_poll (abstime : Z) : M W ptr :=
  fun w => if PB.sem_impl (deref b w) then sem_protected_buffer_poll abstime w
           else cond_protected_buffer_poll abstime w.

End ProtectedBuffer.

(** The state of a program that uses one protected buffer (TP3). *)
Record buffer_world := {
  now : Z;
  pb  : protected_buffer_t
}.

Definition the_buffer : bufref buffer_world :=
  {| deref := pb; assign := fun x w => {| now := now w; pb := x |} |}.

(* ===================================================================== *)
(** * TP5: thread pool, futures and executor *)
(* ===================================================================== *)

Module Pool.
(** [thread_pool_t] *)
Record t := mk {
  core_pool_size : Z;
  max_pool_size  : Z;
  size           : Z;
  shutdown       : Z;
  m              : bool;     (* pthread_mutex_t m *)
  cond_var       : nat       (* pthread_cond_t cond_var: broadcasts so far *)
}.

Definition with_size (v : Z) (p : t) : t :=
  mk (core_pool_size p) (max_pool_size p) v (shutdown p) (m p) (cond_var p).

Definition with_shutdown (v : Z) (p : t) : t :=
  mk (core_pool_size p) (max_pool_size p) (size p) v (m p) (cond_var p).

Definition with_m (v : bool) (p : t) : t :=
  mk (core_pool_size p) (max_pool_size p) (size p) (shutdown p) v (cond_var p).

Definition broadcast (p : t) : t :=
  mk (core_pool_size p) (max_pool_size p) (size p) (shutdown p) (m p)
     (S (cond_var p)).
End Pool.

Abbreviation thread_pool_t := Pool.t.

Module Call.
(** [callable_t]: the task.  [main] is the task's function. *)
Record t := mk {
  main     : ptr -> ptr;
  params   : ptr;
  period   : Z;
  executor : ptr
}.

Definition with_executor (e : ptr) (c : t) : t :=
  mk (main c) (params c) (period c) e.
End Call.

Abbreviation callable_t := Call.t.

Module Fut.
(** [future_t] *)
Record t := mk {
  callable  : ptr;
  completed : Z;
  result    : ptr;
  m         : bool;    (* pthread_mutex_t m *)
  cond_var  : nat      (* pthread_cond_t cond_var: broadcasts so far *)
}.

Definition with_completed (v : Z) (f : t) : t :=
  mk (callable f) v (result f) (m f) (cond_var f).

Definition with_result (v : ptr) (f : t) : t :=
  mk (callable f) (completed f) v (m f) (cond_var f).

Definition with_m (v : bool) (f : t) : t :=
  mk (callable f) (completed f) (result f) v (cond_var f).

Definition broadcast (f : t) : t :=
  mk (callable f) (completed f) (result f) (m f) (S (cond_var f)).
End Fut.

Abbreviation future_t := Fut.t.

Module Exec.
(** [executor_t]; the pool and the queue of pending futures it points to
    are kept inside it. *)
Record t := mk {
  keep_alive_time : Z;
  thread_pool     : thread_pool_t;
  futures         : protected_buffer_t
}.

Definition with_thread_pool (p : thread_pool_t) (e : t) : t :=
  mk (keep_alive_time e) p (futures e).

Definition with_futures (q : protected_buffer_t) (e : t) : t :=
  mk (keep_alive_time e) (thread_pool e) q.
End Exec.

Abbreviation executor_t := Exec.t.

(** Modelled from the spec: the macro [FOREVER] of the missing executor.h,
    the keep-alive value that stands for "forever". *)
Definition FOREVER : Z := -1.

(** The shared state of a program that runs one executor: the clock, the
    executor and its address, the callables and the futures by address, and
    the argument of every thread [pthread_create] has started. *)
Record world := {
  clock       : Z;
  executor_at : ptr;
  the_executor : executor_t;
  callables   : gmap ptr callable_t;
  heap        : gmap ptr future_t;
  threads     : list ptr
}.

Definition with_executor (e : executor_t) (w : world) : world :=
  {| clock := clock w; executor_at := executor_at w; the_executor := e;
     callables := callables w; heap := heap w; threads := threads w |}.

Definition with_callables (c : gmap ptr callable_t) (w : world) : world :=
  {| clock := clock w; executor_at := executor_at w;
     the_executor := the_executor w;
     callables := c; heap := heap w; threads := threads w |}.

Definition with_heap (h : gmap ptr future_t) (w : world) : world :=
  {| clock := clock w; executor_at := executor_at w;
     the_executor := the_executor w;
     callables := callables w; heap := h; threads := threads w |}.

Definition with_threads (t : list ptr) (w : world) : world :=
  {| clock := clock w; executor_at := executor_at w;
     the_executor := the_executor w;
     callables := callables w; heap := heap w; threads := t |}.

Definition pool (w : world) : thread_pool_t := Exec.thread_pool (the_executor w).

Definition upd_pool (f : thread_pool_t -> thread_pool_t) (w : world) : world :=
  with_executor (Exec.with_thread_pool (f (pool w)) (the_executor w)) w.

(** [executor->futures] *)
Definition pending : bufref world :=
  {| deref := fun w => Exec.futures (the_executor w);
     assign := fun q w => with_executor (Exec.with_futures q (the_executor w)) w |}.

Definition when {W} (c : bool) (k : M W unit) : M W unit :=
  if c then k else mret tt.

(** Dereferences: an address that holds no object is a [Fault]. *)
Definition load_executor (e : ptr) : M world executor_t :=
  fun w sch => if e =? executor_at w then Done (the_executor w) w sch else Fault.

Definition load_callable (c : ptr) : M world callable_t :=
  fun w sch => match callables w !! c with
               | Some x => Done x w sch
               | None => Fault
               end.

Definition load_future (f : ptr) : M world future_t :=
  fun w sch => match heap w !! f with
               | Some x => Done x w sch
               | None => Fault
               end.

Definition upd_future (f : ptr) (g : future_t -> future_t) : M world unit :=
  x ← load_future f ;
  modify (fun w => with_heap (<[f := g x]> (heap w)) w).

(** ** thread_pool.c *)

(** [shutdown] is not set by [thread_pool_init]: the field starts with
    whatever the allocated block held, here [junk]. *)
Definition thread_pool_init (core_pool_size max_pool_size : Z) (junk : Z)
  : thread_pool_t :=
  Pool.mk core_pool_size max_pool_size 0 junk false 0.

Definition pool_lock : M world unit :=
  fun w sch =>
    match await OnMutex (fun w => negb (Pool.m (pool w))) w sch with
    | Done _ w' sch' => Done tt (upd_pool (Pool.with_m true) w') sch'
    | o => o
    end.

Definition pool_unlock : M world unit := modify (upd_pool (Pool.with_m false)).

(** [pthread_create(&thread, NULL, main, future)]; [main] is
    [main_pool_thread] at every call of this program. *)
Definition pthread_create (arg : ptr) : M world unit :=
  modify (fun w => with_threads (threads w ++ [arg]) w).

Definition pool_thread_create (future : ptr) (force : Z) : M world Z :=
  pool_lock ;;
  p ← gets pool ;
  done ← (if Pool.size p <? Pool.core_pool_size p then
            pthread_create future ;;
            modify (upd_pool (fun p => Pool.with_size (Pool.size p + 1) p)) ;;
            mret 1
          else if negb (force =? 0) && (Pool.size p <? Pool.max_pool_size p) then
            pthread_create future ;;
            modify (upd_pool (fun p => Pool.with_size (Pool.size p + 1) p)) ;;
            mret 1
          else mret 0) ;
  pool_unlock ;;
  mret done.

Definition thread_pool_shutdown : M world unit :=
  modify (upd_pool (Pool.with_shutdown 1)).

Definition pool_thread_remove : M world Z :=
  let done := 1 in
  pool_lock ;;
  p ← gets pool ;
  when (Pool.core_pool_size p <? Pool.size p)
       (modify (upd_pool (fun p => Pool.with_size (Pool.size p - 1) p))) ;;
  p ← gets pool ;
  when (negb (Pool.shutdown p =? 0))
       (modify (upd_pool (fun p => Pool.with_size (Pool.size p - 1) p))) ;;
  p ← gets pool ;
  when (Pool.size p =? 0) (modify (upd_pool Pool.broadcast)) ;;
  pool_unlock ;;
  mret done.

(** The loop of [wait_thread_pool_empty]:
    [while (thread_pool->size != 0)
       pthread_cond_wait(&(thread_pool->cond_var), &(thread_pool->m));] *)
Fixpoint pool_empty_wait (w : world) (sch : schedule world) {struct sch}
  : outcome world unit :=
  if Pool.size (pool w) =? 0 then Done tt w sch
  else match sch with
       | [] => Blocked (OnCond PoolCond) (upd_pool (Pool.with_m false) w)
       | e :: sch' =>
           pool_empty_wait
             (upd_pool (Pool.with_m true) (e (upd_pool (Pool.with_m false) w)))
             sch'
       end.

Definition wait_thread_pool_empty : M world unit :=
  pool_lock ;;
  pool_empty_wait ;;
  pool_unlock.

Definition get_shutdown : M world Z := gets (fun w => Pool.shutdown (pool w)).

(** ** executor.c *)

Definition executor_init (core_pool_size max_pool_size keep_alive_time : Z)
  (callable_array_size : nat) (junk : Z) : executor_t :=
  Exec.mk keep_alive_time
          (thread_pool_init core_pool_size max_pool_size junk)
          (protected_buffer_init false callable_array_size).

(** [future] is the address [malloc] returned for the new future.  Its
    [result] field is not initialised; 0 stands for its content. *)
Definition submit_callable (executor : ptr) (callable : ptr) (future : ptr)
  : M world ptr :=
  c ← load_callable callable ;
  modify (fun w => with_callables
                     (<[callable := Call.with_executor executor c]> (callables w)) w) ;;
  modify (fun w => with_heap (<[future := Fut.mk callable 0 0 false 0]> (heap w)) w) ;;
  _ ← load_executor executor ;
  created ← pool_thread_create future 0 ;
  if negb (created =? 0) then mret future
  else
    added ← protected_buffer_add pending future ;
    if added =? 1 then mret future
    else
      first ← protected_buffer_remove pending ;
      future ← (if negb (first =? NULL) then
                  _ ← protected_buffer_add pending future ;
                  mret first
                else mret future) ;
      _ ← pool_thread_create future 1 ;
      mret future.

(** The loop of [get_callable_result]:
    [while (future->completed == 0)
       pthread_cond_wait(&(future->cond_var), &(future->m));] *)
Fixpoint result_wait (future : ptr) (w : world) (sch : schedule world)
  {struct sch} : outcome world unit :=
  match heap w !! future with
  | None => Fault
  | Some f =>
      if Fut.completed f =? 0 then
        match sch with
        | [] => Blocked (OnCond (FutureCond future))
                        (with_heap (<[future := Fut.with_m false f]> (heap w)) w)
        | e :: sch' =>
            let w1 := e (with_heap (<[future := Fut.with_m false f]> (heap w)) w) in
            result_wait future
              (with_heap (alter (Fut.with_m true) future (heap w1)) w1) sch'
        end
      else Done tt w sch
  end.

Definition future_lock (future : ptr) : M world unit :=
  fun w sch =>
    match await OnMutex
                (fun w => match heap w !! future with
                          | Some f => negb (Fut.m f)
                          | None => true
                          end) w sch with
    | Done _ w' sch' => upd_future future (Fut.with_m true) w' sch'
    | o => o
    end.

Definition get_callable_result (future : ptr) : M world ptr :=
  future_lock future ;;
  result_wait future ;;
  f ← load_future future ;
  upd_future future (Fut.with_m false) ;;
  mret (Fut.result f).

(** Modelled from the spec: [add_millis_to_timespec] of the missing utils:
    "compute the next absolute release time by adding the period to the
    previous deadline". *)
Definition add_millis_to_timespec (ts millis : Z) : Z := ts + millis.

(** Modelled from the spec: [delay_until] of the missing utils: "sleep
    until that deadline". *)
Definition delay_until (deadline : Z) : M world unit :=
  await OnTimer (fun w => deadline <=? clock w).

(** The inner loop of [main_pool_thread] (lines 112-137): the callable of
    [future] is run, once or periodically.  The value is [ts_deadline] as
    the loop leaves it.  [fuel] bounds the number of iterations. *)
Fixpoint run_callable (fuel : nat) (future callable executor : ptr)
  (ts_deadline : Z) : M world Z :=
  match fuel with
  | O => fun w _ => Running w
  | S fuel' =>
      c ← load_callable callable ;
      upd_future future (Fut.with_result (Call.main c (Call.params c))) ;;
      if Call.period c =? 0 then
        upd_future future Fut.broadcast ;;
        upd_future future (Fut.with_completed 1) ;;
        mret ts_deadline
      else
        let ts_deadline := add_millis_to_timespec ts_deadline (Call.period c) in
        delay_until ts_deadline ;;
        _ ← load_executor executor ;
        stop ← get_shutdown ;
        if negb (stop =? 0) then mret ts_deadline
        else run_callable fuel' future callable executor ts_deadline
  end.

(** The outer loop of [main_pool_thread]: [while (future != NULL)].
    [fuel] bounds the number of futures served. *)
Fixpoint pool_thread_loop (fuel : nat) (future : ptr) (ts_deadline : Z)
  : M world unit :=
  match fuel with
  | O => fun w _ => Running w
  | S fuel' =>
      if future =? NULL then mret tt
      else
        f ← load_future future ;
        let callable := Fut.callable f in
        c ← load_callable callable ;
        let executor := Call.executor c in
        ts_deadline ← run_callable (S fuel') future callable executor ts_deadline ;
        ex ← load_executor executor ;
        next ← (if Exec.keep_alive_time ex =? FOREVER then
                  protected_buffer_get pending
                else
                  new_ts ← gets clock ;
                  let new_ts := add_millis_to_timespec new_ts (Exec.keep_alive_time ex) in
                  protected_buffer_poll clock pending new_ts) ;
        if next =? NULL then
          retire ← pool_thread_remove ;
          if negb (retire =? 0) then mret tt
          else pool_thread_loop fuel' next ts_deadline
        else pool_thread_loop fuel' next ts_deadline
  end.

Definition main_pool_thread (fuel : nat) (arg : ptr) : M world ptr :=
  ts_deadline ← gets clock ;
  pool_thread_loop fuel arg ts_deadline ;;
  mret NULL.

Definition executor_shutdown (executor : ptr) : M world unit :=
  _ ← load_executor executor ;
  thread_pool_shutdown ;;
  (* "Fill the queue of null futures to unblock potential threads":
     the comment stands alone, no statement follows it *)
  wait_thread_pool_empty.

(* ===================================================================== *)
(** * Vocabulary of the properties *)
(* ===================================================================== *)

(** How a run ended: with a value, or parked. *)
Definition status {W A} (o : outcome W A) : option (A + waitable) :=
  match o with
  | Done a _ _ => Some (inl a)
  | Blocked on _ => Some (inr on)
  | _ => None
  end.

(** The elements a protected buffer holds, and its free slots. *)
Definition held {W} (b : bufref W) (w : W) : list ptr :=
  contents (PB.buffer (deref b w)).

Definition room {W} (b : bufref W) (w : W) : nat :=
  (Ring.max_size (PB.buffer (deref b w)) - Ring.size (PB.buffer (deref b w)))%nat.

(** ** A property kept by a thread and by its environment

    [stable P c]: started where [P] holds, in an environment each of whose
    steps keeps [P], the run [c] ends or parks where [P] holds. *)
Definition env_ok {W} (P : W -> Prop) (sch : schedule W) : Prop :=
  Forall (fun e => forall w, P w -> P (e w)) sch.

Definition holds_after {W A} (P : W -> Prop) (o : outcome W A) : Prop :=
  match o with
  | Done _ w sch => P w /\ env_ok P sch
  | Blocked _ w => P w
  | Running w => P w
  | Fault => True
  end.

Definition stable {W A} (P : W -> Prop) (c : M W A) : Prop :=
  forall w sch, P w -> env_ok P sch -> holds_after P (c w sch).

(** ** The executor *)

(** The pending futures, oldest first, and the capacity of their queue. *)
Definition queue (w : world) : list ptr :=
  contents (PB.buffer (Exec.futures (the_executor w))).

Definition capacity (w : world) : nat :=
  Ring.max_size (PB.buffer (Exec.futures (the_executor w))).

(** A state of the executor between two operations: the queue follows the
    monitor strategy, as [executor_init] sets it up, no mutex is held, and
    the queue holds addresses of allocated futures. *)
Definition executor_ok (w : world) : Prop :=
  let q := Exec.futures (the_executor w) in
  PB.sem_impl q = false /\ PB.m q = false /\ Pool.m (pool w) = false /\
  ring_ok (PB.buffer q) /\
  Forall (fun f => f <> NULL /\ is_Some (heap w !! f)) (queue w).

(** Whether [pool_thread_create] starts a thread. *)
Definition granted (force : Z) (p : thread_pool_t) : bool :=
  (Pool.size p <? Pool.core_pool_size p)
  || (negb (force =? 0) && (Pool.size p <? Pool.max_pool_size p)).

(** The size [pool_thread_remove] leaves. *)
Definition retired_size (p : thread_pool_t) : Z :=
  let s := if Pool.core_pool_size p <? Pool.size p then Pool.size p - 1
           else Pool.size p in
  if negb (Pool.shutdown p =? 0) then s - 1 else s.

(** What an operation on the pool leaves alone. *)
Definition same_frame (w w' : world) : Prop :=
  clock w' = clock w /\ executor_at w' = executor_at w /\
  callables w' = callables w /\ heap w' = heap w /\
  Exec.keep_alive_time (the_executor w') = Exec.keep_alive_time (the_executor w) /\
  Exec.futures (the_executor w') = Exec.futures (the_executor w).

(** What an operation on the queue of pending futures leaves alone. *)
Definition queue_frame (w w' : world) : Prop :=
  clock w' = clock w /\ executor_at w' = executor_at w /\
  callables w' = callables w /\ heap w' = heap w /\
  threads w' = threads w /\ pool w' = pool w /\
  PB.sem_impl (Exec.futures (the_executor w')) = false /\
  PB.m (Exec.futures (the_executor w')) = false /\
  capacity w' = capacity w.

(** A sequence of calls on the pool. *)
Inductive pool_call :=
| CreateWorker (future : ptr) (force : Z)
| RetireWorker.

Definition pool_call_run (c : pool_call) : M world Z :=
  match c with
  | CreateWorker future force => pool_thread_create future force
  | RetireWorker => pool_thread_remove
  end.

Fixpoint pool_calls_run (cs : list pool_call) : M world unit :=
  match cs with
  | [] => mret tt
  | c :: cs' => _ ← pool_call_run c ; pool_calls_run cs'
  end.

(** The future at [future] wraps the periodic callable at [callable], is
    not completed, and [broadcasts] signals were sent on its condition. *)
Definition periodic_pending (future callable : ptr) (broadcasts : nat)
  (w : world) : Prop :=
  exists f c, heap w !! future = Some f /\ Fut.callable f = callable /\
              callables w !! callable = Some c /\ 0 < Call.period c /\
              Fut.completed f = 0 /\ Fut.cond_var f = broadcasts.

(** ** Concrete states *)

Definition cond_world (n : nat) : buffer_world :=
  {| now := 0; pb := cond_protected_buffer_init n |}.

Definition sem_world (n : nat) : buffer_world :=
  {| now := 0; pb := sem_protected_buffer_init n |}.

(** A task that adds one to its parameter. *)
Definition task (period : Z) : callable_t :=
  Call.mk (fun p => p + 1) 41 period NULL.

(** A fresh executor at address 1000 and one task at address 100. *)
Definition boot (core max keep_alive : Z) (cap : nat) (period : Z) : world :=
  {| clock := 0; executor_at := 1000;
     the_executor := executor_init core max keep_alive cap 0;
     callables := {[ 100 := task period ]}; heap := ∅; threads := [] |}.

(** The state a run leaves when nothing wakes it. *)
Definition after {A} (c : M world A) (w : world) : world :=
  default w (final (c w [])).

(** Environment steps: time passes; a shutdown is requested. *)
Definition tick (ms : Z) (w : world) : world :=
  {| clock := clock w + ms; executor_at := executor_at w;
     the_executor := the_executor w; callables := callables w;
     heap := heap w; threads := threads w |}.

Definition request_stop (w : world) : world :=
  tick 50 (upd_pool (Pool.with_shutdown 1) w).

(** One periodic task submitted to a pool of one worker. *)
Definition periodic_world : world :=
  after (submit_callable 1000 100 200) (boot 1 1 FOREVER 1 50).

(** Core size 1, queue of capacity 1, two submissions made: the worker is
    busy with future 200 and future 201 is pending. *)
Definition overloaded_world : world :=
  after (submit_callable 1000 100 201)
        (after (submit_callable 1000 100 200) (boot 1 2 FOREVER 1 0)).

(* ===================================================================== *)
(** * Vocabulary of the further properties *)
(* ===================================================================== *)

(** ** Runs of several calls *)

(** What another thread does while the followed one is parked: it runs [c]
    as far as [c] goes. *)
Definition other_thread {W A} (c : M W A) (w : W) : W :=
  default w (final (c w [])).

(** A call of the interface of the protected buffer. *)
Inductive buffer_call :=
| CallGet
| CallPut (d : ptr)
| CallRemove
| CallAdd (d : ptr)
| CallPoll (abstime : Z)
| CallOffer (d : ptr) (abstime : Z).

(** The value of a call as an integer: the element for the calls that take
    one out, the status for [add] and [offer], 0 for [put], which is
    [void]. *)
Definition cond_call {W} (clock : W -> Z) (b : bufref W) (c : buffer_call)
  : M W Z :=
  match c with
  | CallGet => cond_protected_buffer_get b
  | CallPut d => cond_protected_buffer_put b d ;; mret 0
  | CallRemove => cond_protected_buffer_remove b
  | CallAdd d => cond_protected_buffer_add b d
  | CallPoll abstime => cond_protected_buffer_poll clock b abstime
  | CallOffer d abstime => cond_protected_buffer_offer clock b d abstime
  end.

Definition sem_call {W} (clock : W -> Z) (b : bufref W) (c : buffer_call)
  : M W Z :=
  match c with
  | CallGet => sem_protected_buffer_get b
  | CallPut d => sem_protected_buffer_put b d ;; mret 0
  | CallRemove => sem_protected_buffer_remove b
  | CallAdd d => sem_protected_buffer_add b d
  | CallPoll abstime => sem_protected_buffer_poll clock b abstime
  | CallOffer d abstime => sem_protected_buffer_offer clock b d abstime
  end.

(** The calls of [cs] one after the other, by one thread. *)
Fixpoint calls_run {W} (call : buffer_call -> M W Z) (cs : list buffer_call)
  : M W (list Z) :=
  match cs with
  | [] => mret []
  | c :: cs' => r ← call c ; rs ← calls_run call cs' ; mret (r :: rs)
  end.

(** The value a call inserts, if any. *)
Definition inserted (c : buffer_call) : option ptr :=
  match c with
  | CallPut d | CallAdd d | CallOffer d _ => Some d
  | _ => None
  end.

(** ** The queue the buffer operations are compared with

    This is not code of the program but the account of it on lists that
    the operations are proved to follow.  A list of at most [cap] elements,
    oldest first, at the time [now].  A call gives its value and the list
    it leaves, or [None] where the caller would have to wait.  With [twice]
    set, [put] appends its value a second time when a slot is left for
    it. *)
Definition fifo_call (twice : bool) (cap : nat) (now : Z) (c : buffer_call)
  (l : list ptr) : option (Z * list ptr) :=
  match c with
  | CallGet =>
      match l with x :: xs => Some (x, xs) | [] => None end
  | CallPut d =>
      if (length l <? cap)%nat then
        Some (0, if twice && (S (length l) <? cap)%nat then l ++ [d; d]
                 else l ++ [d])
      else None
  | CallRemove =>
      match l with x :: xs => Some (x, xs) | [] => Some (NULL, []) end
  | CallAdd d =>
      if (length l <? cap)%nat then Some (1, l ++ [d]) else Some (0, l)
  | CallPoll abstime =>
      match l with
      | x :: xs => Some (x, xs)
      | [] => if abstime <=? now then Some (NULL, []) else None
      end
  | CallOffer d abstime =>
      if (length l <? cap)%nat then Some (1, l ++ [d])
      else if abstime <=? now then Some (0, l) else None
  end.

Fixpoint fifo_run (twice : bool) (cap : nat) (now : Z) (cs : list buffer_call)
  (l : list ptr) : option (list Z * list ptr) :=
  match cs with
  | [] => Some ([], l)
  | c :: cs' =>
      match fifo_call twice cap now c l with
      | None => None
      | Some (r, l1) =>
          match fifo_run twice cap now cs' l1 with
          | None => None
          | Some (rs, l2) => Some (r :: rs, l2)
          end
      end
  end.

(** A monitor buffer of capacity [cap] between two operations. *)
Definition monitor_idle {W} (b : bufref W) (cap : nat) (w : W) : Prop :=
  PB.m (deref b w) = false /\ ring_ok (PB.buffer (deref b w)) /\
  Ring.max_size (PB.buffer (deref b w)) = cap.

(** A semaphore buffer of capacity [cap] between two operations: [s_m] is
    free, [s_full] counts the elements and [s_empty] the free slots. *)
Definition sem_balanced {W} (b : bufref W) (cap : nat) (w : W) : Prop :=
  PB.s_m (deref b w) = 1 /\
  PB.s_full (deref b w) = Z.of_nat (length (held b w)) /\
  PB.s_empty (deref b w) = Z.of_nat (cap - length (held b w)) /\
  ring_ok (PB.buffer (deref b w)) /\
  Ring.max_size (PB.buffer (deref b w)) = cap.

(** Whether a run has left the mutex of the buffer free: it is checked
    where the run has returned and where it is parked on a condition. *)
Definition mutex_released {W A} (b : bufref W) (o : outcome W A) : Prop :=
  match o with
  | Done _ w _ => PB.m (deref b w) = false
  | Blocked (OnCond _) w => PB.m (deref b w) = false
  | _ => True
  end.

(** A run that has returned, or is waiting for a mutex: it is not parked
    on a condition or a semaphore, and has not failed. *)
Definition returns_or_awaits_mutex {W A} (o : outcome W A) : Prop :=
  match o with
  | Done _ _ _ => True
  | Blocked on _ => on = OnMutex
  | _ => False
  end.

(** The laws of a pointer to a buffer: what is written is what is read, a
    second write replaces the first, and a write leaves the clock alone. *)
Definition lawful {W} (clock : W -> Z) (b : bufref W) : Prop :=
  (forall q w, deref b (assign b q w) = q) /\
  (forall q q' w, assign b q (assign b q' w) = assign b q w) /\
  (forall q w, clock (assign b q w) = clock w).

(** The buffer object an operation of the monitor strategy leaves: the
    store [r], the mutex free, [de] broadcasts more on [b->empty] and [df]
    more on [b->full]. *)
Definition left_by (r : circular_buffer_t) (de df : nat) (q : protected_buffer_t)
  : protected_buffer_t :=
  PB.mk (PB.sem_impl q) r false (de + PB.empty q) (df + PB.full q)
        (PB.s_m q) (PB.s_full q) (PB.s_empty q).

(** The buffer object an operation of the semaphore strategy leaves: the
    store [r] and the three semaphore values. *)
Definition sems_left (r : circular_buffer_t) (sm sf se : Z)
  (q : protected_buffer_t) : protected_buffer_t :=
  PB.mk (PB.sem_impl q) r (PB.m q) (PB.empty q) (PB.full q) sm sf se.

(** Environment step of a program with one buffer: [ms] milliseconds
    pass. *)
Definition later (ms : Z) (w : buffer_world) : buffer_world :=
  {| now := now w + ms; pb := pb w |}.

(** ** Futures served by a worker *)

(** A future once its one-shot callable [c] has been run: the result is
    stored, one broadcast was sent, [completed] is set. *)
Definition completed_by (c : callable_t) (f : future_t) : future_t :=
  Fut.mk (Fut.callable f) 1 (Call.main c (Call.params c)) (Fut.m f)
         (S (Fut.cond_var f)).

(** The future at [fu] is allocated and wraps a one-shot callable submitted
    to this executor. *)
Definition one_shot (w : world) (fu : ptr) : Prop :=
  exists f c, heap w !! fu = Some f /\ callables w !! Fut.callable f = Some c /\
              Call.period c = 0 /\ Call.executor c = executor_at w.

(** The future at [fu] is completed and holds the output of its callable. *)
Definition served (w : world) (fu : ptr) : Prop :=
  exists f c, heap w !! fu = Some f /\ callables w !! Fut.callable f = Some c /\
              Fut.completed f = 1 /\ Fut.result f = Call.main c (Call.params c).

(** The state a worker leaves when it has run the one-shot callable [c] of
    [future] and taken the next future out of the queue, whose store is
    then [r]. *)
Definition served_next (future : ptr) (c : callable_t) (f : future_t)
  (r : circular_buffer_t) (w : world) : world :=
  assign pending (left_by r 1 0 (Exec.futures (the_executor w)))
         (with_heap (<[future := completed_by c f]> (heap w)) w).

(** The state a worker leaves when it has run the one-shot callable [c] of
    [future] and found the queue empty. *)
Definition served_last (future : ptr) (c : callable_t) (f : future_t)
  (w : world) : world :=
  assign pending (left_by (PB.buffer (Exec.futures (the_executor w))) 0 0
                          (Exec.futures (the_executor w)))
         (with_heap (<[future := completed_by c f]> (heap w)) w).

(** The callable at [callable] is [c] and the future at [future] holds its
    output. *)
Definition holds_output (future callable : ptr) (c : callable_t) (w : world)
  : Prop :=
  callables w !! callable = Some c /\
  exists f, heap w !! future = Some f /\
            Fut.result f = Call.main c (Call.params c).

(** ** The reader of a future when only a broadcast wakes it

    [result_wait] lets the parked reader run again after every step of the
    other threads, as if each of them woke it.  Here is the same loop
    (lines 83-84) for a reader that runs again only after a step that has
    broadcast on [future->cond_var]: parked with [seen] broadcasts sent so
    far, it sleeps through the steps that send none; woken, it has the
    mutex again and tests [completed]. *)
Fixpoint parked_on_future (future : ptr) (seen : nat) (w : world)
  (sch : schedule world) {struct sch} : outcome world unit :=
  match sch with
  | [] => Blocked (OnCond (FutureCond future)) w
  | e :: sch' =>
      let w1 := e w in
      match heap w1 !! future with
      | None => Fault
      | Some f =>
          if (Fut.cond_var f =? seen)%nat then
            parked_on_future future seen w1 sch'
          else if Fut.completed f =? 0 then
            parked_on_future future (Fut.cond_var f) w1 sch'
          else
            Done tt (with_heap (<[future := Fut.with_m true f]> (heap w1)) w1) sch'
      end
  end.

Definition result_wait_signalled (future : ptr) : M world unit :=
  fun w sch =>
    match heap w !! future with
    | None => Fault
    | Some f =>
        if Fut.completed f =? 0 then
          parked_on_future future (Fut.cond_var f)
            (with_heap (<[future := Fut.with_m false f]> (heap w)) w) sch
        else Done tt w sch
    end.

(** [get_callable_result] with that wait. *)
Definition get_callable_result_signalled (future : ptr) : M world ptr :=
  future_lock future ;;
  result_wait_signalled future ;;
  f ← load_future future ;
  upd_future future (Fut.with_m false) ;;
  mret (Fut.result f).

(** The one-shot branch of the inner loop of [main_pool_thread] in the two
    steps between which another thread can run, no mutex being held: lines
    113-123, the result is stored and the broadcast sent; line 124,
    [completed] is set. *)
Definition store_and_broadcast (future callable : ptr) : M world unit :=
  c ← load_callable callable ;
  upd_future future (Fut.with_result (Call.main c (Call.params c))) ;;
  upd_future future Fut.broadcast.

Definition set_completed (future : ptr) : M world unit :=
  upd_future future (Fut.with_completed 1).

(** ** More concrete states *)

(** Core size 1, keep-alive of 10 ms, two one-shot submissions made: the
    worker started for future 200 has future 201 pending. *)
Definition busy_world : world :=
  after (submit_callable 1000 100 201)
        (after (submit_callable 1000 100 200) (boot 1 2 10 1 0)).

(** A pool of core size 1 with two workers, the second one forced, and a
    shutdown requested. *)
Definition stopping_world : world :=
  upd_pool (Pool.with_shutdown 1)
    (after (pool_thread_create 201 1)
       (after (pool_thread_create 200 0) (boot 1 2 FOREVER 1 0))).

(** A pool with its one core worker, and a shutdown requested. *)
Definition last_worker_world : world :=
  upd_pool (Pool.with_shutdown 1)
    (after (pool_thread_create 200 0) (boot 1 2 FOREVER 1 0)).

(** One one-shot task submitted to a pool of one worker. *)
Definition one_shot_world : world :=
  after (submit_callable 1000 100 200) (boot 1 1 FOREVER 1 0).

(** Core size 1, maximum size 2, queue of capacity 1, three submissions
    made: workers run futures 200 and 201, future 202 is pending; the pool
    is at its maximum size and the queue is full. *)
Definition saturated_world : world :=
  after (submit_callable 1000 100 202) overloaded_world.

(** [thread_pool_init (1, 2)] on a block whose [shutdown] field, which the
    function does not set, holds 1. *)
Definition stale_flag_world : world :=
  upd_pool (fun _ => thread_pool_init 1 2 1) (boot 1 2 FOREVER 1 0).

(* ===================================================================== *)
(** * The RingStore keeps its elements in order *)
(* ===================================================================== *)

Lemma contents_length b : length (contents b) = Ring.size b.
Proof. unfold contents. by rewrite length_map, length_seq. Qed.

Lemma ring_init_ok n : ring_ok (circular_buffer_init n).
Proof.
  unfold ring_ok, circular_buffer_init; simpl.
  rewrite length_replicate. split; [done|]. split; [lia|]. split.
  - destruct n; [right; done | left; lia].
  - symmetry. apply Nat.Div0.mod_0_l.
Qed.

Lemma ring_init_contents n : contents (circular_buffer_init n) = [].
Proof. reflexivity. Qed.

Lemma put_full b d :
  Ring.size b = Ring.max_size b -> circular_buffer_put b d = (0, b).
Proof.
  intros H. unfold circular_buffer_put.
  by rewrite (proj2 (Nat.eqb_eq _ _) H).
Qed.

Lemma mod_offsets_differ f i s n :
  (i < s)%nat -> (s < n)%nat -> ((f + i) mod n)%nat <> ((f + s) mod n)%nat.
Proof.
  intros Hi Hs Heq.
  pose proof (Nat.div_mod_eq (f + i) n) as E1.
  pose proof (Nat.div_mod_eq (f + s) n) as E2.
  rewrite Heq in E1.
  set (q1 := ((f + i) / n)%nat) in *. set (q2 := ((f + s) / n)%nat) in *.
  destruct (le_lt_dec q2 q1) as [Hq|Hq].
  - assert (n * q2 <= n * q1)%nat by (apply Nat.mul_le_mono_l; lia). lia.
  - assert (n * (q1 + 1) <= n * q2)%nat by (apply Nat.mul_le_mono_l; lia). lia.
Qed.

Lemma put_ok b d :
  ring_ok b -> (Ring.size b < Ring.max_size b)%nat ->
  exists b', circular_buffer_put b d = (1, b') /\ ring_ok b' /\
             contents b' = contents b ++ [d] /\
             Ring.max_size b' = Ring.max_size b.
Proof.
  intros (Hlen & Hsz & Hfirst & Hlast) Hlt.
  unfold circular_buffer_put.
  destruct (Nat.eqb_spec (Ring.size b) (Ring.max_size b)) as [E|_]; [lia|].
  eexists; split; [reflexivity|].
  assert (Hn : Ring.max_size b <> 0%nat) by lia.
  assert (Hl : (Ring.last b < length (Ring.slots b))%nat).
  { rewrite Hlast, Hlen. apply Nat.mod_upper_bound; lia. }
  split; [|split; [|done]].
  - unfold ring_ok; simpl. rewrite length_insert.
    repeat split; [done | lia | left; lia |].
    rewrite Hlast, Nat.Div0.add_mod_idemp_l. f_equal; lia.
  - unfold contents; simpl.
    rewrite Nat.add_1_r, seq_S, map_app; simpl. f_equal.
    + apply map_ext_in. intros i Hi%in_seq.
      rewrite list_lookup_insert_ne; [done|].
      rewrite Hlast. intros E; symmetry in E; revert E.
      apply mod_offsets_differ; lia.
    + rewrite <- Hlast. by rewrite list_lookup_insert_eq.
Qed.

Lemma get_empty b :
  Ring.size b = 0%nat -> circular_buffer_get b = (NULL, b).
Proof. intros H. unfold circular_buffer_get. by rewrite H. Qed.

Lemma get_ok b x xs :
  ring_ok b -> contents b = x :: xs ->
  exists b', circular_buffer_get b = (x, b') /\ ring_ok b' /\
             contents b' = xs /\ Ring.max_size b' = Ring.max_size b.
Proof.
  intros (Hlen & Hsz & Hfirst & Hlast) Hc.
  unfold circular_buffer_get, contents in *.
  destruct (Ring.size b) as [|k] eqn:Hs; [done|]. simpl in Hc.
  assert (Hn : Ring.max_size b <> 0%nat) by lia.
  destruct Hfirst as [Hfirst|[? _]]; [|lia].
  injection Hc as Hx Hxs.
  rewrite Nat.add_0_r, Nat.mod_small in Hx by done.
  simpl. eexists; split; [by rewrite Hx|].
  split; [|split; [|done]].
  - unfold ring_ok; simpl. repeat split; [done | lia | |].
    + left. apply Nat.mod_upper_bound; lia.
    + rewrite Hlast, Nat.Div0.add_mod_idemp_l. f_equal; lia.
  - simpl. rewrite Nat.sub_0_r.
    rewrite <- Hxs, <- seq_shift, map_map.
    apply map_ext. intros i. rewrite Nat.Div0.add_mod_idemp_l.
    do 3 f_equal. lia.
Qed.


(* ===================================================================== *)
(** * Properties kept along a run *)
(* ===================================================================== *)

Lemma await_ready {W} on (ready : W -> bool) w sch :
  ready w = true -> await on ready w sch = Done tt w sch.
Proof. intros H. destruct sch; simpl; by rewrite H. Qed.


Section Stable.
Context {W : Type} (P : W -> Prop).


Lemma stable_ret {A} (a : A) : stable P (mret a).
Proof. intros w sch Hw Hs. simpl. auto. Qed.

Lemma stable_bind {A B} (c : M W A) (f : A -> M W B) :
  stable P c -> (forall a, stable P (f a)) -> stable P (c ≫= f).
Proof.
  intros Hc Hf w sch Hw Hs. unfold mbind, M_bind.
  specialize (Hc w sch Hw Hs). destruct (c w sch); simpl in *; try done.
  destruct Hc. by apply Hf.
Qed.

Lemma stable_gets {A} (f : W -> A) : stable P (gets f).
Proof. intros w sch Hw Hs. simpl. auto. Qed.

Lemma stable_modify (f : W -> W) :
  (forall w, P w -> P (f w)) -> stable P (modify f).
Proof. intros Hf w sch Hw Hs. simpl. auto. Qed.

Lemma stable_fault {A} : stable P (@fault W A).
Proof. intros w sch Hw Hs. exact I. Qed.

Lemma stable_await on ready : stable P (await on ready).
Proof.
  intros w sch Hw Hs. revert w Hw.
  induction Hs as [|e sch He Hs IH]; intros w Hw; simpl.
  - destruct (ready w); simpl; auto. split; [done|constructor].
  - destruct (ready w); simpl.
    + split; [done|]. by constructor.
    + apply IH. by apply He.
Qed.

Lemma stable_when (c : bool) (k : M W unit) : stable P k -> stable P (when c k).
Proof. intros Hk. destruct c; simpl; [done|apply stable_ret]. Qed.

Lemma stable_if {A} (c : bool) (k1 k2 : M W A) :
  stable P k1 -> stable P k2 -> stable P (if c then k1 else k2).
Proof. by destruct c. Qed.

End Stable.

Section StableBuffer.
Context {W : Type} (P : W -> Prop) (clock : W -> Z) (b : bufref W).
Hypothesis P_assign : forall q w, P w -> P (assign b q w).

Lemma P_upd f w : P w -> P (upd b f w).
Proof. apply P_assign. Qed.

Lemma stable_lock : stable P (pthread_mutex_lock b).
Proof.
  intros w sch Hw Hs. unfold pthread_mutex_lock.
  pose proof (stable_await P OnMutex (fun w => negb (PB.m (deref b w))) w sch Hw Hs) as H.
  destruct (await _ _ w sch); simpl in *; try done.
  destruct H; split; [by apply P_upd|done].
Qed.

Lemma stable_unlock : stable P (pthread_mutex_unlock b).
Proof. apply stable_modify. intros; by apply P_upd. Qed.

Lemma stable_broadcast c : stable P (pthread_cond_broadcast b c).
Proof. apply stable_modify. intros; by apply P_upd. Qed.

Lemma P_ring_get w : P w -> P (ring_get b w).2.
Proof. intros Hw. unfold ring_get. destruct (circular_buffer_get _). by apply P_upd. Qed.

Lemma P_ring_put d w : P w -> P (ring_put b d w).2.
Proof. intros Hw. unfold ring_put. destruct (circular_buffer_put _ _). by apply P_upd. Qed.

Lemma stable_buffer_get : stable P (buffer_get b).
Proof.
  intros w sch Hw Hs. unfold buffer_get.
  pose proof (P_ring_get w Hw). destruct (ring_get b w); simpl in *. auto.
Qed.

Lemma stable_buffer_put d : stable P (buffer_put b d).
Proof.
  intros w sch Hw Hs. unfold buffer_put.
  pose proof (P_ring_put d w Hw). destruct (ring_put b d w); simpl in *. auto.
Qed.

Lemma stable_cond_get_wait : stable P (cond_get_wait b).
Proof.
  intros w sch Hw Hs. revert w Hw.
  induction Hs as [|e sch He Hs IH]; intros w Hw; simpl;
    pose proof (P_ring_get w Hw) as Hg; destruct (ring_get b w) as [d w1];
    simpl in Hg; destruct (d =? NULL); simpl.
  - by apply P_upd.
  - split; [done|constructor].
  - apply IH. apply P_upd, He. by apply P_upd.
  - split; [done|]. by constructor.
Qed.

Lemma stable_cond_put_wait d : stable P (cond_put_wait b d).
Proof.
  intros w sch Hw Hs. revert w Hw.
  induction Hs as [|e sch He Hs IH]; intros w Hw; simpl;
    pose proof (P_ring_put d w Hw) as Hg; destruct (ring_put b d w) as [r w1];
    simpl in Hg; destruct (r =? 0); simpl.
  - by apply P_upd.
  - split; [done|constructor].
  - apply IH. apply P_upd, He. by apply P_upd.
  - split; [done|]. by constructor.
Qed.

Lemma stable_cond_poll_wait abstime rc : stable P (cond_poll_wait clock b abstime rc).
Proof.
  intros w sch Hw Hs. revert w rc Hw.
  induction Hs as [|e sch He Hs IH]; intros w rc Hw; simpl;
    pose proof (P_ring_get w Hw) as Hg; destruct (ring_get b w) as [d w1];
    simpl in Hg; destruct (d =? NULL); simpl;
    try destruct (timedwait_rc clock abstime w1 =? ETIMEDOUT); simpl;
    try (split; [done|by constructor]).
  - by apply P_upd.
  - assert (P (acquire b (e (release b w1)))) by (apply P_upd, He; by apply P_upd).
    destruct (_ =? ETIMEDOUT); simpl; [done|]. by apply IH.
Qed.

Lemma stable_sem_wait s : stable P (sem_wait b s).
Proof.
  intros w sch Hw Hs. revert w Hw.
  induction Hs as [|e sch He Hs IH]; intros w Hw; simpl;
    destruct (0 <? _); simpl.
  - split; [by apply P_upd|constructor].
  - done.
  - split; [by apply P_upd|by constructor].
  - by apply IH, He.
Qed.

Lemma stable_sem_timedwait s abstime : stable P (sem_timedwait clock b s abstime).
Proof.
  intros w sch Hw Hs. revert w Hw.
  induction Hs as [|e sch He Hs IH]; intros w Hw; simpl;
    destruct (0 <? _); simpl; try destruct (abstime <=? _); simpl;
    try (split; [by apply P_upd|by constructor]);
    try (split; [done|by constructor]); try done.
  by apply IH, He.
Qed.

Lemma stable_sem_trywait s : stable P (sem_trywait b s).
Proof.
  intros w sch Hw Hs. unfold sem_trywait. destruct (0 <? _); simpl; [|done].
  split; [by apply P_upd|done].
Qed.

Lemma stable_sem_post s : stable P (sem_post b s).
Proof. apply stable_modify. intros; by apply P_upd. Qed.

End StableBuffer.

Ltac stable_buffer :=
  repeat match goal with
    | |- stable _ (mret _) => apply stable_ret
    | |- stable _ (mbind _ _) => apply stable_bind; [|intros ?]
    | |- stable _ (if _ then _ else _) => apply stable_if
    | |- stable _ (let '(_, _) := ?x in _) => destruct x
    | |- stable _ (pthread_mutex_lock _) => apply stable_lock
    | |- stable _ (pthread_mutex_unlock _) => apply stable_unlock
    | |- stable _ (pthread_cond_broadcast _ _) => apply stable_broadcast
    | |- stable _ (buffer_get _) => apply stable_buffer_get
    | |- stable _ (buffer_put _ _) => apply stable_buffer_put
    | |- stable _ (cond_get_wait _) => apply stable_cond_get_wait
    | |- stable _ (cond_put_wait _ _) => apply stable_cond_put_wait
    | |- stable _ (cond_poll_wait _ _ _ _) => apply stable_cond_poll_wait
    | |- stable _ (sem_wait _ _) => apply stable_sem_wait
    | |- stable _ (sem_timedwait _ _ _ _) => apply stable_sem_timedwait
    | |- stable _ (sem_trywait _ _) => apply stable_sem_trywait
    | |- stable _ (sem_post _ _) => apply stable_sem_post
    | |- forall q w, _ -> _ (assign _ q w) => assumption
    end.

Section StableBufferOps.
Context {W : Type} (P : W -> Prop) (clock : W -> Z) (b : bufref W).
Hypothesis P_assign : forall q w, P w -> P (assign b q w).

Lemma stable_sem_get : stable P (sem_protected_buffer_get b).
Proof. unfold sem_protected_buffer_get. stable_buffer. Qed.

Lemma stable_cond_get : stable P (cond_protected_buffer_get b).
Proof. unfold cond_protected_buffer_get. stable_buffer. Qed.

Lemma stable_sem_poll abstime : stable P (sem_protected_buffer_poll clock b abstime).
Proof. unfold sem_protected_buffer_poll. stable_buffer. Qed.

Lemma stable_cond_poll abstime : stable P (cond_protected_buffer_poll clock b abstime).
Proof. unfold cond_protected_buffer_poll. stable_buffer. Qed.

Lemma stable_protected_buffer_get : stable P (protected_buffer_get b).
Proof.
  intros w sch Hw Hs. unfold protected_buffer_get.
  destruct (PB.sem_impl _); [by apply stable_sem_get | by apply stable_cond_get].
Qed.

Lemma stable_protected_buffer_poll abstime :
  stable P (protected_buffer_poll clock b abstime).
Proof.
  intros w sch Hw Hs. unfold protected_buffer_poll.
  destruct (PB.sem_impl _); [by apply stable_sem_poll | by apply stable_cond_poll].
Qed.

End StableBufferOps.

(* ===================================================================== *)
(** * TP3: what the buffer operations do *)
(* ===================================================================== *)


Section BufferFacts.
Context {W : Type} (clock : W -> Z) (b : bufref W).
Hypothesis deref_assign : forall q w, deref b (assign b q w) = q.
Hypothesis assign_assign : forall q q' w, assign b q (assign b q' w) = assign b q w.
Hypothesis clock_assign : forall q w, clock (assign b q w) = clock w.

Lemma lock_free w sch :
  PB.m (deref b w) = false ->
  pthread_mutex_lock b w sch = Done tt (assign b (PB.with_m true (deref b w)) w) sch.
Proof.
  intros H. unfold pthread_mutex_lock. rewrite await_ready; [done|by rewrite H].
Qed.

Lemma cond_add_quiet d w sch :
  PB.m (deref b w) = false ->
  cond_protected_buffer_add b d w sch =
  let q := deref b w in
  let '(done, r) := circular_buffer_put (PB.buffer q) d in
  Done done
       (assign b (PB.mk (PB.sem_impl q) r false (PB.empty q) (S (PB.full q))
                        (PB.s_m q) (PB.s_full q) (PB.s_empty q)) w) sch.
Proof.
  intros H. unfold cond_protected_buffer_add, mbind, M_bind.
  rewrite lock_free by done.
  unfold buffer_put, ring_put, upd. rewrite !deref_assign. simpl.
  destruct (circular_buffer_put _ d) as [done r].
  unfold pthread_cond_broadcast, pthread_mutex_unlock, modify, upd; simpl.
  rewrite !deref_assign, !assign_assign. simpl. done.
Qed.

Lemma cond_remove_quiet w sch :
  PB.m (deref b w) = false ->
  cond_protected_buffer_remove b w sch =
  let q := deref b w in
  let '(d, r) := circular_buffer_get (PB.buffer q) in
  Done d
       (assign b (PB.mk (PB.sem_impl q) r false
                        (if d =? NULL then PB.empty q else S (PB.empty q))
                        (PB.full q) (PB.s_m q) (PB.s_full q) (PB.s_empty q)) w) sch.
Proof.
  intros H. unfold cond_protected_buffer_remove, mbind, M_bind.
  rewrite lock_free by done.
  unfold buffer_get, ring_get, upd. rewrite !deref_assign. simpl.
  destruct (circular_buffer_get _) as [d r].
  destruct (d =? NULL); simpl;
  unfold pthread_cond_broadcast, pthread_mutex_unlock, modify, upd; simpl;
  rewrite !deref_assign, !assign_assign; simpl; done.
Qed.


(** With two free slots or more, [cond_protected_buffer_put] stores the
    value twice. *)
Lemma cond_put_stores_twice d w sch :
  PB.m (deref b w) = false -> ring_ok (PB.buffer (deref b w)) ->
  (2 <= room b w)%nat ->
  exists w', cond_protected_buffer_put b d w sch = Done tt w' sch /\
             held b w' = held b w ++ [d; d].
Proof.
  unfold room, held. intros Hm Hr Hroom.
  unfold cond_protected_buffer_put, mbind, M_bind.
  rewrite lock_free by done.
  destruct (put_ok _ d Hr) as (r1 & Hput1 & Hr1 & Hc1 & Hmax1); [lia|].
  assert (Hs1 : Ring.size r1 = S (Ring.size (PB.buffer (deref b w)))).
  { rewrite <- !contents_length, Hc1, length_app. simpl. lia. }
  destruct (put_ok r1 d Hr1) as (r2 & Hput2 & Hr2 & Hc2 & Hmax2); [lia|].
  destruct sch; simpl; unfold ring_put, upd; rewrite !deref_assign; simpl;
    rewrite Hput1; simpl;
    unfold pthread_cond_broadcast, buffer_put, ring_put, pthread_mutex_unlock,
           modify, upd; simpl; rewrite !deref_assign; simpl;
    rewrite Hput2; rewrite !deref_assign; simpl;
    (eexists; split; [reflexivity|]); rewrite deref_assign; simpl;
    rewrite Hc2, Hc1, <- app_assoc; done.
Qed.

Lemma sem_wait_free s w sch :
  (0 <? PB.sem s (deref b w)) = true ->
  sem_wait b s w sch
  = Done tt (upd b (fun q => PB.with_sem s (PB.sem s q - 1) q) w) sch.
Proof. intros H. destruct sch; cbn [sem_wait]; by rewrite H. Qed.

Lemma sem_timedwait_free s abstime w sch :
  (0 <? PB.sem s (deref b w)) = true ->
  sem_timedwait clock b s abstime w sch
  = Done 0 (upd b (fun q => PB.with_sem s (PB.sem s q - 1) q) w) sch.
Proof. intros H. destruct sch; cbn [sem_timedwait]; by rewrite H. Qed.

Lemma sem_timedwait_past s abstime w sch :
  (0 <? PB.sem s (deref b w)) = false -> (abstime <=? clock w) = true ->
  sem_timedwait clock b s abstime w sch = Done (-1) w sch.
Proof. intros H H'. destruct sch; cbn [sem_timedwait]; by rewrite H, H'. Qed.

(** [sem_protected_buffer_put] stores the value once and posts [s_full]. *)
Lemma sem_put_stores_once d w sch :
  0 < PB.s_empty (deref b w) -> 0 < PB.s_m (deref b w) ->
  ring_ok (PB.buffer (deref b w)) -> (1 <= room b w)%nat ->
  exists w', sem_protected_buffer_put b d w sch = Done tt w' sch /\
             held b w' = held b w ++ [d] /\
             PB.s_full (deref b w') = PB.s_full (deref b w) + 1 /\
             PB.s_m (deref b w') = PB.s_m (deref b w).
Proof.
  unfold room, held. intros He Hm Hr Hroom.
  destruct (put_ok _ d Hr) as (r1 & Hput1 & Hr1 & Hc1 & Hmax1); [lia|].
  apply Z.ltb_lt in He, Hm.
  unfold sem_protected_buffer_put, mbind, M_bind.
  rewrite sem_wait_free by done.
  rewrite sem_wait_free by (unfold upd; by rewrite deref_assign).
  unfold buffer_put, ring_put, sem_post, modify, upd.
  rewrite !deref_assign. cbn [PB.buffer PB.with_sem PB.sem]. rewrite Hput1.
  rewrite !deref_assign. cbn [PB.with_buffer PB.with_sem PB.sem PB.s_m].
  eexists; split; [reflexivity|]. rewrite deref_assign.
  simpl. split; [done|]. split; lia.
Qed.

(** A successful [sem_protected_buffer_add] leaves [s_full] as it was and
    returns a permit too many to [s_m]. *)
Lemma sem_add_permits d w sch :
  0 < PB.s_empty (deref b w) ->
  ring_ok (PB.buffer (deref b w)) -> (1 <= room b w)%nat ->
  exists w', sem_protected_buffer_add b d w sch = Done 1 w' sch /\
             held b w' = held b w ++ [d] /\
             PB.s_full (deref b w') = PB.s_full (deref b w) /\
             PB.s_m (deref b w') =
               (if 0 <? PB.s_m (deref b w) then PB.s_m (deref b w) + 1
                else PB.s_m (deref b w) + 2).
Proof.
  unfold room, held. intros He Hr Hroom.
  destruct (put_ok _ d Hr) as (r1 & Hput1 & Hr1 & Hc1 & Hmax1); [lia|].
  apply Z.ltb_lt in He.
  unfold sem_protected_buffer_add, mbind, M_bind, sem_trywait.
  cbn [PB.sem]. rewrite He. rewrite Z.eqb_refl.
  unfold upd. rewrite !deref_assign. cbn [PB.with_sem PB.s_m].
  destruct (0 <? PB.s_m (deref b w)) eqn:Hm;
    unfold buffer_put, ring_put, sem_post, modify, upd;
    rewrite ?deref_assign; cbn [PB.buffer PB.with_sem PB.sem]; rewrite Hput1;
    rewrite ?deref_assign; cbn [PB.with_buffer PB.with_sem PB.sem PB.s_m];
    (eexists; split; [reflexivity|]); rewrite deref_assign;
    simpl; (split; [done|]); split; lia.
Qed.

(** [sem_protected_buffer_remove] does not look at what [sem_trywait] on
    [s_m] answers: with [s_m] at 0, held by another thread, it takes the
    element all the same and leaves [s_m] at 1. *)
Lemma sem_remove_enters_without_lock x xs w sch :
  PB.s_m (deref b w) = 0 -> 0 < PB.s_full (deref b w) ->
  ring_ok (PB.buffer (deref b w)) -> held b w = x :: xs ->
  exists w', sem_protected_buffer_remove b w sch = Done x w' sch /\
             held b w' = xs /\ PB.s_m (deref b w') = 1.
Proof.
  unfold held. intros Hm Hf Hr Hc.
  destruct (get_ok _ x xs Hr Hc) as (r1 & Hget & _ & Hc1 & _).
  apply Z.ltb_lt in Hf.
  unfold sem_protected_buffer_remove, mbind, M_bind, sem_trywait.
  cbn [PB.sem]. rewrite Hf. rewrite Z.eqb_refl.
  unfold upd. rewrite !deref_assign. cbn [PB.with_sem PB.s_m]. rewrite Hm.
  cbn [Z.ltb Z.compare].
  unfold buffer_get, ring_get, sem_post, modify, upd.
  rewrite ?deref_assign. cbn [PB.buffer PB.with_sem PB.sem]. rewrite Hget.
  rewrite ?deref_assign. cbn [PB.with_buffer PB.with_sem PB.sem PB.s_m].
  eexists; split; [reflexivity|]. rewrite deref_assign. simpl.
  split; [done|]. lia.
Qed.

(** In the monitor strategy [add] fails exactly when the buffer is full. *)
Lemma cond_add_fails_iff_full d w sch :
  PB.m (deref b w) = false ->
  returned (cond_protected_buffer_add b d w sch)
  = Some (if (Ring.size (PB.buffer (deref b w))
              =? Ring.max_size (PB.buffer (deref b w)))%nat then 0 else 1).
Proof.
  intros Hm. rewrite cond_add_quiet by done. cbv zeta.
  unfold circular_buffer_put. by destruct (_ =? _)%nat.
Qed.

(** In the monitor strategy [remove] returns [NULL] exactly when the buffer
    is empty, [NULL] itself never being stored. *)
Lemma cond_remove_fails_iff_empty w sch :
  PB.m (deref b w) = false -> ring_ok (PB.buffer (deref b w)) ->
  Forall (fun d => d <> NULL) (held b w) ->
  exists d, returned (cond_protected_buffer_remove b w sch) = Some d /\
            (d = NULL <-> held b w = []).
Proof.
  unfold held. intros Hm Hr Hnn. rewrite cond_remove_quiet by done. cbv zeta.
  destruct (contents (PB.buffer (deref b w))) as [|x xs] eqn:Hc.
  - rewrite get_empty by (by rewrite <- contents_length, Hc).
    exists NULL. done.
  - destruct (get_ok _ x xs Hr Hc) as (r & -> & _). exists x. split; [done|].
    apply Forall_cons in Hnn as [? _]. split; [done|discriminate].
Qed.

(** In the monitor strategy [poll] with a deadline that has passed is
    [remove]. *)
Lemma cond_poll_past_is_remove abstime w sch :
  PB.m (deref b w) = false -> abstime <= clock w ->
  cond_protected_buffer_poll clock b abstime w sch
  = cond_protected_buffer_remove b w sch.
Proof.
  intros Hm Hpast.
  unfold cond_protected_buffer_poll, cond_protected_buffer_remove, mbind, M_bind.
  rewrite lock_free by done.
  assert (Ht : forall w1, clock w1 = clock w ->
                          (timedwait_rc clock abstime w1 =? ETIMEDOUT) = true).
  { intros w1 E. unfold timedwait_rc. rewrite E.
    destruct (Z.leb_spec abstime (clock w)); [done|lia]. }
  unfold buffer_get.
  destruct sch; simpl;
    destruct (ring_get b (assign b (PB.with_m true (deref b w)) w)) as [d w1] eqn:Hg;
    assert (Hck : clock w1 = clock w)
      by (unfold ring_get in Hg; destruct (circular_buffer_get _);
          injection Hg as _ <-; unfold upd; by rewrite !clock_assign);
    destruct (d =? NULL) eqn:Hd; simpl; rewrite ?(Ht w1 Hck); simpl;
    rewrite ?Hd; simpl; try done.
Qed.

(** In the semaphore strategy [poll] with a deadline that has passed is
    [remove] while [s_m] is free. *)
Lemma sem_poll_past_is_remove abstime w sch :
  0 < PB.s_m (deref b w) -> abstime <= clock w ->
  sem_protected_buffer_poll clock b abstime w sch
  = sem_protected_buffer_remove b w sch.
Proof.
  intros Hm Hpast. apply Z.ltb_lt in Hm. apply Z.leb_le in Hpast.
  unfold sem_protected_buffer_poll, sem_protected_buffer_remove, mbind, M_bind,
         sem_trywait.
  destruct (0 <? PB.sem SemFull (deref b w)) eqn:Hf.
  - rewrite sem_timedwait_free by done. rewrite Z.eqb_refl.
    assert (Hm' : (0 <? PB.sem SemM
                     (deref b (upd b (fun q => PB.with_sem SemFull
                                                 (PB.sem SemFull q - 1) q) w)))
                  = true) by (unfold upd; by rewrite deref_assign).
    rewrite sem_wait_free by done. by rewrite Hm'.
  - rewrite sem_timedwait_past by done. done.
Qed.

(** On an empty buffer, before the deadline, [poll] parks on [b->empty],
    where [get] parks on [b->full]. *)
Lemma cond_poll_parks_on_empty_condition abstime w :
  PB.m (deref b w) = false -> Ring.size (PB.buffer (deref b w)) = 0%nat ->
  clock w < abstime ->
  exists w', cond_protected_buffer_poll clock b abstime w []
             = Blocked (OnCond BufEmpty) w'.
Proof.
  intros Hm Hz Hlt.
  unfold cond_protected_buffer_poll, mbind, M_bind.
  rewrite lock_free by done. cbn [cond_poll_wait].
  unfold ring_get, upd. rewrite !deref_assign. cbn [PB.buffer PB.with_m].
  rewrite get_empty by done. rewrite Z.eqb_refl.
  unfold timedwait_rc. rewrite !clock_assign.
  destruct (Z.leb_spec abstime (clock w)); [lia|]. cbn. eauto.
Qed.

Lemma cond_get_parks_on_full_condition w :
  PB.m (deref b w) = false -> Ring.size (PB.buffer (deref b w)) = 0%nat ->
  exists w', cond_protected_buffer_get b w [] = Blocked (OnCond BufFull) w'.
Proof.
  intros Hm Hz.
  unfold cond_protected_buffer_get, mbind, M_bind.
  rewrite lock_free by done. cbn [cond_get_wait].
  unfold ring_get, upd. rewrite !deref_assign. cbn [PB.buffer PB.with_m].
  rewrite get_empty by done. rewrite Z.eqb_refl. eauto.
Qed.

(** A successful [offer] broadcasts on [b->empty] and leaves [b->full]
    alone. *)
Lemma cond_offer_signals_empty_condition d abstime w sch :
  PB.m (deref b w) = false -> ring_ok (PB.buffer (deref b w)) ->
  (1 <= room b w)%nat ->
  exists w', cond_protected_buffer_offer clock b d abstime w sch = Done 1 w' sch /\
             held b w' = held b w ++ [d] /\
             PB.full (deref b w') = PB.full (deref b w) /\
             PB.empty (deref b w') = S (PB.empty (deref b w)).
Proof.
  unfold room, held. intros Hm Hr Hroom.
  destruct (put_ok _ d Hr) as (r1 & Hput1 & Hr1 & Hc1 & Hmax1); [lia|].
  unfold cond_protected_buffer_offer, mbind, M_bind.
  rewrite lock_free by done.
  assert (Hloop : cond_offer_wait clock b d abstime 0
                    (assign b (PB.with_m true (deref b w)) w) sch
                  = Done (1, 0)
                         (upd b (PB.with_buffer r1)
                              (assign b (PB.with_m true (deref b w)) w)) sch).
  { destruct sch; cbn [cond_offer_wait]; unfold ring_put;
      rewrite deref_assign; cbn [PB.buffer PB.with_m]; rewrite Hput1; done. }
  rewrite Hloop. cbn.
  unfold pthread_cond_broadcast, pthread_mutex_unlock, modify, upd.
  eexists. split; [reflexivity|]. rewrite !deref_assign. simpl. done.
Qed.

(** In the monitor strategy [offer] with a deadline that has passed returns
    what [add] returns and leaves the store that [add] leaves; the two
    differ in the condition they broadcast on. *)
Lemma cond_offer_past_stores_as_add d abstime w sch :
  PB.m (deref b w) = false -> abstime <= clock w ->
  exists r wo wa,
    cond_protected_buffer_offer clock b d abstime w sch = Done r wo sch /\
    cond_protected_buffer_add b d w sch = Done r wa sch /\
    PB.buffer (deref b wo) = PB.buffer (deref b wa) /\
    PB.m (deref b wo) = PB.m (deref b wa) /\
    PB.full (deref b wa) = S (PB.full (deref b w)) /\
    PB.full (deref b wo) = PB.full (deref b w).
Proof.
  intros Hm Hpast. rewrite cond_add_quiet by done. cbv zeta.
  unfold cond_protected_buffer_offer, mbind, M_bind.
  rewrite lock_free by done.
  assert (Hloop : cond_offer_wait clock b d abstime 0
                    (assign b (PB.with_m true (deref b w)) w) sch
                  = let '(done, r) := circular_buffer_put (PB.buffer (deref b w)) d in
                    Done (done, if done =? 0 then ETIMEDOUT else 0)
                         (upd b (PB.with_buffer r)
                              (assign b (PB.with_m true (deref b w)) w)) sch).
  { destruct sch; cbn [cond_offer_wait]; unfold ring_put;
      rewrite deref_assign; cbn [PB.buffer PB.with_m];
      destruct (circular_buffer_put _ d) as [res r];
      destruct (res =? 0); try reflexivity;
      unfold timedwait_rc, upd; rewrite !clock_assign;
      destruct (Z.leb_spec abstime (clock w)); try lia; reflexivity. }
  rewrite Hloop. destruct (circular_buffer_put _ d) as [res r].
  destruct (res =? 0); cbn;
    unfold pthread_cond_broadcast, pthread_mutex_unlock, modify, upd;
    do 3 eexists; (split; [reflexivity|]); (split; [reflexivity|]);
    rewrite !deref_assign; simpl; done.
Qed.

End BufferFacts.

(** The pointer to the buffer of a [buffer_world] obeys the laws assumed
    above. *)
Lemma the_buffer_deref_assign q w : deref the_buffer (assign the_buffer q w) = q.
Proof. reflexivity. Qed.

Lemma the_buffer_assign_assign q q' w :
  assign the_buffer q (assign the_buffer q' w) = assign the_buffer q w.
Proof. reflexivity. Qed.

Lemma now_assign q w : now (assign the_buffer q w) = now w.
Proof. reflexivity. Qed.

(** On a fresh monitor buffer of any capacity from 2 on, [put] stores any
    value twice. *)
Lemma cond_put_on_fresh_buffer (n : nat) (d : ptr) :
  (2 <= n)%nat ->
  exists w', cond_protected_buffer_put the_buffer d (cond_world n) [] = Done tt w' [] /\
             held the_buffer w' = [d; d].
Proof.
  intros Hn.
  destruct (cond_put_stores_twice the_buffer the_buffer_deref_assign d
              (cond_world n) []) as (w' & Hrun & Hheld).
  - reflexivity.
  - apply ring_init_ok.
  - unfold room. simpl. lia.
  - exists w'. split; [exact Hrun|]. rewrite Hheld. reflexivity.
Qed.

(** On a fresh semaphore buffer of any capacity from 1 on, a value that
    [add] has stored is out of the reach of [remove]. *)
Lemma sem_add_on_fresh_buffer (n : nat) (d : ptr) :
  (1 <= n)%nat ->
  exists w', sem_protected_buffer_add the_buffer d (sem_world n) [] = Done 1 w' [] /\
             held the_buffer w' = [d] /\
             sem_protected_buffer_remove the_buffer w' [] = Done NULL w' [].
Proof.
  intros Hn.
  destruct (sem_add_permits the_buffer the_buffer_deref_assign d
              (sem_world n) []) as (w' & Hrun & Hheld & Hfull & _).
  - simpl. lia.
  - apply ring_init_ok.
  - unfold room. simpl. lia.
  - exists w'. split; [exact Hrun|]. split; [by rewrite Hheld|].
    unfold sem_protected_buffer_remove, mbind, M_bind, sem_trywait.
    cbn [PB.sem]. rewrite Hfull. reflexivity.
Qed.

(* ===================================================================== *)
(** * TP3: the claims about the protected buffer *)
(* ===================================================================== *)

(** C1: "a call to the blocking put(v) inserts v into the underlying ring
    store exactly once ... no element lost, none duplicated".  The code
    does otherwise.  On a buffer of capacity 2 built by
    [cond_protected_buffer_init], [cond_protected_buffer_put] of the value
    7 leaves the store holding 7 twice (the loop test stores it, line 62
    stores it again); two [get]s then both return 7, so two elements are
    removed where one was inserted. *)
Theorem cond_put_stores_value_twice :
  exists w1 w2,
    cond_protected_buffer_put the_buffer 7 (cond_world 2) [] = Done tt w1 [] /\
    contents (PB.buffer (pb w1)) = [7; 7] /\
    (d1 ← cond_protected_buffer_get the_buffer ;
     d2 ← cond_protected_buffer_get the_buffer ;
     mret (d1, d2)) w1 [] = Done (7, 7) w2 [] /\
    contents (PB.buffer (pb w2)) = [].
Proof. do 2 eexists. repeat split; vm_compute; reflexivity. Qed.

(** C2: "a successful insert increments the full-slot count ... the
    exclusion semaphore's ... value never exceeds 1 ... a value inserted by
    a successful add is observable by a subsequent get or remove".  The
    code does otherwise.  On a buffer built by
    [sem_protected_buffer_init], a successful [sem_protected_buffer_add]
    stores the value, leaves [s_full] at 0 and raises [s_m] to 2 (line 115
    posts [s_m] a second time); [remove] then returns [NULL] and [get]
    parks on [s_full]. *)
Theorem sem_add_posts_exclusion_semaphore :
  exists w1,
    sem_protected_buffer_add the_buffer 7 (sem_world 2) [] = Done 1 w1 [] /\
    contents (PB.buffer (pb w1)) = [7] /\
    PB.s_full (pb w1) = 0 /\
    PB.s_m (pb w1) = 2 /\
    sem_protected_buffer_remove the_buffer w1 [] = Done NULL w1 [] /\
    sem_protected_buffer_get the_buffer w1 [] = Blocked (OnSem SemFull) w1.
Proof. eexists. repeat split; vm_compute; reflexivity. Qed.

(** C3: "the non-blocking remove (and timed poll) returns the empty
    sentinel exactly when the buffer is empty -- in both synchronization
    strategies".  The code does otherwise in the semaphore strategy: after
    a successful [add] on a buffer of capacity 1 the store holds one
    element, and [remove], as [poll], returns [NULL]. *)
Theorem sem_remove_fails_on_nonempty_buffer :
  exists w1,
    sem_protected_buffer_add the_buffer 7 (sem_world 1) [] = Done 1 w1 [] /\
    Ring.size (PB.buffer (pb w1)) = 1%nat /\
    sem_protected_buffer_remove the_buffer w1 [] = Done NULL w1 [] /\
    sem_protected_buffer_poll now the_buffer 0 w1 [] = Done NULL w1 [].
Proof. eexists. repeat split; vm_compute; reflexivity. Qed.

(** C7: "an operation needing a full slot (get/poll) waits on the 'slot
    became full' condition, every successful insert broadcasts the 'slot
    became full' condition".  The code does otherwise: on an empty buffer
    [poll] parks on [b->empty] where [get] parks on [b->full], and a
    successful [offer] broadcasts on [b->empty] and not on [b->full],
    where a successful [add] broadcasts on [b->full]. *)
Theorem cond_poll_waits_on_empty_condition :
  (exists w, cond_protected_buffer_poll now the_buffer 5 (cond_world 1) []
            = Blocked (OnCond BufEmpty) w) /\
  (exists w, cond_protected_buffer_get the_buffer (cond_world 1) []
            = Blocked (OnCond BufFull) w) /\
  (exists w, cond_protected_buffer_offer now the_buffer 7 5 (cond_world 1) []
            = Done 1 w [] /\
            contents (PB.buffer (pb w)) = [7] /\
            PB.full (pb w) = 0%nat /\ PB.empty (pb w) = 1%nat) /\
  (exists w, cond_protected_buffer_add the_buffer 7 (cond_world 1) []
            = Done 1 w [] /\
            contents (PB.buffer (pb w)) = [7] /\
            PB.full (pb w) = 1%nat /\ PB.empty (pb w) = 0%nat).
Proof. repeat split; eexists; repeat split; vm_compute; reflexivity. Qed.

(** C8: "offer(value, deadline) produces the same result and final state
    as the non-blocking add(value), in both synchronization strategies",
    for a deadline that has passed.  The code does otherwise.  In the
    semaphore strategy, on the same buffer, [offer] leaves
    [(s_m, s_full) = (1, 1)] and [add] leaves [(2, 0)]; in the monitor
    strategy [offer] has broadcast on [b->empty] and [add] on [b->full]. *)
Theorem offer_past_deadline_differs_from_add :
  (exists wo wa,
     sem_protected_buffer_offer now the_buffer 7 0 (sem_world 1) [] = Done 1 wo [] /\
     sem_protected_buffer_add the_buffer 7 (sem_world 1) [] = Done 1 wa [] /\
     (PB.s_m (pb wo), PB.s_full (pb wo)) = (1, 1) /\
     (PB.s_m (pb wa), PB.s_full (pb wa)) = (2, 0)) /\
  (exists wo wa,
     cond_protected_buffer_offer now the_buffer 7 0 (cond_world 1) [] = Done 1 wo [] /\
     cond_protected_buffer_add the_buffer 7 (cond_world 1) [] = Done 1 wa [] /\
     (PB.empty (pb wo), PB.full (pb wo)) = (1%nat, 0%nat) /\
     (PB.empty (pb wa), PB.full (pb wa)) = (0%nat, 1%nat)).
Proof. split; do 2 eexists; repeat split; vm_compute; reflexivity. Qed.



(* ===================================================================== *)
(** * TP5: properties kept by the pool and the executor *)
(* ===================================================================== *)

Section StableExecutor.
Variable P : world -> Prop.
Hypothesis P_upd_pool : forall f w, P w -> P (upd_pool f w).

Lemma stable_pool_lock : stable P pool_lock.
Proof.
  intros w sch Hw Hs. unfold pool_lock.
  pose proof (stable_await P OnMutex (fun w => negb (Pool.m (pool w))) w sch Hw Hs) as H.
  destruct (await _ _ w sch); simpl in *; try done.
  destruct H; split; [by apply P_upd_pool|done].
Qed.

Lemma stable_pool_unlock : stable P pool_unlock.
Proof. apply stable_modify. intros; by apply P_upd_pool. Qed.

Lemma stable_upd_pool f : stable P (modify (upd_pool f)).
Proof. apply stable_modify. intros; by apply P_upd_pool. Qed.

Lemma stable_pool_thread_remove : stable P pool_thread_remove.
Proof.
  unfold pool_thread_remove. cbv zeta.
  repeat match goal with
    | |- stable _ (mbind _ _) => apply stable_bind; [|intros ?]
    | |- stable _ (when _ _) => apply stable_when
    | |- stable _ pool_lock => apply stable_pool_lock
    | |- stable _ pool_unlock => apply stable_pool_unlock
    | |- stable _ (modify (upd_pool _)) => apply stable_upd_pool
    | |- stable _ (gets _) => apply stable_gets
    | |- stable _ (mret _) => apply stable_ret
    end.
Qed.

Lemma stable_pool_empty_wait : stable P pool_empty_wait.
Proof.
  intros w sch Hw Hs. revert w Hw.
  induction Hs as [|e sch He Hs IH]; intros w Hw; simpl;
    destruct (Pool.size (pool w) =? 0); simpl.
  - split; [done|constructor].
  - by apply P_upd_pool.
  - split; [done|by constructor].
  - apply IH. apply P_upd_pool, He. by apply P_upd_pool.
Qed.

Lemma stable_load_executor e : stable P (load_executor e).
Proof. intros w sch Hw Hs. unfold load_executor. destruct (_ =? _); simpl; auto. Qed.

Lemma stable_load_callable c : stable P (load_callable c).
Proof. intros w sch Hw Hs. unfold load_callable. destruct (_ !! _); simpl; auto. Qed.

Lemma stable_load_future f : stable P (load_future f).
Proof. intros w sch Hw Hs. unfold load_future. destruct (_ !! _); simpl; auto. Qed.

Lemma stable_executor_shutdown e : stable P (executor_shutdown e).
Proof.
  unfold executor_shutdown, thread_pool_shutdown, wait_thread_pool_empty.
  repeat match goal with
    | |- stable _ (mbind _ _) => apply stable_bind; [|intros ?]
    | |- stable _ pool_lock => apply stable_pool_lock
    | |- stable _ pool_unlock => apply stable_pool_unlock
    | |- stable _ (modify (upd_pool _)) => apply stable_upd_pool
    | |- stable _ (load_executor _) => apply stable_load_executor
    | |- stable _ pool_empty_wait => apply stable_pool_empty_wait
    end.
Qed.

End StableExecutor.

Section Periodic.
Variables (f cal : ptr) (n : nat).
Local Abbreviation P := (periodic_pending f cal n).

Lemma pp_executor e w : P w -> P (with_executor e w).
Proof. intros (fr & c & ?). exists fr, c. done. Qed.

Lemma pp_pool g w : P w -> P (upd_pool g w).
Proof. apply pp_executor. Qed.

Lemma pp_pending q w : P w -> P (assign pending q w).
Proof. apply pp_executor. Qed.

Lemma pp_other future x w :
  future <> f -> P w -> P (with_heap (<[future := x]> (heap w)) w).
Proof.
  intros Hne (fr & c & Hf & ?). exists fr, c. simpl.
  rewrite lookup_insert_ne by done. done.
Qed.

Lemma pp_result fr v w :
  heap w !! f = Some fr -> P w ->
  P (with_heap (<[f := Fut.with_result v fr]> (heap w)) w).
Proof.
  intros Hf (fr' & c & Hf' & ?). rewrite Hf in Hf'. injection Hf' as <-.
  exists (Fut.with_result v fr), c. simpl. rewrite lookup_insert_eq. done.
Qed.

Lemma pp_mutex fr v w :
  heap w !! f = Some fr -> P w ->
  P (with_heap (<[f := Fut.with_m v fr]> (heap w)) w).
Proof.
  intros Hf (fr' & c & Hf' & ?). rewrite Hf in Hf'. injection Hf' as <-.
  exists (Fut.with_m v fr), c. simpl. rewrite lookup_insert_eq. done.
Qed.

Lemma stable_run_callable fuel future callable executor ts :
  (future = f -> callable = cal) ->
  stable P (run_callable fuel future callable executor ts).
Proof.
  intros Hcal. revert ts.
  induction fuel as [|fuel IH]; intros ts w sch Hw Hs; [exact Hw|].
  cbn [run_callable]. unfold mbind at 1, M_bind at 1, load_callable at 1.
  destruct (callables w !! callable) as [c|] eqn:Hc; [|exact I].
  unfold mbind at 1, M_bind at 1, upd_future at 1.
  unfold mbind at 1, M_bind at 1, load_future at 1.
  destruct (heap w !! future) as [fr|] eqn:Hf; [|exact I].
  cbn [modify].
  set (w1 := with_heap _ w).
  assert (Hw1 : P w1).
  { destruct (decide (future = f)) as [->|Hne].
    - by apply pp_result.
    - by apply pp_other. }
  clearbody w1.
  destruct (Call.period c =? 0) eqn:Hp.
  - assert (Hne : future <> f).
    { intros ->. destruct Hw as (fr' & c' & _ & _ & Hc' & Hpos & _).
      rewrite (Hcal eq_refl), Hc' in Hc. injection Hc as ->.
      apply Z.eqb_eq in Hp. lia. }
    revert w1 sch Hw1 Hs.
    match goal with |- forall w1 sch, P w1 -> env_ok P sch -> holds_after P (?k w1 sch) =>
      change (stable P k) end.
    assert (Hupd : forall g, stable P (upd_future future g)).
    { intros g w' sch' Hw' Hs'. unfold upd_future, mbind, M_bind, load_future.
      destruct (heap w' !! future); [|exact I]. simpl.
      split; [by apply pp_other|done]. }
    apply stable_bind; [apply Hupd|intros _].
    apply stable_bind; [apply Hupd|intros _]. apply stable_ret.
  - revert w1 sch Hw1 Hs.
    match goal with |- forall w1 sch, P w1 -> env_ok P sch -> holds_after P (?k w1 sch) =>
      change (stable P k) end.
    apply stable_bind; [apply stable_await|intros _].
    apply stable_bind; [apply stable_load_executor|intros _].
    apply stable_bind; [apply stable_gets|intros stop].
    destruct (negb (stop =? 0)); [apply stable_ret|apply IH].
Qed.

Lemma stable_pool_thread_loop fuel future ts :
  stable P (pool_thread_loop fuel future ts).
Proof.
  revert future ts.
  induction fuel as [|fuel IH]; intros future ts w sch Hw Hs; [exact Hw|].
  cbn [pool_thread_loop].
  destruct (future =? NULL); [by apply stable_ret|].
  unfold mbind at 1, M_bind at 1, load_future at 1.
  destruct (heap w !! future) as [fr|] eqn:Hf; [|exact I].
  revert w sch Hw Hs Hf.
  assert (Hcal : forall w, P w -> heap w !! future = Some fr ->
                           future = f -> Fut.callable fr = cal).
  { intros w (fr' & c & Hf' & Hc & _) Hf ->. congruence. }
  intros w sch Hw Hs Hf.
  unfold mbind at 1, M_bind at 1, load_callable at 1.
  destruct (callables w !! Fut.callable fr) as [c|] eqn:Hc; [|exact I].
  revert w sch Hw Hs Hf Hc. intros w sch Hw Hs Hf Hc.
  generalize (Hcal w Hw Hf). clear Hcal Hf Hc. intros Hcal.
  revert w sch Hw Hs.
  match goal with |- forall w sch, P w -> env_ok P sch -> holds_after P (?k w sch) =>
    change (stable P k) end.
  apply stable_bind; [by apply stable_run_callable|intros ts'].
  apply stable_bind; [apply stable_load_executor|intros ex].
  apply stable_bind.
  { destruct (_ =? FOREVER).
    - apply stable_protected_buffer_get, pp_pending.
    - apply stable_bind; [apply stable_gets|intros ?].
      apply stable_protected_buffer_poll, pp_pending. }
  intros next. destruct (next =? NULL); [|apply IH].
  apply stable_bind; [apply stable_pool_thread_remove, pp_pool|intros r].
  destruct (negb (r =? 0)); [apply stable_ret|apply IH].
Qed.

Lemma stable_main_pool_thread fuel arg : stable P (main_pool_thread fuel arg).
Proof.
  unfold main_pool_thread.
  apply stable_bind; [apply stable_gets|intros ts].
  apply stable_bind; [apply stable_pool_thread_loop|intros _]. apply stable_ret.
Qed.

Lemma result_wait_parks w sch :
  P w -> env_ok P sch ->
  exists w', result_wait f w sch = Blocked (OnCond (FutureCond f)) w'.
Proof.
  intros Hw Hs. revert w Hw.
  induction Hs as [|e sch He Hs IH]; intros w Hw; simpl;
    pose proof Hw as (fr & c & Hf & _ & _ & _ & Hdone & _); rewrite Hf, Hdone; simpl.
  - eauto.
  - apply IH.
    assert (H1 : P (e (with_heap (<[f:=Fut.with_m false fr]> (heap w)) w)))
      by (apply He; by apply pp_mutex).
    destruct H1 as (fr1 & c1 & Hf1 & H1). exists (Fut.with_m true fr1), c1.
    simpl. rewrite lookup_alter_eq, Hf1. done.
Qed.

Lemma get_callable_result_parks w sch :
  P w -> env_ok P sch ->
  exists on w', get_callable_result f w sch = Blocked on w' /\
                (on = OnMutex \/ on = OnCond (FutureCond f)).
Proof.
  intros Hw Hs. unfold get_callable_result.
  unfold mbind at 1, M_bind at 1. unfold future_lock.
  pose proof (stable_await P OnMutex
    (fun w => match heap w !! f with Some f0 => negb (Fut.m f0) | None => true end)
    w sch Hw Hs) as H.
  destruct (await _ _ w sch) as [[] w1 sch1|on w1|w1|] eqn:Hawait; simpl in H.
  - destruct H as [Hw1 Hs1]. pose proof Hw1 as (fr & c & Hf & _).
    unfold upd_future, mbind at 1, M_bind at 1, load_future. rewrite Hf.
    cbn [modify].
    unfold mbind at 1, M_bind at 1.
    destruct (result_wait_parks (with_heap (<[f:=Fut.with_m true fr]> (heap w1)) w1)
                sch1 (pp_mutex fr true w1 Hf Hw1) Hs1) as (w' & ->).
    eauto.
  - assert (on = OnMutex) as ->.
    { clear -Hawait. revert w Hawait.
      induction sch as [|e sch IH]; intros w; simpl;
        destruct (match heap w !! f with Some _ => _ | None => _ end);
        try discriminate; [by intros [= <- _]|apply IH]. }
    eauto.
  - exfalso. clear -Hawait. revert w Hawait.
    induction sch as [|e sch IH]; intros w; simpl;
      destruct (match heap w !! f with Some _ => _ | None => _ end);
      try discriminate; apply IH.
  - exfalso. clear -Hawait. revert w Hawait.
    induction sch as [|e sch IH]; intros w; simpl;
      destruct (match heap w !! f with Some _ => _ | None => _ end);
      try discriminate; apply IH.
Qed.
End Periodic.

(* ===================================================================== *)
(** * TP5: the thread pool *)
(* ===================================================================== *)

Lemma pool_lock_free w sch :
  Pool.m (pool w) = false ->
  pool_lock w sch = Done tt (upd_pool (Pool.with_m true) w) sch.
Proof.
  intros H. unfold pool_lock. rewrite await_ready; [done|by rewrite H].
Qed.

Lemma pool_thread_create_quiet future force w sch :
  Pool.m (pool w) = false ->
  exists w',
    pool_thread_create future force w sch
    = Done (if granted force (pool w) then 1 else 0) w' sch /\
    same_frame w w' /\
    pool w' = (if granted force (pool w)
               then Pool.with_size (Pool.size (pool w) + 1) (pool w)
               else pool w) /\
    threads w' = (if granted force (pool w) then threads w ++ [future]
                  else threads w).
Proof.
  intros Hm. unfold pool_thread_create, mbind, M_bind.
  rewrite pool_lock_free by done. unfold granted.
  destruct w as [clk ea [ka [core max size sd m cv] q] cs hp th].
  cbv in Hm. subst m. cbn.
  destruct (size <? core); cbn;
    [|destruct (negb (force =? 0) && (size <? max)); cbn];
    (eexists; split; [reflexivity|]); done.
Qed.

Lemma pool_thread_remove_quiet w sch :
  Pool.m (pool w) = false ->
  exists w',
    pool_thread_remove w sch = Done 1 w' sch /\
    same_frame w w' /\ threads w' = threads w /\
    pool w' = Pool.mk (Pool.core_pool_size (pool w)) (Pool.max_pool_size (pool w))
                      (retired_size (pool w)) (Pool.shutdown (pool w)) false
                      (if retired_size (pool w) =? 0 then S (Pool.cond_var (pool w))
                       else Pool.cond_var (pool w)).
Proof.
  intros Hm. unfold pool_thread_remove, mbind, M_bind.
  rewrite pool_lock_free by done. unfold retired_size.
  destruct w as [clk ea [ka [core max size sd m cv] q] cs hp th].
  cbv in Hm. subst m. cbn.
  destruct (core <? size); cbn;
    destruct (negb (sd =? 0)); cbn;
    match goal with |- context [when (?s =? 0)] => destruct (s =? 0) end; cbn;
    eexists; (split; [reflexivity|]); done.
Qed.

Lemma pool_calls_inv core max cs : forall w,
  Pool.m (pool w) = false ->
  Pool.core_pool_size (pool w) = core -> Pool.max_pool_size (pool w) = max ->
  core <= max -> Pool.size (pool w) <= max ->
  exists w', pool_calls_run cs w [] = Done tt w' [] /\
    Pool.m (pool w') = false /\
    Pool.core_pool_size (pool w') = core /\ Pool.max_pool_size (pool w') = max /\
    Pool.size (pool w') <= max /\
    (core < Pool.size (pool w') ->
     core < Pool.size (pool w) \/
     exists fut force, In (CreateWorker fut force) cs /\ force <> 0).
Proof.
  induction cs as [|c cs IH]; intros w Hm Hcore Hmax Hle Hsz.
  - exists w. simpl. repeat split; auto.
  - cbn [pool_calls_run]. unfold mbind, M_bind. destruct c as [fut force|]; cbn [pool_call_run].
    + destruct (pool_thread_create_quiet fut force w [] Hm) as (w1 & -> & _ & Hp & _).
      assert (Hm1 : Pool.m (pool w1) = false) by (rewrite Hp; by destruct (granted _ _)).
      assert (Hc1 : Pool.core_pool_size (pool w1) = core) by (rewrite Hp; by destruct (granted _ _)).
      assert (Hx1 : Pool.max_pool_size (pool w1) = max) by (rewrite Hp; by destruct (granted _ _)).
      assert (Hs1 : Pool.size (pool w1) <= max /\
                    (core < Pool.size (pool w1) -> core < Pool.size (pool w) \/ force <> 0)).
      { rewrite Hp. unfold granted. rewrite Hcore, Hmax.
        destruct (Z.ltb_spec (Pool.size (pool w)) core); simpl; [lia|].
        destruct (Z.eqb_spec force 0); simpl; [lia|].
        destruct (Z.ltb_spec (Pool.size (pool w)) max); simpl; lia. }
      destruct Hs1 as [Hs1 Hf1].
      destruct (IH w1 Hm1 Hc1 Hx1 Hle Hs1) as (w' & Hrun & ? & ? & ? & ? & Hf).
      exists w'. repeat split; auto. intros Hgt.
      destruct (Hf Hgt) as [Hgt1|(fut' & force' & Hin & Hne)].
      * destruct (Hf1 Hgt1); [by left|]. right. exists fut, force. split; [by left|done].
      * right. exists fut', force'. split; [by right|done].
    + destruct (pool_thread_remove_quiet w [] Hm) as (w1 & -> & _ & _ & Hp).
      assert (Hr : retired_size (pool w) <= Pool.size (pool w)).
      { unfold retired_size. destruct (_ <? _); destruct (negb _); lia. }
      assert (Hm1 : Pool.m (pool w1) = false) by by rewrite Hp.
      assert (Hc1 : Pool.core_pool_size (pool w1) = core) by by rewrite Hp.
      assert (Hx1 : Pool.max_pool_size (pool w1) = max) by by rewrite Hp.
      assert (Hs1 : Pool.size (pool w1) <= max) by (rewrite Hp; simpl; lia).
      destruct (IH w1 Hm1 Hc1 Hx1 Hle Hs1) as (w' & Hrun & ? & ? & ? & ? & Hf).
      exists w'. repeat split; auto. intros Hgt.
      destruct (Hf Hgt) as [Hgt1|(fut' & force' & Hin & Hne)].
      * left. rewrite Hp in Hgt1; simpl in Hgt1. lia.
      * right. exists fut', force'. split; [by right|done].
Qed.

(** X27: the [size] field of a pool, which need not be the number of
    workers alive.  On a pool set up by [thread_pool_init] with
    [0 <= core_size <= max_size]: after every sequence of create-worker and
    retire calls the [size] field is at most [max_size], and it exceeds
    [core_size] only if the sequence holds a forced creation; and in every
    state such a sequence reaches, an unforced [pool_thread_create]
    succeeds if and only if [size] is below [core_size], a forced one if
    and only if [size] is below [max_size]; a success starts a thread and
    adds one to [size], a failure changes neither. *)
Theorem pool_size_policy (core max junk : Z) (w : world) :
  0 <= core <= max -> pool w = thread_pool_init core max junk ->
  (forall cs, exists w',
      pool_calls_run cs w [] = Done tt w' [] /\
      Pool.size (pool w') <= max /\
      (core < Pool.size (pool w') ->
       exists fut force, In (CreateWorker fut force) cs /\ force <> 0)) /\
  (forall cs w', pool_calls_run cs w [] = Done tt w' [] ->
   forall fut force, exists done w'',
      pool_thread_create fut force w' [] = Done done w'' [] /\
      (force = 0 -> (done = 1 <-> Pool.size (pool w') < core)) /\
      (force <> 0 -> (done = 1 <-> Pool.size (pool w') < max)) /\
      (done = 1 -> Pool.size (pool w'') = Pool.size (pool w') + 1 /\
                   threads w'' = threads w' ++ [fut]) /\
      (done <> 1 -> done = 0 /\ Pool.size (pool w'') = Pool.size (pool w') /\
                    threads w'' = threads w')).
Proof.
  intros Hcm Hinit.
  assert (Hm : Pool.m (pool w) = false) by by rewrite Hinit.
  assert (Hc : Pool.core_pool_size (pool w) = core) by by rewrite Hinit.
  assert (Hx : Pool.max_pool_size (pool w) = max) by by rewrite Hinit.
  assert (Hs : Pool.size (pool w) = 0) by by rewrite Hinit.
  split.
  - intros cs.
    destruct (pool_calls_inv core max cs w) as (w' & Hrun & _ & _ & _ & Hle & Hf);
      auto; try lia.
    exists w'. repeat split; auto. intros Hgt. destruct (Hf Hgt); [lia|done].
  - intros cs w' Hrun fut force.
    destruct (pool_calls_inv core max cs w) as (w1 & Hrun1 & Hm1 & Hc1 & Hx1 & _);
      auto; try lia.
    rewrite Hrun in Hrun1. injection Hrun1 as <-.
    destruct (pool_thread_create_quiet fut force w' [] Hm1) as (w'' & Hcr & _ & Hp & Ht).
    exists (if granted force (pool w') then 1 else 0), w''.
    split; [done|]. rewrite Hp, Ht. unfold granted. rewrite Hc1, Hx1.
    destruct (Z.ltb_spec (Pool.size (pool w')) core);
      destruct (Z.eqb_spec force 0);
      destruct (Z.ltb_spec (Pool.size (pool w')) max); simpl;
      repeat split; intros; try done; try lia.
Qed.

(** The policy holds on a pool of core size 1 and maximum size 2. *)
Lemma pool_size_policy_witness :
  exists w',
    pool_calls_run [CreateWorker 200 0; CreateWorker 201 0; CreateWorker 202 1;
                    CreateWorker 203 1; RetireWorker]
                   (boot 1 2 FOREVER 1 0) [] = Done tt w' [] /\
    Pool.size (pool w') <= 2.
Proof.
  destruct (pool_size_policy 1 2 0 (boot 1 2 FOREVER 1 0) ltac:(lia) eq_refl)
    as [Hseq _].
  destruct (Hseq [CreateWorker 200 0; CreateWorker 201 0; CreateWorker 202 1;
                  CreateWorker 203 1; RetireWorker]) as (w' & Hrun & Hle & _).
  exists w'. split; [exact Hrun|exact Hle].
Defined.

(** C5: "the live-worker count never exceeds max_size".  The code does
    otherwise.  [thread_pool_init] does not set [shutdown]; on a block
    where that field holds 1, [pool_thread_remove] takes two off the size
    for the one worker that ends (the size exceeds the core size, and the
    flag is set).  After an unforced and a forced creation, one
    retirement, and again an unforced and a forced creation, all four
    creations have started a thread and one worker has ended: three
    workers are alive with a maximum size of 2, the size field being 2.
    Nor does [thread_pool_init] compare the two sizes: with a core size of
    3 and a maximum size of 2, three unforced creations start three
    threads. *)
Theorem pool_runs_more_workers_than_max :
  let w := stale_flag_world in
  let w2 := after (pool_calls_run [CreateWorker 200 0; CreateWorker 201 1]) w in
  let w3 := after pool_thread_remove w2 in
  let w5 := after (pool_calls_run [CreateWorker 202 0; CreateWorker 203 1]) w3 in
  pool w = thread_pool_init 1 2 1 /\
  threads w2 = [200; 201] /\ Pool.size (pool w2) = 2 /\
  returned (pool_thread_remove w2 []) = Some 1 /\
  threads w3 = [200; 201] /\ Pool.size (pool w3) = 0 /\
  threads w5 = [200; 201; 202; 203] /\ Pool.size (pool w5) = 2 /\
  Pool.max_pool_size (pool w5) = 2 /\
  (let v := after (pool_calls_run [CreateWorker 200 0; CreateWorker 201 0;
                                   CreateWorker 202 0])
                  (boot 3 2 FOREVER 1 0) in
   pool (boot 3 2 FOREVER 1 0) = thread_pool_init 3 2 0 /\
   threads v = [200; 201; 202] /\ Pool.size (pool v) = 3 /\
   Pool.max_pool_size (pool v) = 2).
Proof. repeat split; vm_compute; reflexivity. Qed.

(** The value of [pool_thread_remove] is 1, whatever the pool. *)
Lemma pool_thread_remove_returns_1 w sch r w' sch' :
  pool_thread_remove w sch = Done r w' sch' -> r = 1.
Proof.
  unfold pool_thread_remove, mbind, M_bind, when, gets, modify, pool_unlock,
         mret, M_ret.
  destruct (pool_lock w sch); try discriminate.
  repeat match goal with
         | |- context [if ?c then _ else _] => destruct c
         end; intros [= <- _ _]; reflexivity.
Qed.

(** C6: "its boolean return value is true exactly when the calling worker
    should actually stop running (in particular it returns false for a core
    worker when the pool is not shutting down)".  The code does otherwise.
    With one worker in a pool of core size 1 that is not shutting down,
    [pool_thread_remove] returns 1 and leaves the size at 1.  In
    [main_pool_thread] the core worker whose [poll] timed out therefore
    ends, and the pool still counts it. *)
Theorem core_worker_is_told_to_stop :
  let w := after (pool_thread_create 200 0) (boot 1 2 FOREVER 1 0) in
  Pool.size (pool w) = 1 /\ Pool.core_pool_size (pool w) = 1 /\
  Pool.shutdown (pool w) = 0 /\
  returned (pool_thread_remove w []) = Some 1 /\
  Pool.size (pool (after pool_thread_remove w)) = 1 /\
  (let w1 := after (submit_callable 1000 100 200) (boot 1 1 10 1 0) in
   status (main_pool_thread 2 200 w1 [tick 10]) = Some (inl NULL) /\
   Pool.size (pool (default w1 (final (main_pool_thread 2 200 w1 [tick 10])))) = 1).
Proof. repeat split; vm_compute; reflexivity. Qed.

(* ===================================================================== *)
(** * TP5: the executor *)
(* ===================================================================== *)

Lemma pending_deref_assign q w : deref pending (assign pending q w) = q.
Proof. reflexivity. Qed.

Lemma pending_assign_assign q q' w :
  assign pending q (assign pending q' w) = assign pending q w.
Proof. reflexivity. Qed.

Lemma pending_add_quiet d w sch :
  PB.sem_impl (Exec.futures (the_executor w)) = false ->
  PB.m (Exec.futures (the_executor w)) = false ->
  protected_buffer_add pending d w sch =
  let q := Exec.futures (the_executor w) in
  let '(done, r) := circular_buffer_put (PB.buffer q) d in
  Done done
       (assign pending (PB.mk false r false (PB.empty q) (S (PB.full q))
                              (PB.s_m q) (PB.s_full q) (PB.s_empty q)) w) sch.
Proof.
  intros Hs Hm. unfold protected_buffer_add. cbn [deref pending]. rewrite Hs.
  rewrite (cond_add_quiet pending pending_deref_assign pending_assign_assign) by done.
  cbn [deref pending]. rewrite Hs. done.
Qed.

Lemma pending_remove_quiet w sch :
  PB.sem_impl (Exec.futures (the_executor w)) = false ->
  PB.m (Exec.futures (the_executor w)) = false ->
  protected_buffer_remove pending w sch =
  let q := Exec.futures (the_executor w) in
  let '(d, r) := circular_buffer_get (PB.buffer q) in
  Done d
       (assign pending (PB.mk false r false
                              (if d =? NULL then PB.empty q else S (PB.empty q))
                              (PB.full q) (PB.s_m q) (PB.s_full q) (PB.s_empty q)) w) sch.
Proof.
  intros Hs Hm. unfold protected_buffer_remove. cbn [deref pending]. rewrite Hs.
  rewrite (cond_remove_quiet pending pending_deref_assign pending_assign_assign) by done.
  cbn [deref pending]. rewrite Hs. done.
Qed.

Lemma pending_add_step d w sch :
  PB.sem_impl (Exec.futures (the_executor w)) = false ->
  PB.m (Exec.futures (the_executor w)) = false ->
  ring_ok (PB.buffer (Exec.futures (the_executor w))) ->
  exists done w',
    protected_buffer_add pending d w sch = Done done w' sch /\
    queue_frame w w' /\
    ring_ok (PB.buffer (Exec.futures (the_executor w'))) /\
    ((length (queue w) < capacity w)%nat /\ done = 1 /\ queue w' = queue w ++ [d] \/
     length (queue w) = capacity w /\ done = 0 /\ queue w' = queue w).
Proof.
  intros Hs Hm Hr. rewrite pending_add_quiet by done. cbv zeta.
  unfold queue, capacity. rewrite contents_length.
  destruct (decide (Ring.size (PB.buffer (Exec.futures (the_executor w)))
                    = Ring.max_size (PB.buffer (Exec.futures (the_executor w)))))
    as [Hfull|Hroom].
  - rewrite put_full by done. do 2 eexists. split; [reflexivity|].
    split; [done|]. split; [done|]. right. done.
  - assert (Hlt : (Ring.size (PB.buffer (Exec.futures (the_executor w)))
                   < Ring.max_size (PB.buffer (Exec.futures (the_executor w))))%nat).
    { destruct Hr as (_ & ? & _). lia. }
    destruct (put_ok _ d Hr Hlt) as (r & -> & Hr' & Hc & Hmax).
    do 2 eexists. split; [reflexivity|].
    split; [by repeat split|]. split; [done|]. left. done.
Qed.

Lemma pending_remove_step w sch :
  PB.sem_impl (Exec.futures (the_executor w)) = false ->
  PB.m (Exec.futures (the_executor w)) = false ->
  ring_ok (PB.buffer (Exec.futures (the_executor w))) ->
  exists d w',
    protected_buffer_remove pending w sch = Done d w' sch /\
    queue_frame w w' /\
    ring_ok (PB.buffer (Exec.futures (the_executor w'))) /\
    (queue w = [] /\ d = NULL /\ queue w' = [] \/
     exists rest, queue w = d :: rest /\ queue w' = rest).
Proof.
  intros Hs Hm Hr. rewrite pending_remove_quiet by done. cbv zeta.
  unfold queue, capacity.
  destruct (contents (PB.buffer (Exec.futures (the_executor w)))) as [|x xs] eqn:Hc.
  - assert (Hz : Ring.size (PB.buffer (Exec.futures (the_executor w))) = 0%nat).
    { rewrite <- contents_length, Hc. done. }
    rewrite get_empty by done. do 2 eexists. split; [reflexivity|].
    split; [done|]. split; [done|]. left. simpl. by rewrite Hc.
  - destruct (get_ok _ x xs Hr Hc) as (r & -> & Hr' & Hc' & Hmax).
    do 2 eexists. split; [reflexivity|].
    split; [by repeat split|]. split; [done|]. right. exists xs. done.
Qed.

(** C4: "submit always returns a usable Future"; the forced creation is "to
    guarantee the evicted (oldest) Future still gets run".  The code does
    otherwise.  [submit_callable] does not look at what the forced
    [pool_thread_create] of line 68 answers.  With the pool at its maximum
    size (two workers, on futures 200 and 201) and the queue full (future
    202), a fourth submission puts the new future 203 in the queue and
    returns the evicted future 202, which is then neither in the queue nor
    handed to a thread.  When both workers have served everything there is
    and wait for more, futures 200, 201 and 203 are completed and 202 is
    not; [get_callable_result] on the future returned parks. *)
Theorem submit_at_max_size_returns_future_never_run :
  let w0 := saturated_world in
  let w1 := after (submit_callable 1000 100 203) w0 in
  let w2 := after (main_pool_thread 3 201) (after (main_pool_thread 3 200) w1) in
  Pool.size (pool w0) = 2 /\ Pool.max_pool_size (pool w0) = 2 /\
  threads w0 = [200; 201] /\ queue w0 = [202] /\ capacity w0 = 1%nat /\
  returned (submit_callable 1000 100 203 w0 []) = Some 202 /\
  threads w1 = [200; 201] /\ queue w1 = [203] /\
  status (main_pool_thread 3 200 w1 []) = Some (inr (OnCond BufFull)) /\
  status (main_pool_thread 3 201 (after (main_pool_thread 3 200) w1) [])
  = Some (inr (OnCond BufFull)) /\
  queue w2 = [] /\
  Fut.completed <$> heap w2 !! 200 = Some 1 /\
  Fut.completed <$> heap w2 !! 201 = Some 1 /\
  Fut.completed <$> heap w2 !! 203 = Some 1 /\
  Fut.completed <$> heap w2 !! 202 = Some 0 /\
  status (get_callable_result 203 w2 []) = Some (inl 42) /\
  status (get_callable_result 202 w2 []) = Some (inr (OnCond (FutureCond 202))).
Proof. repeat split; vm_compute; reflexivity. Qed.

(** [executor_shutdown] leaves the queue of pending futures as it is. *)
Lemma executor_shutdown_leaves_queue e q w sch w' :
  Exec.futures (the_executor w) = q ->
  env_ok (fun w => Exec.futures (the_executor w) = q) sch ->
  final (executor_shutdown e w sch) = Some w' ->
  Exec.futures (the_executor w') = q.
Proof.
  intros Hw Hs Hfin.
  pose proof (stable_executor_shutdown
                (fun w => Exec.futures (the_executor w) = q)
                (fun _ _ H => H) e w sch Hw Hs) as H.
  destruct (executor_shutdown e w sch); simpl in *; try discriminate;
    injection Hfin as <-; tauto.
Qed.

Lemma pool_empty_wait_done w sch w' sch' :
  pool_empty_wait w sch = Done tt w' sch' -> Pool.size (pool w') = 0.
Proof.
  revert w. induction sch as [|e sch IH]; intros w; simpl;
    destruct (Pool.size (pool w) =? 0) eqn:Hz; try discriminate.
  - intros [= <- _]. by apply Z.eqb_eq.
  - intros [= <- _]. by apply Z.eqb_eq.
  - apply IH.
Qed.

(** [executor_shutdown] returns only with the size at 0. *)
Lemma executor_shutdown_returns_when_empty e w sch w' sch' :
  executor_shutdown e w sch = Done tt w' sch' -> Pool.size (pool w') = 0.
Proof.
  unfold executor_shutdown, wait_thread_pool_empty, thread_pool_shutdown,
         mbind, M_bind, modify, pool_unlock.
  destruct (load_executor e w sch) as [? wa scha| | |]; try discriminate.
  destruct (pool_lock _ _) as [? wb schb| | |]; try discriminate.
  destruct (pool_empty_wait _ _) as [[] wc schc| | |] eqn:Hw; try discriminate.
  intros [= <- _]. apply pool_empty_wait_done in Hw.
  destruct wc as [? ? [? [] ?] ? ? ?]. exact Hw.
Qed.

(** C9: "the shutdown operation explicitly unblocks workers blocked
    indefinitely on the pending-futures buffer".  The code does otherwise.
    With keep-alive [FOREVER], the worker that has served its future parks
    in [protected_buffer_get] on [b->full].  [executor_shutdown] sets the
    flag, puts nothing in the queue, broadcasts nothing on [b->full], and
    parks on the pool's condition with the size at 1; woken after it, the
    worker parks again. *)
Theorem shutdown_leaves_workers_blocked :
  let w1 := after (submit_callable 1000 100 200) (boot 1 1 FOREVER 1 0) in
  let w2 := after (main_pool_thread 2 200) w1 in
  let w3 := after (executor_shutdown 1000) w2 in
  status (main_pool_thread 2 200 w1 []) = Some (inr (OnCond BufFull)) /\
  status (executor_shutdown 1000 w2 []) = Some (inr (OnCond PoolCond)) /\
  Pool.shutdown (pool w3) = 1 /\ Pool.size (pool w3) = 1 /\
  queue w3 = [] /\
  PB.full (Exec.futures (the_executor w3)) = PB.full (Exec.futures (the_executor w2)) /\
  status (main_pool_thread 2 200 w1 [after (executor_shutdown 1000)])
  = Some (inr (OnCond BufFull)).
Proof. repeat split; vm_compute; reflexivity. Qed.

(** C10: for a future that wraps a callable of period > 0, in an
    environment that leaves the future not completed and its callable
    periodic: however long [main_pool_thread] runs, whatever future it
    started with, and whether it is still running, parked or has returned
    after a shutdown request, the future is still not completed and no
    signal has been sent on its condition; and [get_callable_result] on
    that future stays parked. *)
Theorem periodic_future_is_never_completed
  (future callable : ptr) (broadcasts : nat) (fuel : nat) (arg : ptr)
  (w : world) (sch : schedule world) :
  periodic_pending future callable broadcasts w ->
  env_ok (periodic_pending future callable broadcasts) sch ->
  (forall w', final (main_pool_thread fuel arg w sch) = Some w' ->
              periodic_pending future callable broadcasts w') /\
  (exists on w', get_callable_result future w sch = Blocked on w').
Proof.
  intros Hw Hs. split.
  - intros w' Hfin.
    pose proof (stable_main_pool_thread future callable broadcasts fuel arg w sch Hw Hs) as H.
    destruct (main_pool_thread fuel arg w sch); simpl in *; try discriminate;
      injection Hfin as <-; tauto.
  - destruct (get_callable_result_parks future callable broadcasts w sch Hw Hs)
      as (on & w' & Hrun & _).
    eauto.
Qed.

(** A periodic task of period 50 on a pool of one worker; the environment
    lets time pass, then requests the shutdown. *)
Lemma periodic_future_is_never_completed_witness :
  periodic_pending 200 100 0 periodic_world /\
  (forall w', final (main_pool_thread 5 200 periodic_world [tick 50; request_stop])
              = Some w' ->
              periodic_pending 200 100 0 w') /\
  (exists on w',
     get_callable_result 200 periodic_world [tick 50; request_stop]
     = Blocked on w').
Proof.
  assert (H0 : periodic_pending 200 100 0 periodic_world).
  { exists (Fut.mk 100 0 0 false 0), (Call.with_executor 1000 (task 50)).
    repeat split; reflexivity. }
  split; [exact H0|].
  apply (periodic_future_is_never_completed 200 100 0 5 200 periodic_world
           [tick 50; request_stop] H0).
  repeat constructor; intros w (f & c & H); exists f, c; exact H.
Defined.

(** The run of the witness: the task is executed at each release; with
    time only passing the worker sleeps until the next release; after the
    shutdown request it leaves the task and waits for the next future.
    The result is written, the future is not completed. *)
Lemma periodic_worker_stops_on_shutdown :
  status (main_pool_thread 5 200 periodic_world [tick 50; tick 50])
  = Some (inr OnTimer) /\
  status (main_pool_thread 5 200 periodic_world [tick 50; request_stop])
  = Some (inr (OnCond BufFull)) /\
  (fun f => (Fut.result f, Fut.completed f, Fut.cond_var f))
    <$> (final (main_pool_thread 5 200 periodic_world [tick 50; request_stop])
         ≫= fun w => heap w !! 200)
  = Some (42, 0, 0%nat).
Proof. repeat split; vm_compute; reflexivity. Qed.

(** By contrast, a one-shot task: the worker completes the future, signals
    it, and [get_callable_result] returns the task's output. *)
Lemma one_shot_future_completes :
  let w1 := after (submit_callable 1000 100 200) (boot 1 1 FOREVER 1 0) in
  let w2 := after (main_pool_thread 2 200) w1 in
  (fun f => (Fut.result f, Fut.completed f, Fut.cond_var f)) <$> heap w2 !! 200
  = Some (42, 1, 1%nat) /\
  status (get_callable_result 200 w2 []) = Some (inl 42).
Proof. repeat split; vm_compute; reflexivity. Qed.

(* ===================================================================== *)
(** * TP3: the operations of the monitor strategy, one by one *)
(* ===================================================================== *)

Section MonitorSteps.
Context {W : Type} (clock : W -> Z) (b : bufref W).
Hypothesis deref_assign : forall q w, deref b (assign b q w) = q.
Hypothesis assign_assign : forall q q' w, assign b q (assign b q' w) = assign b q w.
Hypothesis clock_assign : forall q w, clock (assign b q w) = clock w.

Lemma cond_get_quiet d r w sch :
  PB.m (deref b w) = false ->
  circular_buffer_get (PB.buffer (deref b w)) = (d, r) -> d <> NULL ->
  cond_protected_buffer_get b w sch
  = Done d (assign b (left_by r 1 0 (deref b w)) w) sch.
Proof.
  intros Hm Hg Hd. apply Z.eqb_neq in Hd.
  unfold cond_protected_buffer_get, mbind, M_bind.
  rewrite (lock_free b) by done.
  destruct sch; cbn [cond_get_wait]; unfold ring_get, upd;
    rewrite deref_assign; cbn [PB.buffer PB.with_m]; rewrite Hg, Hd;
    unfold pthread_cond_broadcast, pthread_mutex_unlock, modify, upd, mret, M_ret;
    rewrite !deref_assign, !assign_assign; reflexivity.
Qed.

Lemma cond_get_parks w :
  PB.m (deref b w) = false ->
  circular_buffer_get (PB.buffer (deref b w)) = (NULL, PB.buffer (deref b w)) ->
  cond_protected_buffer_get b w []
  = Blocked (OnCond BufFull) (assign b (left_by (PB.buffer (deref b w)) 0 0 (deref b w)) w).
Proof.
  intros Hm Hg.
  unfold cond_protected_buffer_get, mbind, M_bind.
  rewrite (lock_free b) by done.
  cbn [cond_get_wait]; unfold ring_get, release, upd;
    rewrite deref_assign; cbn [PB.buffer PB.with_m]; rewrite Hg.
  rewrite Z.eqb_refl. rewrite !deref_assign, !assign_assign. reflexivity.
Qed.

Lemma cond_put_quiet d r1 x r2 w sch :
  PB.m (deref b w) = false ->
  circular_buffer_put (PB.buffer (deref b w)) d = (1, r1) ->
  circular_buffer_put r1 d = (x, r2) ->
  cond_protected_buffer_put b d w sch
  = Done tt (assign b (left_by r2 0 1 (deref b w)) w) sch.
Proof.
  intros Hm Hp1 Hp2.
  unfold cond_protected_buffer_put, mbind, M_bind.
  rewrite (lock_free b) by done.
  destruct sch; cbn [cond_put_wait]; unfold ring_put, upd;
    rewrite deref_assign; cbn [PB.buffer PB.with_m]; rewrite Hp1;
    cbn [Z.eqb];
    unfold pthread_cond_broadcast, buffer_put, ring_put, pthread_mutex_unlock,
           modify, upd;
    rewrite !deref_assign; cbn [PB.buffer PB.with_buffer PB.broadcast];
    rewrite Hp2; rewrite !deref_assign, !assign_assign; reflexivity.
Qed.

Lemma cond_put_parks d w :
  PB.m (deref b w) = false ->
  circular_buffer_put (PB.buffer (deref b w)) d = (0, PB.buffer (deref b w)) ->
  cond_protected_buffer_put b d w []
  = Blocked (OnCond BufEmpty)
            (assign b (left_by (PB.buffer (deref b w)) 0 0 (deref b w)) w).
Proof.
  intros Hm Hp.
  unfold cond_protected_buffer_put, mbind, M_bind.
  rewrite (lock_free b) by done.
  cbn [cond_put_wait]; unfold ring_put, release, upd;
    rewrite deref_assign; cbn [PB.buffer PB.with_m]; rewrite Hp.
  cbn [Z.eqb]. rewrite !deref_assign, !assign_assign. reflexivity.
Qed.

Lemma cond_poll_quiet abstime d r w sch :
  PB.m (deref b w) = false ->
  circular_buffer_get (PB.buffer (deref b w)) = (d, r) -> d <> NULL ->
  cond_protected_buffer_poll clock b abstime w sch
  = Done d (assign b (left_by r 1 0 (deref b w)) w) sch.
Proof.
  intros Hm Hg Hd. apply Z.eqb_neq in Hd.
  unfold cond_protected_buffer_poll, mbind, M_bind.
  rewrite (lock_free b) by done.
  destruct sch; cbn [cond_poll_wait]; unfold ring_get, upd;
    rewrite deref_assign; cbn [PB.buffer PB.with_m]; rewrite Hg, Hd;
    cbn [Z.eqb ETIMEDOUT];
    unfold pthread_cond_broadcast, pthread_mutex_unlock, modify, upd, mret, M_ret;
    rewrite !deref_assign, !assign_assign; reflexivity.
Qed.

Lemma cond_poll_expired abstime w sch :
  PB.m (deref b w) = false ->
  circular_buffer_get (PB.buffer (deref b w)) = (NULL, PB.buffer (deref b w)) ->
  abstime <= clock w ->
  cond_protected_buffer_poll clock b abstime w sch
  = Done NULL (assign b (left_by (PB.buffer (deref b w)) 0 0 (deref b w)) w) sch.
Proof.
  intros Hm Hg Ht. apply Z.leb_le in Ht.
  unfold cond_protected_buffer_poll, mbind, M_bind.
  rewrite (lock_free b) by done.
  destruct sch; cbn [cond_poll_wait]; unfold ring_get, upd;
    rewrite deref_assign; cbn [PB.buffer PB.with_m]; rewrite Hg;
    rewrite Z.eqb_refl; unfold timedwait_rc; rewrite !clock_assign, Ht;
    rewrite Z.eqb_refl; cbv beta iota; rewrite Z.eqb_refl;
    unfold pthread_cond_broadcast, pthread_mutex_unlock, modify, upd, mret, M_ret;
    rewrite !deref_assign, !assign_assign; reflexivity.
Qed.

Lemma cond_poll_parks abstime w :
  PB.m (deref b w) = false ->
  circular_buffer_get (PB.buffer (deref b w)) = (NULL, PB.buffer (deref b w)) ->
  clock w < abstime ->
  cond_protected_buffer_poll clock b abstime w []
  = Blocked (OnCond BufEmpty)
            (assign b (left_by (PB.buffer (deref b w)) 0 0 (deref b w)) w).
Proof.
  intros Hm Hg Ht. apply Z.leb_gt in Ht.
  unfold cond_protected_buffer_poll, mbind, M_bind.
  rewrite (lock_free b) by done.
  cbn [cond_poll_wait]; unfold ring_get, release, upd;
    rewrite deref_assign; cbn [PB.buffer PB.with_m]; rewrite Hg;
    rewrite Z.eqb_refl; unfold timedwait_rc; rewrite !clock_assign, Ht.
  cbn [Z.eqb ETIMEDOUT]. rewrite !deref_assign, !assign_assign. reflexivity.
Qed.

Lemma cond_offer_quiet d abstime r w sch :
  PB.m (deref b w) = false ->
  circular_buffer_put (PB.buffer (deref b w)) d = (1, r) ->
  cond_protected_buffer_offer clock b d abstime w sch
  = Done 1 (assign b (left_by r 1 0 (deref b w)) w) sch.
Proof.
  intros Hm Hp.
  unfold cond_protected_buffer_offer, mbind, M_bind.
  rewrite (lock_free b) by done.
  destruct sch; cbn [cond_offer_wait]; unfold ring_put, upd;
    rewrite deref_assign; cbn [PB.buffer PB.with_m]; rewrite Hp;
    cbn [Z.eqb ETIMEDOUT];
    unfold pthread_cond_broadcast, pthread_mutex_unlock, modify, upd, mret, M_ret;
    rewrite !deref_assign, !assign_assign; reflexivity.
Qed.

Lemma cond_offer_expired d abstime w sch :
  PB.m (deref b w) = false ->
  circular_buffer_put (PB.buffer (deref b w)) d = (0, PB.buffer (deref b w)) ->
  abstime <= clock w ->
  cond_protected_buffer_offer clock b d abstime w sch
  = Done 0 (assign b (left_by (PB.buffer (deref b w)) 0 0 (deref b w)) w) sch.
Proof.
  intros Hm Hp Ht. apply Z.leb_le in Ht.
  unfold cond_protected_buffer_offer, mbind, M_bind.
  rewrite (lock_free b) by done.
  destruct sch; cbn [cond_offer_wait]; unfold ring_put, upd;
    rewrite deref_assign; cbn [PB.buffer PB.with_m]; rewrite Hp;
    cbn [Z.eqb]; unfold timedwait_rc; rewrite !clock_assign, Ht;
    rewrite Z.eqb_refl; cbv beta iota; rewrite Z.eqb_refl;
    unfold pthread_cond_broadcast, pthread_mutex_unlock, modify, upd, mret, M_ret;
    rewrite !deref_assign, !assign_assign; reflexivity.
Qed.

Lemma cond_offer_parks d abstime w :
  PB.m (deref b w) = false ->
  circular_buffer_put (PB.buffer (deref b w)) d = (0, PB.buffer (deref b w)) ->
  clock w < abstime ->
  cond_protected_buffer_offer clock b d abstime w []
  = Blocked (OnCond BufFull)
            (assign b (left_by (PB.buffer (deref b w)) 0 0 (deref b w)) w).
Proof.
  intros Hm Hp Ht. apply Z.leb_gt in Ht.
  unfold cond_protected_buffer_offer, mbind, M_bind.
  rewrite (lock_free b) by done.
  cbn [cond_offer_wait]; unfold ring_put, release, upd;
    rewrite deref_assign; cbn [PB.buffer PB.with_m]; rewrite Hp;
    cbn [Z.eqb]; unfold timedwait_rc; rewrite !clock_assign, Ht.
  cbn [Z.eqb ETIMEDOUT]. rewrite !deref_assign, !assign_assign. reflexivity.
Qed.

End MonitorSteps.

(* ===================================================================== *)
(** * TP3: the monitor buffer as a queue *)
(* ===================================================================== *)

Section MonitorQueue.
Context {W : Type} (clock : W -> Z) (b : bufref W).
Hypothesis deref_assign : forall q w, deref b (assign b q w) = q.
Hypothesis assign_assign : forall q q' w, assign b q (assign b q' w) = assign b q w.
Hypothesis clock_assign : forall q w, clock (assign b q w) = clock w.

Lemma left_by_idle cap r de df w :
  ring_ok r -> Ring.max_size r = cap ->
  monitor_idle b cap (assign b (left_by r de df (deref b w)) w) /\
  held b (assign b (left_by r de df (deref b w)) w) = contents r /\
  clock (assign b (left_by r de df (deref b w)) w) = clock w.
Proof.
  intros Hr Hc. unfold monitor_idle, held. rewrite deref_assign, clock_assign.
  done.
Qed.

Lemma held_nil_get w :
  held b w = [] ->
  circular_buffer_get (PB.buffer (deref b w)) = (NULL, PB.buffer (deref b w)).
Proof.
  intros H. apply get_empty. rewrite <- contents_length. unfold held in H.
  by rewrite H.
Qed.

Lemma held_full_put cap d w :
  monitor_idle b cap w -> (length (held b w) <? cap)%nat = false ->
  circular_buffer_put (PB.buffer (deref b w)) d = (0, PB.buffer (deref b w)).
Proof.
  intros (_ & Hr & Hc) H. apply Nat.ltb_ge in H.
  unfold held in H. rewrite contents_length in H.
  apply put_full. destruct Hr as (_ & ? & _). lia.
Qed.

Lemma cond_call_refines cap c w :
  monitor_idle b cap w -> Forall (fun x => x <> NULL) (held b w) ->
  inserted c <> Some NULL ->
  match fifo_call true cap (clock w) c (held b w) with
  | Some (r, l') =>
      exists w', cond_call clock b c w [] = Done r w' [] /\
                 monitor_idle b cap w' /\ held b w' = l' /\
                 clock w' = clock w
  | None => exists on w', cond_call clock b c w [] = Blocked on w'
  end.
Proof.
  intros Hidle Hnn Hins. pose proof Hidle as (Hm & Hr & Hc).
  destruct c as [|d| |d|abstime|d abstime]; cbn [fifo_call cond_call].
  - (* get *)
    destruct (held b w) as [|x xs] eqn:Hh.
    + do 2 eexists. apply cond_get_parks; auto using held_nil_get.
    + destruct (get_ok _ x xs Hr Hh) as (r & Hg & Hr' & Hc' & Hmax).
      apply Forall_cons in Hnn as [Hx _].
      eexists. split; [by apply cond_get_quiet|].
      rewrite <- Hc'. apply left_by_idle; [done|congruence].
  - (* put *)
    destruct (length (held b w) <? cap)%nat eqn:Hl.
    + apply Nat.ltb_lt in Hl. pose proof Hl as Hl'. unfold held in Hl'.
      rewrite contents_length in Hl'.
      destruct (put_ok _ d Hr) as (r1 & Hp1 & Hr1 & Hc1 & Hmax1); [lia|].
      assert (Hs1 : Ring.size r1 = S (length (held b w))).
      { rewrite <- contents_length, Hc1, length_app. unfold held. simpl. lia. }
      unfold mbind, M_bind. cbn [andb].
      destruct (S (length (held b w)) <? cap)%nat eqn:Hl2.
      * apply Nat.ltb_lt in Hl2.
        destruct (put_ok r1 d Hr1) as (r2 & Hp2 & Hr2 & Hc2 & Hmax2); [lia|].
        rewrite (cond_put_quiet b deref_assign assign_assign d r1 1 r2) by done.
        eexists. split; [reflexivity|].
        replace (held b w ++ [d; d]) with (contents r2)
          by (rewrite Hc2, Hc1, <- app_assoc; done).
        apply left_by_idle; [done|congruence].
      * apply Nat.ltb_ge in Hl2.
        rewrite (cond_put_quiet b deref_assign assign_assign d r1 0 r1);
          [|done|done|apply put_full; lia].
        eexists. split; [reflexivity|].
        replace (held b w ++ [d]) with (contents r1) by done.
        apply left_by_idle; [done|congruence].
    + unfold mbind, M_bind.
      rewrite (cond_put_parks b deref_assign assign_assign)
        by eauto using held_full_put.
      by do 2 eexists.
  - (* remove *)
    rewrite (cond_remove_quiet b deref_assign assign_assign) by done. cbv zeta.
    destruct (held b w) as [|x xs] eqn:Hh.
    + rewrite held_nil_get by done. eexists. split; [reflexivity|].
      unfold monitor_idle, held. rewrite deref_assign, clock_assign.
      cbn [PB.m PB.buffer]. split_and!; try done.
    + destruct (get_ok _ x xs Hr Hh) as (r & -> & Hr' & Hc' & Hmax).
      eexists. split; [reflexivity|].
      unfold monitor_idle, held. rewrite deref_assign, clock_assign.
      cbn [PB.m PB.buffer]. split_and!; try done. congruence.
  - (* add *)
    rewrite (cond_add_quiet b deref_assign assign_assign) by done. cbv zeta.
    destruct (length (held b w) <? cap)%nat eqn:Hl.
    + apply Nat.ltb_lt in Hl. unfold held in Hl. rewrite contents_length in Hl.
      destruct (put_ok _ d Hr) as (r1 & -> & Hr1 & Hc1 & Hmax1); [lia|].
      eexists. split; [reflexivity|].
      unfold monitor_idle, held. rewrite deref_assign, clock_assign.
      cbn [PB.m PB.buffer]. split_and!; try done. congruence.
    + rewrite (held_full_put cap) by done.
      eexists. split; [reflexivity|].
      unfold monitor_idle, held. rewrite deref_assign, clock_assign.
      cbn [PB.m PB.buffer]. split_and!; try done.
  - (* poll *)
    destruct (held b w) as [|x xs] eqn:Hh.
    + destruct (Z.leb_spec abstime (clock w)).
      * eexists. split; [apply cond_poll_expired; auto using held_nil_get|].
        unfold monitor_idle, held. rewrite deref_assign, clock_assign.
        cbn [PB.m PB.buffer left_by]. split_and!; try done.
      * do 2 eexists. apply cond_poll_parks; auto using held_nil_get.
    + destruct (get_ok _ x xs Hr Hh) as (r & Hg & Hr' & Hc' & Hmax).
      apply Forall_cons in Hnn as [Hx _].
      eexists. split; [by apply cond_poll_quiet|].
      rewrite <- Hc'. apply left_by_idle; [done|congruence].
  - (* offer *)
    destruct (length (held b w) <? cap)%nat eqn:Hl.
    + apply Nat.ltb_lt in Hl. unfold held in Hl. rewrite contents_length in Hl.
      destruct (put_ok _ d Hr) as (r1 & Hp1 & Hr1 & Hc1 & Hmax1); [lia|].
      eexists. split; [by apply cond_offer_quiet|].
      replace (held b w ++ [d]) with (contents r1) by done.
      apply left_by_idle; [done|congruence].
    + destruct (Z.leb_spec abstime (clock w)).
      * eexists. split; [apply cond_offer_expired; eauto using held_full_put|].
        unfold monitor_idle, held. rewrite deref_assign, clock_assign.
        cbn [PB.m PB.buffer left_by]. split_and!; try done.
      * do 2 eexists. apply cond_offer_parks; eauto using held_full_put.
Qed.

End MonitorQueue.

(* ===================================================================== *)
(** * TP3: the operations of the semaphore strategy, one by one *)
(* ===================================================================== *)

Section SemaphoreSteps.
Context {W : Type} (clock : W -> Z) (b : bufref W).
Hypothesis deref_assign : forall q w, deref b (assign b q w) = q.
Hypothesis assign_assign : forall q q' w, assign b q (assign b q' w) = assign b q w.
Hypothesis clock_assign : forall q w, clock (assign b q w) = clock w.

Ltac sem_run :=
  unfold buffer_get, buffer_put, ring_get, ring_put, sem_post, modify, upd,
         mret, M_ret;
  rewrite ?deref_assign; cbn [PB.buffer PB.with_sem PB.sem PB.with_buffer
                              PB.s_m PB.s_full PB.s_empty PB.sem_impl PB.m
                              PB.empty PB.full].

Lemma sem_get_quiet d r w sch :
  0 < PB.s_full (deref b w) -> 0 < PB.s_m (deref b w) ->
  circular_buffer_get (PB.buffer (deref b w)) = (d, r) ->
  sem_protected_buffer_get b w sch
  = Done d (assign b (sems_left r (PB.s_m (deref b w) - 1 + 1)
                                (PB.s_full (deref b w) - 1)
                                (PB.s_empty (deref b w) + 1) (deref b w)) w) sch.
Proof.
  intros Hf Hm Hg. apply Z.ltb_lt in Hf, Hm.
  unfold sem_protected_buffer_get, mbind, M_bind.
  rewrite (sem_wait_free b) by done.
  rewrite (sem_wait_free b) by (unfold upd; by rewrite deref_assign).
  sem_run. rewrite Hg. sem_run. rewrite !assign_assign. reflexivity.
Qed.

Lemma sem_wait_parks s w :
  PB.sem s (deref b w) <= 0 -> sem_wait b s w [] = Blocked (OnSem s) w.
Proof.
  intros H. apply Z.ltb_ge in H. cbn [sem_wait]. by rewrite H.
Qed.

Lemma sem_timedwait_parks s abstime w :
  PB.sem s (deref b w) <= 0 -> clock w < abstime ->
  sem_timedwait clock b s abstime w [] = Blocked (OnSem s) w.
Proof.
  intros H Ht. apply Z.ltb_ge in H. apply Z.leb_gt in Ht.
  cbn [sem_timedwait]. by rewrite H, Ht.
Qed.

Lemma sem_get_parks w :
  PB.s_full (deref b w) <= 0 ->
  sem_protected_buffer_get b w [] = Blocked (OnSem SemFull) w.
Proof.
  intros H. unfold sem_protected_buffer_get, mbind, M_bind.
  by rewrite sem_wait_parks.
Qed.

Lemma sem_put_quiet d x r w sch :
  0 < PB.s_empty (deref b w) -> 0 < PB.s_m (deref b w) ->
  circular_buffer_put (PB.buffer (deref b w)) d = (x, r) ->
  sem_protected_buffer_put b d w sch
  = Done tt (assign b (sems_left r (PB.s_m (deref b w) - 1 + 1)
                                 (PB.s_full (deref b w) + 1)
                                 (PB.s_empty (deref b w) - 1) (deref b w)) w) sch.
Proof.
  intros He Hm Hp. apply Z.ltb_lt in He, Hm.
  unfold sem_protected_buffer_put, mbind, M_bind.
  rewrite (sem_wait_free b) by done.
  rewrite (sem_wait_free b) by (unfold upd; by rewrite deref_assign).
  sem_run. rewrite Hp. sem_run. rewrite !assign_assign. reflexivity.
Qed.

Lemma sem_put_parks d w :
  PB.s_empty (deref b w) <= 0 ->
  sem_protected_buffer_put b d w [] = Blocked (OnSem SemEmpty) w.
Proof.
  intros H. unfold sem_protected_buffer_put, mbind, M_bind.
  by rewrite sem_wait_parks.
Qed.

Lemma sem_remove_quiet d r w sch :
  0 < PB.s_full (deref b w) -> 0 < PB.s_m (deref b w) ->
  circular_buffer_get (PB.buffer (deref b w)) = (d, r) ->
  sem_protected_buffer_remove b w sch
  = Done d (assign b (sems_left r (PB.s_m (deref b w) - 1 + 1)
                                (PB.s_full (deref b w) - 1)
                                (PB.s_empty (deref b w) + 1) (deref b w)) w) sch.
Proof.
  intros Hf Hm Hg. apply Z.ltb_lt in Hf, Hm.
  unfold sem_protected_buffer_remove, mbind, M_bind, sem_trywait.
  cbn [PB.sem]. rewrite Hf, Z.eqb_refl.
  unfold upd. rewrite !deref_assign. cbn [PB.with_sem PB.s_m]. rewrite Hm.
  sem_run. rewrite Hg. sem_run. rewrite !assign_assign. reflexivity.
Qed.

Lemma sem_remove_fails w sch :
  PB.s_full (deref b w) <= 0 ->
  sem_protected_buffer_remove b w sch = Done NULL w sch.
Proof.
  intros H. apply Z.ltb_ge in H.
  unfold sem_protected_buffer_remove, mbind, M_bind, sem_trywait.
  cbn [PB.sem]. rewrite H. reflexivity.
Qed.

Lemma sem_poll_quiet abstime d r w sch :
  0 < PB.s_full (deref b w) -> 0 < PB.s_m (deref b w) ->
  circular_buffer_get (PB.buffer (deref b w)) = (d, r) ->
  sem_protected_buffer_poll clock b abstime w sch
  = Done d (assign b (sems_left r (PB.s_m (deref b w) - 1 + 1)
                                (PB.s_full (deref b w) - 1)
                                (PB.s_empty (deref b w) + 1) (deref b w)) w) sch.
Proof.
  intros Hf Hm Hg. apply Z.ltb_lt in Hf, Hm.
  unfold sem_protected_buffer_poll, mbind, M_bind.
  rewrite (sem_timedwait_free clock b) by done. rewrite Z.eqb_refl.
  rewrite (sem_wait_free b) by (unfold upd; by rewrite deref_assign).
  sem_run. rewrite Hg. sem_run. rewrite !assign_assign. reflexivity.
Qed.

Lemma sem_poll_expired abstime w sch :
  PB.s_full (deref b w) <= 0 -> abstime <= clock w ->
  sem_protected_buffer_poll clock b abstime w sch = Done NULL w sch.
Proof.
  intros H Ht. apply Z.ltb_ge in H. apply Z.leb_le in Ht.
  unfold sem_protected_buffer_poll, mbind, M_bind.
  rewrite (sem_timedwait_past clock b) by done. reflexivity.
Qed.

Lemma sem_poll_parks abstime w :
  PB.s_full (deref b w) <= 0 -> clock w < abstime ->
  sem_protected_buffer_poll clock b abstime w [] = Blocked (OnSem SemFull) w.
Proof.
  intros H Ht. unfold sem_protected_buffer_poll, mbind, M_bind.
  by rewrite sem_timedwait_parks.
Qed.

Lemma sem_offer_quiet d abstime x r w sch :
  0 < PB.s_empty (deref b w) -> 0 < PB.s_m (deref b w) ->
  circular_buffer_put (PB.buffer (deref b w)) d = (x, r) ->
  sem_protected_buffer_offer clock b d abstime w sch
  = Done 1 (assign b (sems_left r (PB.s_m (deref b w) - 1 + 1)
                                (PB.s_full (deref b w) + 1)
                                (PB.s_empty (deref b w) - 1) (deref b w)) w) sch.
Proof.
  intros He Hm Hp. apply Z.ltb_lt in He, Hm.
  unfold sem_protected_buffer_offer, mbind, M_bind.
  rewrite (sem_timedwait_free clock b) by done. rewrite Z.eqb_refl.
  rewrite (sem_wait_free b) by (unfold upd; by rewrite deref_assign).
  sem_run. rewrite Hp. sem_run. rewrite !assign_assign. reflexivity.
Qed.

Lemma sem_offer_expired d abstime w sch :
  PB.s_empty (deref b w) <= 0 -> abstime <= clock w ->
  sem_protected_buffer_offer clock b d abstime w sch = Done 0 w sch.
Proof.
  intros H Ht. apply Z.ltb_ge in H. apply Z.leb_le in Ht.
  unfold sem_protected_buffer_offer, mbind, M_bind.
  rewrite (sem_timedwait_past clock b) by done. reflexivity.
Qed.

Lemma sem_offer_parks d abstime w :
  PB.s_empty (deref b w) <= 0 -> clock w < abstime ->
  sem_protected_buffer_offer clock b d abstime w [] = Blocked (OnSem SemEmpty) w.
Proof.
  intros H Ht. unfold sem_protected_buffer_offer, mbind, M_bind.
  by rewrite sem_timedwait_parks.
Qed.

Lemma sems_left_balanced cap r w :
  ring_ok r -> Ring.max_size r = cap ->
  sem_balanced b cap w ->
  forall sm sf se,
    sm = 1 -> sf = Z.of_nat (length (contents r)) ->
    se = Z.of_nat (cap - length (contents r)) ->
    sem_balanced b cap (assign b (sems_left r sm sf se (deref b w)) w) /\
    held b (assign b (sems_left r sm sf se (deref b w)) w) = contents r /\
    clock (assign b (sems_left r sm sf se (deref b w)) w) = clock w.
Proof.
  intros Hr Hc _ sm sf se -> -> ->. unfold sem_balanced, held.
  rewrite deref_assign, clock_assign. done.
Qed.

Lemma sem_call_refines cap c w :
  sem_balanced b cap w -> (forall d, c <> CallAdd d) ->
  match fifo_call false cap (clock w) c (held b w) with
  | Some (r, l') =>
      exists w', sem_call clock b c w [] = Done r w' [] /\
                 sem_balanced b cap w' /\ held b w' = l' /\
                 clock w' = clock w
  | None => exists on w', sem_call clock b c w [] = Blocked on w'
  end.
Proof.
  intros Hbal Hadd. pose proof Hbal as (Hm & Hf & He & Hr & Hc).
  assert (Hlen : (length (held b w) <= cap)%nat).
  { unfold held. rewrite contents_length. destruct Hr as (_ & ? & _). lia. }
  destruct c as [|d| |d|abstime|d abstime]; cbn [fifo_call sem_call andb].
  - (* get *)
    destruct (held b w) as [|x xs] eqn:Hh.
    + do 2 eexists. apply sem_get_parks. simpl in Hf. lia.
    + destruct (get_ok _ x xs Hr Hh) as (r & Hg & Hr' & Hc' & Hmax).
      simpl in Hf, He, Hlen.
      eexists. split; [apply sem_get_quiet; [lia|lia|done]|].
      rewrite <- Hc'. apply (sems_left_balanced cap); try done; try congruence;
        rewrite ?Hc'; lia.
  - (* put *)
    destruct (length (held b w) <? cap)%nat eqn:Hl.
    + apply Nat.ltb_lt in Hl. pose proof Hl as Hl'. unfold held in Hl'.
      rewrite contents_length in Hl'.
      destruct (put_ok _ d Hr) as (r1 & Hp1 & Hr1 & Hc1 & Hmax1); [lia|].
      unfold mbind, M_bind.
      rewrite (sem_put_quiet d 1 r1) by (done || lia).
      eexists. split; [reflexivity|].
      replace (held b w ++ [d]) with (contents r1) by done.
      apply (sems_left_balanced cap); try done; try congruence;
        rewrite ?Hc1, ?length_app; fold (held b w); simpl; lia.
    + apply Nat.ltb_ge in Hl. unfold mbind, M_bind.
      rewrite sem_put_parks by lia. by do 2 eexists.
  - (* remove *)
    destruct (held b w) as [|x xs] eqn:Hh.
    + rewrite sem_remove_fails by (simpl in Hf; lia).
      eexists. split; [reflexivity|]. by rewrite Hh.
    + destruct (get_ok _ x xs Hr Hh) as (r & Hg & Hr' & Hc' & Hmax).
      simpl in Hf, He, Hlen.
      eexists. split; [apply sem_remove_quiet; [lia|lia|done]|].
      rewrite <- Hc'. apply (sems_left_balanced cap); try done; try congruence;
        rewrite ?Hc'; lia.
  - by destruct (Hadd d).
  - (* poll *)
    destruct (held b w) as [|x xs] eqn:Hh.
    + simpl in Hf. destruct (Z.leb_spec abstime (clock w)).
      * rewrite sem_poll_expired by lia.
        eexists. split; [reflexivity|]. by rewrite Hh.
      * do 2 eexists. apply sem_poll_parks; lia.
    + destruct (get_ok _ x xs Hr Hh) as (r & Hg & Hr' & Hc' & Hmax).
      simpl in Hf, He, Hlen.
      eexists. split; [apply sem_poll_quiet; [lia|lia|done]|].
      rewrite <- Hc'. apply (sems_left_balanced cap); try done; try congruence;
        rewrite ?Hc'; lia.
  - (* offer *)
    destruct (length (held b w) <? cap)%nat eqn:Hl.
    + apply Nat.ltb_lt in Hl. pose proof Hl as Hl'. unfold held in Hl'.
      rewrite contents_length in Hl'.
      destruct (put_ok _ d Hr) as (r1 & Hp1 & Hr1 & Hc1 & Hmax1); [lia|].
      rewrite (sem_offer_quiet d abstime 1 r1) by (done || lia).
      eexists. split; [reflexivity|].
      replace (held b w ++ [d]) with (contents r1) by done.
      apply (sems_left_balanced cap); try done; try congruence;
        rewrite ?Hc1, ?length_app; fold (held b w); simpl; lia.
    + apply Nat.ltb_ge in Hl. destruct (Z.leb_spec abstime (clock w)).
      * rewrite sem_offer_expired by lia. eexists. done.
      * do 2 eexists. apply sem_offer_parks; lia.
Qed.

End SemaphoreSteps.

(* ===================================================================== *)
(** * TP3: sequences of calls *)
(* ===================================================================== *)

Lemma calls_refine {W} (clock : W -> Z) (b : bufref W)
  (call : buffer_call -> M W Z) (twice : bool) (cap : nat)
  (Inv : W -> Prop) (L : list ptr -> Prop) (ok : buffer_call -> Prop) :
  (forall c w, Inv w -> L (held b w) -> ok c ->
     match fifo_call twice cap (clock w) c (held b w) with
     | Some (r, l') =>
         exists w', call c w [] = Done r w' [] /\ Inv w' /\ held b w' = l' /\
                    clock w' = clock w
     | None => exists on w', call c w [] = Blocked on w'
     end) ->
  (forall c l r l' now, L l -> ok c ->
     fifo_call twice cap now c l = Some (r, l') -> L l') ->
  forall cs w, Inv w -> L (held b w) -> Forall ok cs ->
    (forall rs l', fifo_run twice cap (clock w) cs (held b w) = Some (rs, l') ->
       exists w', calls_run call cs w [] = Done rs w' [] /\ Inv w' /\
                  held b w' = l') /\
    (fifo_run twice cap (clock w) cs (held b w) = None ->
       exists on w', calls_run call cs w [] = Blocked on w').
Proof.
  intros Hstep HL. induction cs as [|c cs IH]; intros w Hinv Hl Hok.
  - split; [|discriminate]. intros rs l' [= <- <-]. by exists w.
  - apply Forall_cons in Hok as [Hc Hcs].
    specialize (Hstep c w Hinv Hl Hc). cbn [fifo_run calls_run].
    unfold mbind, M_bind.
    destruct (fifo_call twice cap (clock w) c (held b w)) as [[r l1]|] eqn:Hf.
    + destruct Hstep as (w1 & -> & Hinv1 & Hh1 & Hck1).
      assert (Hl1 : L (held b w1)) by (rewrite Hh1; eauto).
      destruct (IH w1 Hinv1 Hl1 Hcs) as [IHs IHn].
      rewrite Hh1, Hck1 in IHs, IHn.
      destruct (fifo_run twice cap (clock w) cs l1) as [[rs l2]|].
      * split; [|discriminate]. intros rs' l' [= <- <-].
        destruct (IHs rs l2 eq_refl) as (w' & -> & ? & ?). by exists w'.
      * split; [discriminate|]. intros _.
        destruct (IHn eq_refl) as (on & w' & ->). by exists on, w'.
    + split; [discriminate|]. intros _.
      destruct Hstep as (on & w' & ->). by exists on, w'.
Qed.

(** X1: run by one thread, a sequence of calls on the monitor buffer is the
    same sequence on a queue of the buffer's capacity whose [put] appends
    its value twice when two slots are free: the values returned and the
    contents left are those of the queue, and the run parks exactly where
    the queue has no answer ([get] or an early [poll] on the empty queue,
    [put] or an early [offer] on the full one).  [NULL] is not among the
    values held or inserted. *)
Theorem monitor_calls_refine_queue {W} (clock : W -> Z) (b : bufref W)
  (cap : nat) (cs : list buffer_call) (w : W) :
  lawful clock b ->
  monitor_idle b cap w ->
  Forall (fun x => x <> NULL) (held b w) ->
  Forall (fun c => inserted c <> Some NULL) cs ->
  (forall rs l',
     fifo_run true cap (clock w) cs (held b w) = Some (rs, l') ->
     exists w', calls_run (cond_call clock b) cs w [] = Done rs w' [] /\
                monitor_idle b cap w' /\ held b w' = l') /\
  (fifo_run true cap (clock w) cs (held b w) = None ->
   exists on w', calls_run (cond_call clock b) cs w [] = Blocked on w').
Proof.
  intros (Hda & Haa & Hca) Hidle Hnn Hcs.
  apply (calls_refine clock b (cond_call clock b) true cap (monitor_idle b cap)
           (Forall (fun x => x <> NULL)) (fun c => inserted c <> Some NULL));
    auto.
  - intros c w0 ? ? ?. by apply cond_call_refines.
  - intros c l r l' now Hl Hc Hf.
    assert (Hd : forall d, inserted c = Some d -> d <> NULL) by congruence.
    destruct c as [|d| |d|t|d t]; cbn [fifo_call] in Hf;
      repeat match type of Hf with
             | context [match l with _ => _ end] => destruct l
             | context [if ?c then _ else _] => destruct c
             end;
      try discriminate; injection Hf as <- <-;
      try apply Forall_app; try apply Forall_cons in Hl as [_ Hl];
      try specialize (Hd d eq_refl);
      repeat first [done | split | apply Forall_cons | apply Forall_nil ].
Qed.

Lemma monitor_calls_refine_queue_witness :
  exists w',
    calls_run (cond_call now the_buffer)
              [CallAdd 7; CallPut 8; CallRemove; CallGet; CallPoll 0; CallOffer 9 0]
              (cond_world 3) []
    = Done [1; 0; 7; 8; 8; 1] w' [] /\
    held the_buffer w' = [9].
Proof.
  destruct (monitor_calls_refine_queue now the_buffer 3
              [CallAdd 7; CallPut 8; CallRemove; CallGet; CallPoll 0; CallOffer 9 0]
              (cond_world 3)) as [H _].
  - repeat split.
  - split; [reflexivity|]. split; [apply ring_init_ok | reflexivity].
  - constructor.
  - repeat constructor; vm_compute; discriminate.
  - destruct (H [1; 0; 7; 8; 8; 1] [9] eq_refl) as (w' & Hrun & _ & Hheld).
    exists w'. split; [exact Hrun | exact Hheld].
Defined.

(** X2: run by one thread, a sequence of [get], [put], [remove], [poll] and
    [offer] calls on the semaphore buffer is the same sequence on a queue of
    the buffer's capacity: the values returned and the contents left are
    those of the queue, the run parks exactly where the queue has no
    answer, and after the run [s_m] is 1, [s_full] counts the elements and
    [s_empty] the free slots. *)
Theorem sem_calls_refine_queue {W} (clock : W -> Z) (b : bufref W)
  (cap : nat) (cs : list buffer_call) (w : W) :
  lawful clock b ->
  sem_balanced b cap w ->
  Forall (fun c => forall d, c <> CallAdd d) cs ->
  (forall rs l',
     fifo_run false cap (clock w) cs (held b w) = Some (rs, l') ->
     exists w', calls_run (sem_call clock b) cs w [] = Done rs w' [] /\
                sem_balanced b cap w' /\ held b w' = l') /\
  (fifo_run false cap (clock w) cs (held b w) = None ->
   exists on w', calls_run (sem_call clock b) cs w [] = Blocked on w').
Proof.
  intros (Hda & Haa & Hca) Hbal Hcs.
  apply (calls_refine clock b (sem_call clock b) false cap (sem_balanced b cap)
           (fun _ => True) (fun c => forall d, c <> CallAdd d)); auto.
  intros c w0 ? _ ?. by apply sem_call_refines.
Qed.

Lemma sem_calls_refine_queue_witness :
  exists w',
    calls_run (sem_call now the_buffer)
              [CallPut 7; CallOffer 8 0; CallOffer 9 0; CallGet; CallRemove;
               CallPoll 0]
              (sem_world 2) []
    = Done [0; 1; 0; 7; 8; NULL] w' [] /\
    sem_balanced the_buffer 2 w' /\ held the_buffer w' = [].
Proof.
  destruct (sem_calls_refine_queue now the_buffer 2
              [CallPut 7; CallOffer 8 0; CallOffer 9 0; CallGet; CallRemove;
               CallPoll 0]
              (sem_world 2)) as [H _].
  - repeat split.
  - split_and!; try reflexivity. apply ring_init_ok.
  - repeat constructor; discriminate.
  - exact (H [0; 1; 0; 7; 8; NULL] [] eq_refl).
Defined.

(* ===================================================================== *)
(** * TP3: the loops of the monitor strategy and the mutex *)
(* ===================================================================== *)

Section MonitorLoops.
Context {W : Type} (clock : W -> Z) (b : bufref W).

Lemma cond_get_wait_nonnull sch : forall w d w' sch',
  cond_get_wait b w sch = Done d w' sch' -> d <> NULL.
Proof.
  induction sch as [|e sch IH]; intros w d w' sch'; cbn [cond_get_wait];
    destruct (ring_get b w) as [x w1]; destruct (Z.eqb_spec x NULL);
    try discriminate; try (intros [= <- _ _]; done).
  apply IH.
Qed.

Lemma cond_get_wait_take d r w sch :
  circular_buffer_get (PB.buffer (deref b w)) = (d, r) -> d <> NULL ->
  cond_get_wait b w sch = Done d (upd b (PB.with_buffer r) w) sch.
Proof.
  intros Hg Hd. apply Z.eqb_neq in Hd.
  destruct sch; cbn [cond_get_wait]; unfold ring_get; by rewrite Hg, Hd.
Qed.

Lemma cond_get_wait_retry r w e sch :
  circular_buffer_get (PB.buffer (deref b w)) = (NULL, r) ->
  cond_get_wait b w (e :: sch)
  = cond_get_wait b (acquire b (e (release b (upd b (PB.with_buffer r) w)))) sch.
Proof.
  intros Hg. cbn [cond_get_wait]. unfold ring_get. by rewrite Hg.
Qed.

Lemma cond_put_wait_store d r w sch :
  circular_buffer_put (PB.buffer (deref b w)) d = (1, r) ->
  cond_put_wait b d w sch = Done tt (upd b (PB.with_buffer r) w) sch.
Proof.
  intros Hp. destruct sch; cbn [cond_put_wait]; unfold ring_put; by rewrite Hp.
Qed.

Lemma cond_put_wait_retry d r w e sch :
  circular_buffer_put (PB.buffer (deref b w)) d = (0, r) ->
  cond_put_wait b d w (e :: sch)
  = cond_put_wait b d (acquire b (e (release b (upd b (PB.with_buffer r) w)))) sch.
Proof.
  intros Hp. cbn [cond_put_wait]. unfold ring_put. by rewrite Hp.
Qed.

Hypothesis deref_assign : forall q w, deref b (assign b q w) = q.

Lemma await_mutex_released on (ready : W -> bool) sch : forall w,
  match await on ready w sch with
  | Done _ _ _ => True
  | Blocked on' _ => on' = on
  | _ => False
  end.
Proof.
  induction sch as [|e sch IH]; intros w; cbn [await]; destruct (ready w); auto; apply IH.
Qed.

Lemma lock_outcome w sch :
  (exists w' sch', pthread_mutex_lock b w sch = Done tt w' sch') \/
  (exists w', pthread_mutex_lock b w sch = Blocked OnMutex w').
Proof.
  unfold pthread_mutex_lock.
  pose proof (await_mutex_released OnMutex
                (fun w => negb (PB.m (deref b w))) sch w) as H.
  destruct (await _ _ w sch) as [[] w' sch'|on w'| |]; try done.
  - left. eauto.
  - subst on. right. eauto.
Qed.

Lemma cond_get_wait_released sch : forall w,
  match cond_get_wait b w sch with
  | Done _ _ _ => True
  | Blocked (OnCond _) w' => PB.m (deref b w') = false
  | _ => False
  end.
Proof.
  induction sch as [|e sch IH]; intros w; cbn [cond_get_wait];
    destruct (ring_get b w) as [x w1]; destruct (x =? NULL); auto;
    try apply IH.
  unfold release, upd. by rewrite deref_assign.
Qed.

Lemma cond_put_wait_released d sch : forall w,
  match cond_put_wait b d w sch with
  | Done _ _ _ => True
  | Blocked (OnCond _) w' => PB.m (deref b w') = false
  | _ => False
  end.
Proof.
  induction sch as [|e sch IH]; intros w; cbn [cond_put_wait];
    destruct (ring_put b d w) as [x w1]; destruct (x =? 0); auto;
    try apply IH.
  unfold release, upd. by rewrite deref_assign.
Qed.

Lemma cond_poll_wait_released abstime sch : forall rc w,
  match cond_poll_wait clock b abstime rc w sch with
  | Done _ _ _ => True
  | Blocked (OnCond _) w' => PB.m (deref b w') = false
  | _ => False
  end.
Proof.
  induction sch as [|e sch IH]; intros rc w; cbn [cond_poll_wait];
    destruct (ring_get b w) as [x w1]; destruct (x =? NULL); auto;
    destruct (timedwait_rc clock abstime w1 =? ETIMEDOUT); auto.
  - unfold release, upd. by rewrite deref_assign.
  - cbv zeta. destruct (timedwait_rc clock abstime _ =? ETIMEDOUT); auto.
    apply IH.
Qed.

Lemma cond_offer_wait_released d abstime sch : forall rc w,
  match cond_offer_wait clock b d abstime rc w sch with
  | Done _ _ _ => True
  | Blocked (OnCond _) w' => PB.m (deref b w') = false
  | _ => False
  end.
Proof.
  induction sch as [|e sch IH]; intros rc w; cbn [cond_offer_wait];
    destruct (ring_put b d w) as [x w1]; destruct (x =? 0); auto;
    destruct (timedwait_rc clock abstime w1 =? ETIMEDOUT); auto.
  - unfold release, upd. by rewrite deref_assign.
  - cbv zeta. destruct (timedwait_rc clock abstime _ =? ETIMEDOUT); auto.
    apply IH.
Qed.

Lemma cond_call_releases c w sch : mutex_released b (cond_call clock b c w sch).
Proof.
  destruct c as [|d| |d|abstime|d abstime]; cbn [cond_call].
  - unfold cond_protected_buffer_get, mbind, M_bind.
    destruct (lock_outcome w sch) as [(w1 & sch1 & ->)|(w1 & ->)]; [|done].
    pose proof (cond_get_wait_released sch1 w1) as H.
    destruct (cond_get_wait b w1 sch1) as [x w2 sch2|[] w2| |]; try done.
    cbn. unfold upd. by rewrite deref_assign.
  - unfold cond_protected_buffer_put, mbind, M_bind.
    destruct (lock_outcome w sch) as [(w1 & sch1 & ->)|(w1 & ->)]; [|done].
    pose proof (cond_put_wait_released d sch1 w1) as H.
    destruct (cond_put_wait b d w1 sch1) as [x w2 sch2|[] w2| |]; try done.
    unfold pthread_cond_broadcast, modify, buffer_put.
    destruct (ring_put b d _) as [x' w3].
    cbn. unfold upd. by rewrite deref_assign.
  - unfold cond_protected_buffer_remove, mbind, M_bind.
    destruct (lock_outcome w sch) as [(w1 & sch1 & ->)|(w1 & ->)]; [|done].
    unfold buffer_get. destruct (ring_get b w1) as [x w2].
    destruct (x =? NULL); cbn; unfold upd; by rewrite deref_assign.
  - unfold cond_protected_buffer_add, mbind, M_bind.
    destruct (lock_outcome w sch) as [(w1 & sch1 & ->)|(w1 & ->)]; [|done].
    unfold buffer_put. destruct (ring_put b d w1) as [x w2].
    cbn; unfold upd; by rewrite deref_assign.
  - unfold cond_protected_buffer_poll, mbind, M_bind.
    destruct (lock_outcome w sch) as [(w1 & sch1 & ->)|(w1 & ->)]; [|done].
    pose proof (cond_poll_wait_released abstime sch1 0 w1) as H.
    destruct (cond_poll_wait clock b abstime 0 w1 sch1)
      as [[x rc] w2 sch2|[] w2| |]; try done.
    destruct (rc =? ETIMEDOUT); cbn; unfold upd; by rewrite deref_assign.
  - unfold cond_protected_buffer_offer, mbind, M_bind.
    destruct (lock_outcome w sch) as [(w1 & sch1 & ->)|(w1 & ->)]; [|done].
    pose proof (cond_offer_wait_released d abstime sch1 0 w1) as H.
    destruct (cond_offer_wait clock b d abstime 0 w1 sch1)
      as [[x rc] w2 sch2|[] w2| |]; try done.
    destruct (rc =? ETIMEDOUT); cbn; unfold upd; by rewrite deref_assign.
Qed.

End MonitorLoops.

(* ===================================================================== *)
(** * TP3: threads that wait for each other *)
(* ===================================================================== *)

Section MonitorHandOff.
Context {W : Type} (clock : W -> Z) (b : bufref W).
Hypothesis deref_assign : forall q w, deref b (assign b q w) = q.
Hypothesis assign_assign : forall q q' w, assign b q (assign b q' w) = assign b q w.
Hypothesis clock_assign : forall q w, clock (assign b q w) = clock w.

Lemma deref_upd f w : deref b (upd b f w) = f (deref b w).
Proof. unfold upd. by rewrite deref_assign. Qed.

Lemma clock_upd f w : clock (upd b f w) = clock w.
Proof. unfold upd. by rewrite clock_assign. Qed.

Lemma other_thread_done {A} (c : M W A) a w w' :
  c w [] = Done a w' [] -> other_thread c w = w'.
Proof. unfold other_thread. by intros ->. Qed.

Lemma get_after_add cap d w sch :
  monitor_idle b cap w -> held b w = [] -> (1 <= cap)%nat -> d <> NULL ->
  exists w',
    cond_protected_buffer_get b w
      (other_thread (cond_protected_buffer_add b d) :: sch) = Done d w' sch /\
    monitor_idle b cap w' /\ held b w' = [] /\
    PB.full (deref b w') = S (PB.full (deref b w)) /\
    PB.empty (deref b w') = S (PB.empty (deref b w)).
Proof.
  intros (Hm & Hr & Hc) Hh Hcap Hd.
  assert (Hz : Ring.size (PB.buffer (deref b w)) = 0%nat).
  { rewrite <- contents_length. unfold held in Hh. by rewrite Hh. }
  destruct (put_ok _ d Hr) as (r1 & Hp1 & Hr1 & Hc1 & Hmax1); [lia|].
  unfold held in Hh. rewrite Hh in Hc1. simpl in Hc1.
  destruct (get_ok r1 d [] Hr1 Hc1) as (r2 & Hg2 & Hr2 & Hc2 & Hmax2).
  unfold cond_protected_buffer_get, mbind, M_bind.
  rewrite (lock_free b) by done.
  rewrite (cond_get_wait_retry b (PB.buffer (deref b w)))
    by (rewrite deref_assign; by apply get_empty).
  set (w2 := release b _).
  assert (Hq2 : deref b w2 = PB.with_m false (deref b w)).
  { unfold w2, release. rewrite !deref_upd, deref_assign.
    by destruct (deref b w). }
  assert (He : other_thread (cond_protected_buffer_add b d) w2
               = assign b (left_by r1 0 1 (deref b w)) w2).
  { eapply other_thread_done.
    rewrite (cond_add_quiet b deref_assign assign_assign) by (by rewrite Hq2).
    cbv zeta. rewrite Hq2. cbn [PB.buffer PB.with_m]. rewrite Hp1. reflexivity. }
  rewrite He.
  rewrite (cond_get_wait_take b d r2);
    [|unfold acquire; rewrite deref_upd, deref_assign; exact Hg2|done].
  cbn. unfold acquire, upd. rewrite !deref_assign.
  eexists. split; [reflexivity|].
  unfold monitor_idle, held. rewrite deref_assign. cbn.
  split_and!; try done. congruence.
Qed.

Lemma put_after_remove cap d x xs w sch :
  monitor_idle b cap w -> held b w = x :: xs -> length (held b w) = cap ->
  exists w',
    cond_protected_buffer_put b d w
      (other_thread (cond_protected_buffer_remove b) :: sch) = Done tt w' sch /\
    monitor_idle b cap w' /\ held b w' = xs ++ [d] /\
    PB.full (deref b w') = S (PB.full (deref b w)) /\
    PB.empty (deref b w') = (if x =? NULL then PB.empty (deref b w)
                             else S (PB.empty (deref b w))).
Proof.
  intros (Hm & Hr & Hc) Hh Hfull. unfold held in Hh, Hfull.
  rewrite contents_length in Hfull.
  assert (Hp0 : circular_buffer_put (PB.buffer (deref b w)) d
                = (0, PB.buffer (deref b w))) by (apply put_full; lia).
  destruct (get_ok _ x xs Hr Hh) as (r1 & Hg1 & Hr1 & Hc1 & Hmax1).
  assert (Hs1 : S (Ring.size r1) = cap).
  { rewrite <- Hfull, <- !contents_length, Hc1, Hh. done. }
  destruct (put_ok r1 d Hr1) as (r2 & Hp2 & Hr2 & Hc2 & Hmax2); [lia|].
  assert (Hp3 : circular_buffer_put r2 d = (0, r2)).
  { apply put_full. rewrite <- contents_length, Hc2, length_app, contents_length.
    simpl. lia. }
  unfold cond_protected_buffer_put, mbind, M_bind.
  rewrite (lock_free b) by done.
  rewrite (cond_put_wait_retry b d (PB.buffer (deref b w)))
    by (by rewrite deref_assign).
  set (w2 := release b _).
  assert (Hq2 : deref b w2 = PB.with_m false (deref b w)).
  { unfold w2, release. rewrite !deref_upd, deref_assign.
    by destruct (deref b w). }
  assert (He : other_thread (cond_protected_buffer_remove b) w2
               = assign b (left_by r1 (if x =? NULL then 0 else 1) 0 (deref b w)) w2).
  { eapply other_thread_done.
    rewrite (cond_remove_quiet b deref_assign assign_assign) by (by rewrite Hq2).
    cbv zeta. rewrite Hq2. cbn [PB.buffer PB.with_m]. rewrite Hg1.
    by destruct (x =? NULL). }
  rewrite He.
  rewrite (cond_put_wait_store b d r2)
    by (unfold acquire; rewrite deref_upd, deref_assign; exact Hp2).
  unfold pthread_cond_broadcast, buffer_put, ring_put, pthread_mutex_unlock, modify.
  rewrite !deref_upd. unfold acquire. rewrite !deref_upd, deref_assign.
  cbn [PB.buffer PB.with_buffer PB.broadcast PB.with_m left_by].
  rewrite Hp3. cbv beta iota.
  eexists. split; [reflexivity|].
  unfold monitor_idle, held. rewrite !deref_upd, deref_assign. cbn.
  split_and!; try done; try congruence. by destruct (x =? NULL).
Qed.

Lemma timedwait_rc_late abstime w :
  (timedwait_rc clock abstime w =? ETIMEDOUT) = true -> abstime <= clock w.
Proof.
  unfold timedwait_rc. destruct (Z.leb_spec abstime (clock w)); done.
Qed.

Lemma cond_poll_wait_null abstime sch : forall rc w rc' w' sch',
  cond_poll_wait clock b abstime rc w sch = Done (NULL, rc') w' sch' ->
  abstime <= clock w'.
Proof.
  induction sch as [|e sch IH]; intros rc w rc' w' sch'; cbn [cond_poll_wait];
    destruct (ring_get b w) as [x w1]; destruct (Z.eqb_spec x NULL) as [->|Hx];
    cbv beta iota.
  - destruct (timedwait_rc clock abstime w1 =? ETIMEDOUT) eqn:Ht; [|done].
    intros H; injection H as _ <- _. by apply timedwait_rc_late.
  - intros H. exfalso. congruence.
  - destruct (timedwait_rc clock abstime w1 =? ETIMEDOUT) eqn:Ht.
    + intros H; injection H as _ <- _. by apply timedwait_rc_late.
    + cbv zeta.
      destruct (timedwait_rc clock abstime (acquire b _) =? ETIMEDOUT) eqn:Ht2.
      * intros H; injection H as _ <- _. by apply timedwait_rc_late.
      * apply IH.
  - intros H. exfalso. congruence.
Qed.

Lemma cond_offer_wait_zero d abstime sch : forall rc w rc' w' sch',
  cond_offer_wait clock b d abstime rc w sch = Done (0, rc') w' sch' ->
  abstime <= clock w'.
Proof.
  induction sch as [|e sch IH]; intros rc w rc' w' sch'; cbn [cond_offer_wait];
    destruct (ring_put b d w) as [x w1]; destruct (Z.eqb_spec x 0) as [->|Hx];
    cbv beta iota.
  - destruct (timedwait_rc clock abstime w1 =? ETIMEDOUT) eqn:Ht; [|done].
    intros H; injection H as _ <- _. by apply timedwait_rc_late.
  - intros H. exfalso. congruence.
  - destruct (timedwait_rc clock abstime w1 =? ETIMEDOUT) eqn:Ht.
    + intros H; injection H as _ <- _. by apply timedwait_rc_late.
    + cbv zeta.
      destruct (timedwait_rc clock abstime (acquire b _) =? ETIMEDOUT) eqn:Ht2.
      * intros H; injection H as _ <- _. by apply timedwait_rc_late.
      * apply IH.
  - intros H. exfalso. congruence.
Qed.

Lemma cond_poll_null_late abstime w sch w' sch' :
  cond_protected_buffer_poll clock b abstime w sch = Done NULL w' sch' ->
  abstime <= clock w'.
Proof.
  unfold cond_protected_buffer_poll, mbind, M_bind.
  destruct (pthread_mutex_lock b w sch) as [[] w1 sch1| | |]; try discriminate.
  destruct (cond_poll_wait clock b abstime 0 w1 sch1)
    as [[x rc] w2 sch2| | |] eqn:Hl; try discriminate.
  destruct (rc =? ETIMEDOUT); cbn; intros [= -> <- _];
    apply cond_poll_wait_null in Hl; by rewrite !clock_upd.
Qed.

Lemma cond_offer_zero_late d abstime w sch w' sch' :
  cond_protected_buffer_offer clock b d abstime w sch = Done 0 w' sch' ->
  abstime <= clock w'.
Proof.
  unfold cond_protected_buffer_offer, mbind, M_bind.
  destruct (pthread_mutex_lock b w sch) as [[] w1 sch1| | |]; try discriminate.
  destruct (cond_offer_wait clock b d abstime 0 w1 sch1)
    as [[x rc] w2 sch2| | |] eqn:Hl; try discriminate.
  destruct (rc =? ETIMEDOUT); cbn; intros [= -> <- _];
    apply cond_offer_wait_zero in Hl; by rewrite !clock_upd.
Qed.

End MonitorHandOff.

Section SemaphoreHandOff.
Context {W : Type} (clock : W -> Z) (b : bufref W).
Hypothesis deref_assign : forall q w, deref b (assign b q w) = q.
Hypothesis assign_assign : forall q q' w, assign b q (assign b q' w) = assign b q w.
Hypothesis clock_assign : forall q w, clock (assign b q w) = clock w.

Lemma sem_wait_retry s w e sch :
  PB.sem s (deref b w) <= 0 -> sem_wait b s w (e :: sch) = sem_wait b s (e w) sch.
Proof. intros H. apply Z.ltb_ge in H. cbn [sem_wait]. by rewrite H. Qed.

Lemma sem_get_after_put cap d w sch :
  sem_balanced b cap w -> held b w = [] -> (1 <= cap)%nat ->
  exists w',
    sem_protected_buffer_get b w
      (other_thread (sem_protected_buffer_put b d) :: sch) = Done d w' sch /\
    sem_balanced b cap w' /\ held b w' = [].
Proof.
  intros Hbal Hh Hcap. pose proof Hbal as (Hm & Hf & He & Hr & Hc).
  rewrite Hh in Hf, He. simpl in Hf, He.
  assert (Hz : Ring.size (PB.buffer (deref b w)) = 0%nat).
  { rewrite <- contents_length. unfold held in Hh. by rewrite Hh. }
  destruct (put_ok _ d Hr) as (r1 & Hp1 & Hr1 & Hc1 & Hmax1); [lia|].
  unfold held in Hh. rewrite Hh in Hc1. simpl in Hc1.
  destruct (get_ok r1 d [] Hr1 Hc1) as (r2 & Hg2 & Hr2 & Hc2 & Hmax2).
  assert (He1 : other_thread (sem_protected_buffer_put b d) w
                = assign b (sems_left r1 (PB.s_m (deref b w) - 1 + 1)
                                      (PB.s_full (deref b w) + 1)
                                      (PB.s_empty (deref b w) - 1) (deref b w)) w).
  { eapply other_thread_done. apply (sem_put_quiet b deref_assign assign_assign d 1);
      [lia|lia|done]. }
  set (w1 := assign b _ w) in He1.
  assert (Hq1 : deref b w1 = sems_left r1 (PB.s_m (deref b w) - 1 + 1)
                                      (PB.s_full (deref b w) + 1)
                                      (PB.s_empty (deref b w) - 1) (deref b w))
    by (unfold w1; by rewrite deref_assign).
  assert (Hrun : sem_protected_buffer_get b w
                   (other_thread (sem_protected_buffer_put b d) :: sch)
                 = sem_protected_buffer_get b w1 sch).
  { unfold sem_protected_buffer_get, mbind, M_bind.
    rewrite sem_wait_retry by (cbn [PB.sem]; lia). by rewrite He1. }
  rewrite Hrun.
  rewrite (sem_get_quiet b deref_assign assign_assign d r2).
  2: { rewrite Hq1. cbn [PB.s_full sems_left]. lia. }
  2: { rewrite Hq1. cbn [PB.s_m sems_left]. lia. }
  2: { by rewrite Hq1. }
  eexists. split; [reflexivity|].
  unfold sem_balanced, held. rewrite deref_assign, Hq1. cbn.
  rewrite Hc2. cbn. split_and!; try done; lia.
Qed.

End SemaphoreHandOff.

(* ===================================================================== *)
(** * TP3: properties of the calls *)
(* ===================================================================== *)

Lemma the_buffer_lawful : lawful now the_buffer.
Proof. repeat split. Qed.

(** X3: [cond_protected_buffer_get] never returns [NULL], whatever the state
    and whatever the other threads do: a [NULL] taken out of the store is
    dropped and the caller waits for the next element. *)
Theorem cond_get_never_returns_null {W} (b : bufref W) (w : W)
  (sch : schedule W) (d : ptr) :
  returned (cond_protected_buffer_get b w sch) = Some d -> d <> NULL.
Proof.
  unfold cond_protected_buffer_get, mbind, M_bind.
  destruct (pthread_mutex_lock b w sch) as [[] w1 sch1| | |]; try discriminate.
  destruct (cond_get_wait b w1 sch1) as [x w2 sch2| | |] eqn:Hl; try discriminate.
  cbn. intros [= <-]. by apply cond_get_wait_nonnull in Hl.
Qed.

Lemma cond_get_never_returns_null_witness :
  held the_buffer
       (other_thread (cond_protected_buffer_add the_buffer 7)
          (other_thread (cond_protected_buffer_add the_buffer NULL) (cond_world 2)))
  = [NULL; 7] /\
  returned (cond_protected_buffer_get the_buffer
              (other_thread (cond_protected_buffer_add the_buffer 7)
                 (other_thread (cond_protected_buffer_add the_buffer NULL)
                    (cond_world 2)))
              [fun w => w]) = Some 7 /\
  7 <> NULL.
Proof.
  split; [vm_compute; reflexivity|]. split; [vm_compute; reflexivity|].
  apply (cond_get_never_returns_null the_buffer
           (other_thread (cond_protected_buffer_add the_buffer 7)
              (other_thread (cond_protected_buffer_add the_buffer NULL)
                 (cond_world 2)))
           [fun w => w] 7).
  vm_compute. reflexivity.
Defined.

(** X4: every operation of the monitor strategy leaves [b->m] free when it
    returns and while it is parked on a condition, whatever the state it
    starts in and whatever the other threads do. *)
Theorem monitor_call_releases_mutex {W} (clock : W -> Z) (b : bufref W)
  (c : buffer_call) (w : W) (sch : schedule W) :
  lawful clock b -> mutex_released b (cond_call clock b c w sch).
Proof. intros (Hda & _ & _). by apply cond_call_releases. Qed.

Lemma monitor_call_releases_mutex_witness :
  mutex_released the_buffer
    (cond_call now the_buffer (CallPoll 5) (cond_world 1) [later 1; later 4]).
Proof.
  apply (monitor_call_releases_mutex now the_buffer (CallPoll 5) (cond_world 1)
           [later 1; later 4]).
  exact the_buffer_lawful.
Defined.

(** X5: a [get] parked on the empty monitor buffer returns the value that
    another thread then adds, and leaves the buffer empty again; the [add]
    has broadcast on [b->full], the condition [get] is parked on. *)
Theorem parked_get_takes_added_value {W} (clock : W -> Z) (b : bufref W)
  (cap : nat) (d : ptr) (w : W) (sch : schedule W) :
  lawful clock b -> monitor_idle b cap w -> held b w = [] ->
  (1 <= cap)%nat -> d <> NULL ->
  (exists w0, cond_protected_buffer_get b w [] = Blocked (OnCond BufFull) w0) /\
  exists w',
    cond_protected_buffer_get b w
      (other_thread (cond_protected_buffer_add b d) :: sch) = Done d w' sch /\
    monitor_idle b cap w' /\ held b w' = [] /\
    PB.full (deref b w') = S (PB.full (deref b w)) /\
    PB.empty (deref b w') = S (PB.empty (deref b w)).
Proof.
  intros (Hda & Haa & Hca) Hidle Hh Hcap Hd. split.
  - eexists. apply cond_get_parks; try done; [apply Hidle|].
    by apply held_nil_get.
  - by apply (get_after_add b Hda Haa cap).
Qed.

Lemma parked_get_takes_added_value_witness :
  exists w',
    cond_protected_buffer_get the_buffer (cond_world 1)
      [other_thread (cond_protected_buffer_add the_buffer 7)] = Done 7 w' [] /\
    held the_buffer w' = [].
Proof.
  destruct (parked_get_takes_added_value now the_buffer 1 7 (cond_world 1) [])
    as [_ (w' & Hrun & _ & Hheld & _)].
  - exact the_buffer_lawful.
  - split; [reflexivity|]. split; [apply ring_init_ok | reflexivity].
  - reflexivity.
  - lia.
  - discriminate.
  - exists w'. split; [exact Hrun | exact Hheld].
Defined.

(** X6: a [put] parked on the full monitor buffer stores its value when
    another thread has removed the oldest element, and stores it once: the
    second insertion of line 62 finds the buffer full again and its failure
    is not looked at. *)
Theorem parked_put_stores_after_remove {W} (clock : W -> Z) (b : bufref W)
  (cap : nat) (d x : ptr) (xs : list ptr) (w : W) (sch : schedule W) :
  lawful clock b -> monitor_idle b cap w -> held b w = x :: xs ->
  length (held b w) = cap ->
  (exists w0, cond_protected_buffer_put b d w [] = Blocked (OnCond BufEmpty) w0) /\
  exists w',
    cond_protected_buffer_put b d w
      (other_thread (cond_protected_buffer_remove b) :: sch) = Done tt w' sch /\
    monitor_idle b cap w' /\ held b w' = xs ++ [d].
Proof.
  intros (Hda & Haa & Hca) Hidle Hh Hfull. split.
  - eexists. apply cond_put_parks; try done; [apply Hidle|].
    apply (held_full_put b cap); [done|]. apply Nat.ltb_ge. lia.
  - destruct (put_after_remove b Hda Haa cap d x xs w sch Hidle Hh Hfull)
      as (w' & Hrun & Hi & Hheld & _).
    by exists w'.
Qed.

Lemma parked_put_stores_after_remove_witness :
  exists w',
    cond_protected_buffer_put the_buffer 8
      (other_thread (cond_protected_buffer_add the_buffer 7) (cond_world 1))
      [other_thread (cond_protected_buffer_remove the_buffer)] = Done tt w' [] /\
    held the_buffer w' = [8].
Proof.
  destruct (parked_put_stores_after_remove now the_buffer 1 8 7 []
              (other_thread (cond_protected_buffer_add the_buffer 7) (cond_world 1))
              [])
    as [_ (w' & Hrun & _ & Hheld)].
  - exact the_buffer_lawful.
  - split; [reflexivity|]. split; [|reflexivity].
    vm_compute. split; [reflexivity|]. split; [lia|]. split; [left; lia|reflexivity].
  - reflexivity.
  - reflexivity.
  - exists w'. split; [exact Hrun | exact Hheld].
Defined.

(** X7: the timed operations of the monitor strategy give up only once the
    deadline has passed: [poll] returns [NULL], and [offer] returns 0, only
    with the clock at or after [abstime], whatever the state and whatever
    the other threads do. *)
Theorem monitor_timed_calls_fail_after_deadline {W} (clock : W -> Z)
  (b : bufref W) (abstime : Z) (d : ptr) (w w' : W) (sch sch' : schedule W) :
  lawful clock b ->
  cond_protected_buffer_poll clock b abstime w sch = Done NULL w' sch' \/
  cond_protected_buffer_offer clock b d abstime w sch = Done 0 w' sch' ->
  abstime <= clock w'.
Proof.
  intros (Hda & Haa & Hca) [H|H].
  - by apply (cond_poll_null_late clock b Hca abstime w sch w' sch').
  - by apply (cond_offer_zero_late clock b Hca d abstime w sch w' sch').
Qed.

Lemma monitor_timed_calls_fail_after_deadline_witness :
  exists w',
    cond_protected_buffer_poll now the_buffer 5 (cond_world 1) [later 1; later 4]
    = Done NULL w' [] /\
    5 <= now w'.
Proof.
  eexists. split; [vm_compute; reflexivity|].
  apply (monitor_timed_calls_fail_after_deadline now the_buffer 5 0 (cond_world 1) _
           [later 1; later 4] [] the_buffer_lawful).
  left. vm_compute. reflexivity.
Defined.

(** X8: in the semaphore strategy a [get] parked on the empty buffer returns
    the value that another thread then puts, and leaves the buffer empty
    with the three semaphores as they were. *)
Theorem parked_sem_get_takes_put_value {W} (clock : W -> Z) (b : bufref W)
  (cap : nat) (d : ptr) (w : W) (sch : schedule W) :
  lawful clock b -> sem_balanced b cap w -> held b w = [] -> (1 <= cap)%nat ->
  sem_protected_buffer_get b w [] = Blocked (OnSem SemFull) w /\
  exists w',
    sem_protected_buffer_get b w
      (other_thread (sem_protected_buffer_put b d) :: sch) = Done d w' sch /\
    sem_balanced b cap w' /\ held b w' = [].
Proof.
  intros (Hda & Haa & Hca) Hbal Hh Hcap. split.
  - apply sem_get_parks. destruct Hbal as (_ & Hf & _). rewrite Hf, Hh. done.
  - by apply (sem_get_after_put b Hda Haa cap).
Qed.

Lemma parked_sem_get_takes_put_value_witness :
  exists w',
    sem_protected_buffer_get the_buffer (sem_world 1)
      [other_thread (sem_protected_buffer_put the_buffer 7)] = Done 7 w' [] /\
    sem_balanced the_buffer 1 w'.
Proof.
  destruct (parked_sem_get_takes_put_value now the_buffer 1 7 (sem_world 1) [])
    as [_ (w' & Hrun & Hbal & _)].
  - exact the_buffer_lawful.
  - split_and!; try reflexivity. apply ring_init_ok.
  - reflexivity.
  - lia.
  - exists w'. split; [exact Hrun | exact Hbal].
Defined.

(** X9: [sem_protected_buffer_offer] returns 0 only with the clock at or
    after [abstime], whatever the state and whatever the other threads
    do. *)
Theorem sem_offer_fails_after_deadline {W} (clock : W -> Z) (b : bufref W)
  (abstime : Z) (d : ptr) (w w' : W) (sch sch' : schedule W) :
  sem_protected_buffer_offer clock b d abstime w sch = Done 0 w' sch' ->
  abstime <= clock w'.
Proof.
  unfold sem_protected_buffer_offer, mbind, M_bind.
  assert (Hl : forall sch w rc w1 sch1,
             sem_timedwait clock b SemEmpty abstime w sch = Done rc w1 sch1 ->
             rc = 0 \/ abstime <= clock w1).
  { clear. induction sch as [|e sch IH]; intros w rc w1 sch1; cbn [sem_timedwait];
      destruct (0 <? _); try (intros [= <- _ _]; by left);
      destruct (Z.leb_spec abstime (clock w)); try discriminate;
      try (intros [= _ <- _]; by right).
    apply IH. }
  destruct (sem_timedwait clock b SemEmpty abstime w sch) as [rc w1 sch1| | |] eqn:Ht;
    try discriminate.
  apply Hl in Ht. destruct (Z.eqb_spec rc 0) as [->|Hrc].
  - destruct (sem_wait b SemM w1 sch1) as [[] w2 sch2| | |]; try discriminate.
    unfold buffer_put. destruct (ring_put b d w2). cbn. discriminate.
  - intros [= <- _]. destruct Ht; done.
Qed.

Lemma sem_offer_fails_after_deadline_witness :
  exists w',
    sem_protected_buffer_offer now the_buffer 8 5
      (other_thread (sem_protected_buffer_put the_buffer 7) (sem_world 1))
      [later 1; later 4]
    = Done 0 w' [] /\
    5 <= now w'.
Proof.
  eexists. split; [vm_compute; reflexivity|].
  apply (sem_offer_fails_after_deadline now the_buffer 5 8
           (other_thread (sem_protected_buffer_put the_buffer 7) (sem_world 1)) _
           [later 1; later 4] []).
  vm_compute. reflexivity.
Defined.

(** X25: the non-blocking calls of the semaphore strategy never wait:
    [sem_protected_buffer_remove] and [sem_protected_buffer_add] return at
    once in every state, [s_m] held by another thread included, and [add]
    returns 0 or 1. *)
Theorem sem_remove_and_add_never_wait {W} (b : bufref W) (d : ptr) (w : W)
  (sch : schedule W) :
  (exists r w', sem_protected_buffer_remove b w sch = Done r w' sch) /\
  (exists r w', sem_protected_buffer_add b d w sch = Done r w' sch /\
                (r = 0 \/ r = 1)).
Proof.
  split.
  - unfold sem_protected_buffer_remove, mbind, M_bind, sem_trywait.
    destruct (0 <? PB.sem SemFull (deref b w)); cbn [Z.eqb]; [|eauto].
    destruct (0 <? PB.sem SemM _);
      unfold buffer_get; destruct (ring_get b _); cbn; eauto.
  - unfold sem_protected_buffer_add, mbind, M_bind, sem_trywait.
    destruct (0 <? PB.sem SemEmpty (deref b w)); cbn [Z.eqb]; [|eauto].
    destruct (0 <? PB.sem SemM _);
      unfold buffer_put; destruct (ring_put b d _); cbn; eauto.
Qed.

(** X26: the non-blocking calls of the monitor strategy wait for nothing but
    the mutex: [cond_protected_buffer_remove] and
    [cond_protected_buffer_add] return or are waiting for [b->m]; they are
    never parked on a condition, whatever the state and whatever the other
    threads do. *)
Theorem monitor_remove_and_add_wait_for_mutex_only {W} (b : bufref W)
  (d : ptr) (w : W) (sch : schedule W) :
  returns_or_awaits_mutex (cond_protected_buffer_remove b w sch) /\
  returns_or_awaits_mutex (cond_protected_buffer_add b d w sch).
Proof.
  split.
  - unfold cond_protected_buffer_remove, mbind, M_bind.
    destruct (lock_outcome b w sch) as [(w1 & sch1 & ->)|(w1 & ->)]; [|done].
    unfold buffer_get. destruct (ring_get b w1) as [x w2].
    by destruct (x =? NULL).
  - unfold cond_protected_buffer_add, mbind, M_bind.
    destruct (lock_outcome b w sch) as [(w1 & sch1 & ->)|(w1 & ->)]; [|done].
    unfold buffer_put. by destruct (ring_put b d w1) as [x w2].
Qed.

(* ===================================================================== *)
(** * TP5: the pool, its mutex and its condition *)
(* ===================================================================== *)

Lemma pool_upd_pool f w : pool (upd_pool f w) = f (pool w).
Proof. by destruct w as [? ? [? ? ?] ? ? ?]. Qed.

Lemma same_frame_upd_pool f w : same_frame w (upd_pool f w).
Proof. by destruct w as [? ? [? ? ?] ? ? ?]. Qed.

Lemma threads_upd_pool f w : threads (upd_pool f w) = threads w.
Proof. reflexivity. Qed.

Lemma same_frame_trans w1 w2 w3 :
  same_frame w1 w2 -> same_frame w2 w3 -> same_frame w1 w3.
Proof.
  intros (?&?&?&?&?&?) (?&?&?&?&?&?). repeat split; congruence.
Qed.

Lemma pool_lock_outcome w sch :
  (exists w' sch', pool_lock w sch = Done tt w' sch') \/
  (exists w', pool_lock w sch = Blocked OnMutex w').
Proof.
  unfold pool_lock.
  pose proof (await_mutex_released OnMutex
                (fun w => negb (Pool.m (pool w))) sch w) as H.
  destruct (await _ _ w sch) as [[] w' sch'|on w'| |]; try done.
  - left. eauto.
  - subst on. right. eauto.
Qed.

Lemma pool_empty_wait_outcome sch : forall w,
  match pool_empty_wait w sch with
  | Done _ w' _ => Pool.size (pool w') = 0
  | Blocked on w' => on = OnCond PoolCond /\ Pool.m (pool w') = false /\
                     Pool.size (pool w') <> 0
  | _ => False
  end.
Proof.
  induction sch as [|e sch IH]; intros w; cbn [pool_empty_wait];
    destruct (Z.eqb_spec (Pool.size (pool w)) 0); cbv beta iota; try done.
  apply IH.
Qed.

Lemma pool_empty_wait_retry w e sch :
  Pool.size (pool w) <> 0 ->
  pool_empty_wait w (e :: sch)
  = pool_empty_wait (upd_pool (Pool.with_m true)
                       (e (upd_pool (Pool.with_m false) w))) sch.
Proof.
  intros H. cbn [pool_empty_wait].
  by destruct (Z.eqb_spec (Pool.size (pool w)) 0).
Qed.

Lemma pool_empty_wait_ready w sch :
  Pool.size (pool w) = 0 -> pool_empty_wait w sch = Done tt w sch.
Proof. intros H. destruct sch; cbn [pool_empty_wait]; by rewrite H. Qed.

Lemma wait_after_last_retire w sch :
  Pool.m (pool w) = false -> Pool.size (pool w) <> 0 ->
  retired_size (pool w) = 0 ->
  exists w',
    wait_thread_pool_empty w (other_thread pool_thread_remove :: sch)
    = Done tt w' sch /\
    same_frame w w' /\ threads w' = threads w /\
    pool w' = Pool.mk (Pool.core_pool_size (pool w)) (Pool.max_pool_size (pool w))
                      0 (Pool.shutdown (pool w)) false (S (Pool.cond_var (pool w))).
Proof.
  intros Hm Hs Hr.
  unfold wait_thread_pool_empty, mbind, M_bind.
  rewrite pool_lock_free by done.
  rewrite pool_empty_wait_retry by (by rewrite pool_upd_pool).
  set (w1 := upd_pool (Pool.with_m false) _).
  assert (Hp1 : pool w1 = pool w).
  { unfold w1. rewrite !pool_upd_pool. destruct (pool w); cbn in *. by subst. }
  assert (Hf1 : same_frame w w1).
  { unfold w1. eapply same_frame_trans; apply same_frame_upd_pool. }
  assert (Ht1 : threads w1 = threads w) by reflexivity.
  clearbody w1.
  destruct (pool_thread_remove_quiet w1 [] ltac:(by rewrite Hp1))
    as (w2 & Hrun & Hf2 & Ht2 & Hp2).
  rewrite (other_thread_done pool_thread_remove 1 w1 w2 Hrun).
  rewrite Hp1, Hr in Hp2. cbn [Z.eqb] in Hp2.
  rewrite pool_empty_wait_ready by (by rewrite pool_upd_pool, Hp2).
  unfold pool_unlock, modify. eexists. split; [reflexivity|].
  rewrite !pool_upd_pool, Hp2, !threads_upd_pool. cbn.
  split; [|split; [congruence|done]].
  eapply same_frame_trans; [exact Hf1|].
  eapply same_frame_trans; [exact Hf2|].
  eapply same_frame_trans; apply same_frame_upd_pool.
Qed.

Lemma pool_thread_create_releases future force w sch :
  match pool_thread_create future force w sch with
  | Done _ w' _ => Pool.m (pool w') = false
  | Blocked on _ => on = OnMutex
  | _ => False
  end.
Proof.
  unfold pool_thread_create, mbind, M_bind.
  destruct (pool_lock_outcome w sch) as [(w1 & sch1 & ->)|(w1 & ->)]; [|done].
  unfold gets.
  destruct (Pool.size (pool w1) <? Pool.core_pool_size (pool w1));
    [|destruct (negb (force =? 0) && (Pool.size (pool w1) <? Pool.max_pool_size (pool w1)))];
    cbv [pthread_create modify pool_unlock mret M_ret mbind M_bind];
    by rewrite pool_upd_pool.
Qed.

Lemma pool_thread_remove_releases w sch :
  match pool_thread_remove w sch with
  | Done _ w' _ => Pool.m (pool w') = false
  | Blocked on _ => on = OnMutex
  | _ => False
  end.
Proof.
  unfold pool_thread_remove, mbind, M_bind.
  destruct (pool_lock_outcome w sch) as [(w1 & sch1 & ->)|(w1 & ->)]; [|done].
  cbv [gets when modify pool_unlock mret M_ret mbind M_bind].
  repeat match goal with
         | |- context [if ?c then _ else _] => destruct c
         end; by rewrite pool_upd_pool.
Qed.

(* ===================================================================== *)
(** * TP5: futures and their results *)
(* ===================================================================== *)

Lemma with_heap_id w : with_heap (heap w) w = w.
Proof. by destruct w. Qed.

Lemma with_heap_with_heap h h' w : with_heap h (with_heap h' w) = with_heap h w.
Proof. reflexivity. Qed.

Lemma upd_future_at future g f w sch :
  heap w !! future = Some f ->
  upd_future future g w sch
  = Done tt (with_heap (<[future := g f]> (heap w)) w) sch.
Proof.
  intros H. unfold upd_future, mbind, M_bind, load_future. by rewrite H.
Qed.

Lemma run_callable_one_shot fuel future callable executor ts c f w sch :
  callables w !! callable = Some c -> Call.period c = 0 ->
  heap w !! future = Some f ->
  run_callable (S fuel) future callable executor ts w sch
  = Done ts (with_heap (<[future := completed_by c f]> (heap w)) w) sch.
Proof.
  intros Hc Hp Hf. cbn [run_callable]. unfold mbind, M_bind, load_callable.
  rewrite Hc, Hp. cbn [Z.eqb].
  rewrite (upd_future_at future _ f) by done.
  erewrite upd_future_at by apply lookup_insert_eq.
  erewrite upd_future_at by apply lookup_insert_eq.
  cbn [heap with_heap]. rewrite !insert_insert_eq. reflexivity.
Qed.

Lemma future_lock_free future f w sch :
  heap w !! future = Some f -> Fut.m f = false ->
  future_lock future w sch
  = Done tt (with_heap (<[future := Fut.with_m true f]> (heap w)) w) sch.
Proof.
  intros Hf Hm. unfold future_lock.
  rewrite await_ready by (by rewrite Hf, Hm).
  by apply upd_future_at.
Qed.

Lemma result_wait_ready future f w sch :
  heap w !! future = Some f -> Fut.completed f <> 0 ->
  result_wait future w sch = Done tt w sch.
Proof.
  intros Hf Hc. apply Z.eqb_neq in Hc.
  destruct sch; cbn [result_wait]; by rewrite Hf, Hc.
Qed.

Lemma get_callable_result_ready future f w sch :
  heap w !! future = Some f -> Fut.m f = false -> Fut.completed f <> 0 ->
  get_callable_result future w sch = Done (Fut.result f) w sch.
Proof.
  intros Hf Hm Hc. unfold get_callable_result, mbind, M_bind.
  rewrite (future_lock_free future f) by done.
  rewrite (result_wait_ready future (Fut.with_m true f))
    by (cbn [heap with_heap]; first [apply lookup_insert_eq | done]).
  unfold load_future. cbn [heap with_heap]. rewrite lookup_insert_eq.
  erewrite upd_future_at by apply lookup_insert_eq.
  cbn [heap with_heap mret M_ret]. rewrite insert_insert_eq.
  replace (Fut.with_m false (Fut.with_m true f)) with f
    by (destruct f; cbn in *; by subst).
  rewrite insert_id by done. by destruct w.
Qed.

(** X12: [pool_thread_remove], entered with the pool's mutex free, returns 1
    and lowers the size once if it exceeds the core size and once more if a
    shutdown was requested, by two when both hold and not at all when
    neither does; it broadcasts on the pool's condition exactly when the
    size it leaves is 0, and it changes neither the sizes configured nor the
    flag nor the threads. *)
Theorem retire_lowers_size_per_condition (w : world) (sch : schedule world) :
  Pool.m (pool w) = false ->
  exists w',
    pool_thread_remove w sch = Done 1 w' sch /\
    Pool.size (pool w')
    = Pool.size (pool w)
      - (if Pool.core_pool_size (pool w) <? Pool.size (pool w) then 1 else 0)
      - (if Pool.shutdown (pool w) =? 0 then 0 else 1) /\
    Pool.cond_var (pool w')
    = (if Pool.size (pool w') =? 0 then S (Pool.cond_var (pool w))
       else Pool.cond_var (pool w)) /\
    Pool.m (pool w') = false /\
    Pool.core_pool_size (pool w') = Pool.core_pool_size (pool w) /\
    Pool.max_pool_size (pool w') = Pool.max_pool_size (pool w) /\
    Pool.shutdown (pool w') = Pool.shutdown (pool w) /\
    threads w' = threads w.
Proof.
  intros Hm.
  destruct (pool_thread_remove_quiet w sch Hm) as (w' & Hrun & _ & Ht & Hp).
  exists w'. split; [exact Hrun|]. rewrite Hp. cbn.
  split_and!; try done. unfold retired_size.
  destruct (Pool.core_pool_size (pool w) <? Pool.size (pool w));
    destruct (Pool.shutdown (pool w) =? 0); cbn; lia.
Qed.

Lemma retire_lowers_size_per_condition_witness :
  Pool.size (pool stopping_world) = 2 /\
  exists w',
    pool_thread_remove stopping_world [] = Done 1 w' [] /\
    Pool.size (pool w') = 0 /\ Pool.cond_var (pool w') = 1%nat.
Proof.
  split; [reflexivity|].
  destruct (retire_lowers_size_per_condition stopping_world [] eq_refl)
    as (w' & Hrun & Hsize & Hcv & _).
  exists w'. split; [exact Hrun|]. split; [exact Hsize|].
  rewrite Hcv, Hsize. reflexivity.
Defined.

(** X13: [wait_thread_pool_empty] returns only with the size at 0 and the
    pool's mutex free, whatever the state it starts in and whatever the
    other threads do; until then it is parked on the pool's condition with
    the mutex free, or waiting for the mutex. *)
Theorem wait_pool_empty_returns_at_zero (w : world) (sch : schedule world) :
  match wait_thread_pool_empty w sch with
  | Done _ w' _ => Pool.size (pool w') = 0 /\ Pool.m (pool w') = false
  | Blocked on w' =>
      on = OnMutex \/
      on = OnCond PoolCond /\ Pool.m (pool w') = false /\ Pool.size (pool w') <> 0
  | _ => False
  end.
Proof.
  unfold wait_thread_pool_empty, mbind, M_bind.
  destruct (pool_lock_outcome w sch) as [(w1 & sch1 & ->)|(w1 & ->)]; [|by left].
  pose proof (pool_empty_wait_outcome sch1 w1) as H.
  destruct (pool_empty_wait w1 sch1) as [[] w2 sch2|on w2| |]; try done.
  by right.
Qed.

(** X14: [pool_thread_create] and [pool_thread_remove] return with the pool's
    mutex free and wait for nothing but that mutex, whatever the state and
    whatever the other threads do. *)
Theorem pool_calls_release_mutex (c : pool_call) (w : world)
  (sch : schedule world) :
  match pool_call_run c w sch with
  | Done _ w' _ => Pool.m (pool w') = false
  | Blocked on _ => on = OnMutex
  | _ => False
  end.
Proof.
  destruct c as [future force|]; cbn [pool_call_run].
  - apply pool_thread_create_releases.
  - apply pool_thread_remove_releases.
Qed.

(** X15: a thread parked in [wait_thread_pool_empty] returns when another
    thread's [pool_thread_remove] brings the size to 0: the retiring thread
    broadcasts on the pool's condition and the waiter finds the size at
    0. *)
Theorem waiter_released_by_last_retire (w : world) (sch : schedule world) :
  Pool.m (pool w) = false -> Pool.size (pool w) <> 0 ->
  retired_size (pool w) = 0 ->
  (exists w0, wait_thread_pool_empty w [] = Blocked (OnCond PoolCond) w0) /\
  exists w',
    wait_thread_pool_empty w (other_thread pool_thread_remove :: sch)
    = Done tt w' sch /\
    Pool.size (pool w') = 0 /\
    Pool.cond_var (pool w') = S (Pool.cond_var (pool w)) /\
    Pool.m (pool w') = false.
Proof.
  intros Hm Hs Hr. split.
  - unfold wait_thread_pool_empty, mbind, M_bind.
    rewrite pool_lock_free by done. cbn [pool_empty_wait].
    rewrite pool_upd_pool. cbn [Pool.size Pool.with_m].
    apply Z.eqb_neq in Hs. rewrite Hs. eauto.
  - destruct (wait_after_last_retire w sch Hm Hs Hr) as (w' & Hrun & _ & _ & Hp).
    exists w'. split; [exact Hrun|]. by rewrite Hp.
Qed.

Lemma waiter_released_by_last_retire_witness :
  exists w',
    wait_thread_pool_empty last_worker_world [other_thread pool_thread_remove]
    = Done tt w' [] /\
    Pool.size (pool w') = 0.
Proof.
  destruct (waiter_released_by_last_retire last_worker_world [])
    as [_ (w' & Hrun & Hsize & _)].
  - reflexivity.
  - discriminate.
  - reflexivity.
  - exists w'. split; [exact Hrun | exact Hsize].
Defined.

(** X16: once a worker has run the one-shot callable of a future,
    [get_callable_result] on that future returns the output of the
    callable at once and changes nothing. *)
Theorem completed_future_yields_result (fuel : nat)
  (future callable executor : ptr) (ts : Z) (c : callable_t) (f : future_t)
  (w : world) (sch sch' : schedule world) :
  callables w !! callable = Some c -> Call.period c = 0 ->
  heap w !! future = Some f -> Fut.m f = false ->
  exists w1,
    run_callable (S fuel) future callable executor ts w sch = Done ts w1 sch /\
    heap w1 !! future = Some (completed_by c f) /\
    get_callable_result future w1 sch'
    = Done (Call.main c (Call.params c)) w1 sch'.
Proof.
  intros Hc Hp Hf Hm. eexists. split; [by apply run_callable_one_shot|].
  cbn [heap with_heap]. split; [apply lookup_insert_eq|].
  by rewrite (get_callable_result_ready future (completed_by c f))
    by (first [apply lookup_insert_eq | done]).
Qed.

Lemma completed_future_yields_result_witness :
  exists w1,
    run_callable 1 200 100 1000 0 one_shot_world [] = Done 0 w1 [] /\
    get_callable_result 200 w1 [] = Done 42 w1 [].
Proof.
  destruct (completed_future_yields_result 0 200 100 1000 0
              (Call.with_executor 1000 (task 0)) (Fut.mk 100 0 0 false 0)
              one_shot_world [] [])
    as (w1 & Hrun & _ & Hget); try reflexivity.
  exists w1. split; [exact Hrun | exact Hget].
Defined.

Lemma run_callable_in_two_steps fuel future callable executor ts c w sch :
  callables w !! callable = Some c -> Call.period c = 0 ->
  run_callable (S fuel) future callable executor ts w sch
  = (store_and_broadcast future callable ;; set_completed future ;; mret ts) w sch.
Proof.
  intros Hc Hp. cbn [run_callable].
  unfold store_and_broadcast, set_completed, mbind, M_bind, load_callable.
  rewrite Hc, Hp. cbn [Z.eqb].
  destruct (upd_future future _ w sch) as [[] w1 sch1| | |]; reflexivity.
Qed.

Lemma store_and_broadcast_at future callable c f w sch :
  callables w !! callable = Some c -> heap w !! future = Some f ->
  store_and_broadcast future callable w sch
  = Done tt (with_heap (<[future := Fut.mk (Fut.callable f) (Fut.completed f)
                                          (Call.main c (Call.params c)) (Fut.m f)
                                          (S (Fut.cond_var f))]> (heap w)) w) sch.
Proof.
  intros Hc Hf. unfold store_and_broadcast, mbind, M_bind, load_callable.
  rewrite Hc. rewrite (upd_future_at future _ f) by done.
  erewrite upd_future_at by apply lookup_insert_eq.
  cbn [heap with_heap]. rewrite insert_insert_eq. reflexivity.
Qed.

(** X17: the reader of a future can miss its completion.  The worker sends
    the broadcast on [future->cond_var] before it sets [completed], and
    holds no mutex for either (lines 123-124).  A reader parked in
    [get_callable_result] that runs between the two finds [completed] at 0
    and parks again; the future is then completed, with the output of the
    callable, and the reader stays parked, the only broadcast being spent.
    Run after both steps, the reader returns the output. *)
Theorem reader_can_miss_the_completion (fuel : nat)
  (future callable executor : ptr) (ts : Z) (c : callable_t) (f : future_t)
  (w : world) :
  callables w !! callable = Some c -> Call.period c = 0 ->
  heap w !! future = Some f -> Fut.m f = false -> Fut.completed f = 0 ->
  (forall sch,
     run_callable (S fuel) future callable executor ts w sch
     = (store_and_broadcast future callable ;; set_completed future ;; mret ts)
         w sch) /\
  (exists w',
     get_callable_result_signalled future w
       [other_thread (store_and_broadcast future callable);
        other_thread (set_completed future)]
     = Blocked (OnCond (FutureCond future)) w' /\
     heap w' !! future = Some (completed_by c f)) /\
  (exists w',
     get_callable_result_signalled future w
       [other_thread (run_callable (S fuel) future callable executor ts)]
     = Done (Call.main c (Call.params c)) w' [] /\
     heap w' !! future = Some (completed_by c f)).
Proof.
  intros Hc Hp Hf Hm Hz. split; [|split].
  - intros sch. by apply (run_callable_in_two_steps fuel future callable executor ts c).
  - unfold get_callable_result_signalled, mbind, M_bind.
    rewrite (future_lock_free future f) by done.
    unfold result_wait_signalled. cbn [heap with_heap].
    rewrite lookup_insert_eq. cbn [Fut.completed Fut.with_m]. rewrite Hz.
    cbn [Z.eqb]. rewrite insert_insert_eq, with_heap_with_heap.
    set (f1 := Fut.with_m false (Fut.with_m true f)).
    assert (Hf1 : f1 = f) by (unfold f1; destruct f; cbn in *; by subst).
    set (w1 := with_heap _ w).
    assert (Hw1 : heap w1 !! future = Some f1) by apply lookup_insert_eq.
    cbn [parked_on_future].
    erewrite (other_thread_done _ tt w1)
      by (apply (store_and_broadcast_at future callable c f1); done).
    cbn [heap with_heap]. rewrite lookup_insert_eq.
    cbn [Fut.cond_var Fut.completed].
    replace (S (Fut.cond_var f1) =? Fut.cond_var (Fut.with_m true f))%nat
      with false by (symmetry; apply Nat.eqb_neq; rewrite Hf1; cbn; lia).
    rewrite Hf1, Hz. cbn [Z.eqb].
    erewrite (other_thread_done (set_completed future) tt)
      by (unfold set_completed; apply upd_future_at, lookup_insert_eq).
    cbn [heap with_heap]. rewrite lookup_insert_eq. cbn [Fut.cond_var].
    rewrite Nat.eqb_refl. eexists. split; [reflexivity|].
    cbn [heap with_heap]. rewrite lookup_insert_eq. reflexivity.
  - unfold get_callable_result_signalled, mbind, M_bind.
    rewrite (future_lock_free future f) by done.
    unfold result_wait_signalled. cbn [heap with_heap].
    rewrite lookup_insert_eq. cbn [Fut.completed Fut.with_m]. rewrite Hz.
    cbn [Z.eqb]. rewrite insert_insert_eq, with_heap_with_heap.
    set (f1 := Fut.with_m false (Fut.with_m true f)).
    assert (Hf1 : f1 = f) by (unfold f1; destruct f; cbn in *; by subst).
    set (w1 := with_heap _ w).
    cbn [parked_on_future].
    erewrite (other_thread_done _ ts w1)
      by (apply run_callable_one_shot; [exact Hc|exact Hp|apply lookup_insert_eq]).
    cbn [heap with_heap]. rewrite lookup_insert_eq.
    cbn [Fut.cond_var Fut.completed completed_by].
    replace (S (Fut.cond_var f1) =? Fut.cond_var (Fut.with_m true f))%nat
      with false by (symmetry; apply Nat.eqb_neq; rewrite Hf1; cbn; lia).
    cbn [Z.eqb].
    unfold load_future. cbn [heap with_heap]. rewrite lookup_insert_eq.
    erewrite upd_future_at by (cbn [heap with_heap]; apply lookup_insert_eq).
    cbn [heap with_heap mret M_ret]. rewrite !insert_insert_eq.
    eexists. split; [reflexivity|].
    cbn [heap with_heap]. rewrite lookup_insert_eq. rewrite Hf1.
    f_equal. destruct f; cbn in *; by subst.
Qed.

Lemma reader_can_miss_the_completion_witness :
  (exists w',
     get_callable_result_signalled 200 one_shot_world
       [other_thread (store_and_broadcast 200 100);
        other_thread (set_completed 200)]
     = Blocked (OnCond (FutureCond 200)) w' /\
     heap w' !! 200 = Some (Fut.mk 100 1 42 false 1)) /\
  (exists w',
     get_callable_result_signalled 200 one_shot_world
       [other_thread (run_callable 1 200 100 1000 0)] = Done 42 w' [] /\
     heap w' !! 200 = Some (Fut.mk 100 1 42 false 1)).
Proof.
  destruct (reader_can_miss_the_completion 0 200 100 1000 0
              (Call.with_executor 1000 (task 0)) (Fut.mk 100 0 0 false 0)
              one_shot_world)
    as (_ & Hmiss & Hget); try reflexivity.
  split; [exact Hmiss | exact Hget].
Defined.

Lemma result_wait_done future sch : forall w w' sch',
  result_wait future w sch = Done tt w' sch' ->
  exists f, heap w' !! future = Some f /\ Fut.completed f <> 0.
Proof.
  induction sch as [|e sch IH]; intros w w' sch'; cbn [result_wait];
    destruct (heap w !! future) as [f|] eqn:Hf; try discriminate;
    destruct (Z.eqb_spec (Fut.completed f) 0); try discriminate;
    try (intros [= <- <-]; eauto).
  cbv zeta. apply IH.
Qed.

(** X24: [get_callable_result] returns only for a completed future: when it
    returns, the future is marked completed, the value returned is the
    result the future holds, and the future's mutex is free, whatever the
    state it started in and whatever the other threads did while it
    waited. *)
Theorem result_is_of_completed_future (future : ptr) (r : ptr)
  (w w' : world) (sch sch' : schedule world) :
  get_callable_result future w sch = Done r w' sch' ->
  exists f, heap w' !! future = Some f /\ Fut.completed f <> 0 /\
            Fut.result f = r /\ Fut.m f = false.
Proof.
  unfold get_callable_result, mbind, M_bind.
  destruct (future_lock future w sch) as [[] w1 sch1| | |]; try discriminate.
  destruct (result_wait future w1 sch1) as [[] w2 sch2| | |] eqn:Hw;
    try discriminate.
  apply result_wait_done in Hw as (f & Hf & Hc).
  unfold load_future. rewrite Hf.
  rewrite (upd_future_at future _ f) by done.
  intros [= <- <- _]. exists (Fut.with_m false f).
  cbn [heap with_heap]. rewrite lookup_insert_eq. done.
Qed.

Lemma result_is_of_completed_future_witness :
  exists w' f,
    get_callable_result 200 one_shot_world
      [other_thread (run_callable 1 200 100 1000 0)] = Done 42 w' [] /\
    heap w' !! 200 = Some f /\ Fut.completed f <> 0 /\ Fut.result f = 42.
Proof.
  assert (Hrun : exists w',
             get_callable_result 200 one_shot_world
               [other_thread (run_callable 1 200 100 1000 0)] = Done 42 w' [])
    by (eexists; vm_compute; reflexivity).
  destruct Hrun as [w' Hrun].
  destruct (result_is_of_completed_future 200 42 one_shot_world w'
              [other_thread (run_callable 1 200 100 1000 0)] [] Hrun)
    as (f & Hf & Hc & Hr & _).
  exists w', f. split; [exact Hrun|]. split; [exact Hf|]. split; [exact Hc | exact Hr].
Defined.

(* ===================================================================== *)
(** * TP5: a worker and the queue of pending futures *)
(* ===================================================================== *)

Lemma pending_clock_assign q w : clock (assign pending q w) = clock w.
Proof. reflexivity. Qed.

Lemma pending_get_take next r w sch :
  PB.sem_impl (Exec.futures (the_executor w)) = false ->
  PB.m (Exec.futures (the_executor w)) = false ->
  circular_buffer_get (PB.buffer (Exec.futures (the_executor w))) = (next, r) ->
  next <> NULL ->
  protected_buffer_get pending w sch
  = Done next (assign pending (left_by r 1 0 (Exec.futures (the_executor w))) w) sch.
Proof.
  intros Hs Hm Hg Hn. unfold protected_buffer_get. cbn [deref pending]. rewrite Hs.
  by rewrite (cond_get_quiet pending pending_deref_assign pending_assign_assign
                next r).
Qed.

Lemma pending_poll_take abstime next r w sch :
  PB.sem_impl (Exec.futures (the_executor w)) = false ->
  PB.m (Exec.futures (the_executor w)) = false ->
  circular_buffer_get (PB.buffer (Exec.futures (the_executor w))) = (next, r) ->
  next <> NULL ->
  protected_buffer_poll clock pending abstime w sch
  = Done next (assign pending (left_by r 1 0 (Exec.futures (the_executor w))) w) sch.
Proof.
  intros Hs Hm Hg Hn. unfold protected_buffer_poll. cbn [deref pending]. rewrite Hs.
  by rewrite (cond_poll_quiet clock pending pending_deref_assign
                pending_assign_assign abstime next r).
Qed.

Lemma worker_step fuel future ts f c next r w sch :
  PB.sem_impl (Exec.futures (the_executor w)) = false ->
  PB.m (Exec.futures (the_executor w)) = false ->
  future <> NULL ->
  heap w !! future = Some f -> callables w !! Fut.callable f = Some c ->
  Call.period c = 0 -> Call.executor c = executor_at w ->
  circular_buffer_get (PB.buffer (Exec.futures (the_executor w))) = (next, r) ->
  next <> NULL ->
  pool_thread_loop (S fuel) future ts w sch
  = pool_thread_loop fuel next ts (served_next future c f r w) sch.
Proof.
  intros Hs Hm Hn Hf Hc Hp He Hg Hnext.
  cbn [pool_thread_loop]. apply Z.eqb_neq in Hn. rewrite Hn.
  unfold mbind at 1, M_bind at 1, load_future at 1. rewrite Hf.
  unfold mbind at 1, M_bind at 1, load_callable at 1. rewrite Hc.
  unfold mbind at 1, M_bind at 1.
  rewrite (run_callable_one_shot fuel future (Fut.callable f) _ ts c f) by done.
  set (w1 := with_heap _ w).
  unfold mbind at 1, M_bind at 1, load_executor at 1.
  change (executor_at w1) with (executor_at w). rewrite He, Z.eqb_refl.
  change (the_executor w1) with (the_executor w).
  unfold mbind at 1, M_bind at 1.
  assert (Hnext' : (next =? NULL) = false) by (by apply Z.eqb_neq).
  destruct (Exec.keep_alive_time (the_executor w) =? FOREVER).
  - rewrite (pending_get_take next r) by done. rewrite Hnext'. reflexivity.
  - unfold mbind at 1, M_bind at 1, gets at 1.
    rewrite (pending_poll_take _ next r) by done. rewrite Hnext'. reflexivity.
Qed.

Lemma served_insert future c f w w' :
  heap w' = <[future := completed_by c f]> (heap w) ->
  callables w' = callables w ->
  heap w !! future = Some f -> callables w !! Fut.callable f = Some c ->
  served w' future /\ (forall fu, served w fu -> served w' fu).
Proof.
  intros Hh Hcs Hf Hc. split.
  - exists (completed_by c f), c. rewrite Hh, Hcs, lookup_insert_eq. done.
  - intros fu (f' & c' & Hf' & Hc' & Hd & Hr).
    destruct (decide (fu = future)) as [->|Hne].
    + exists (completed_by c f), c. rewrite Hh, Hcs, lookup_insert_eq. done.
    + exists f', c'. rewrite Hh, Hcs, lookup_insert_ne by done. done.
Qed.

Lemma one_shot_insert future c f w w' :
  heap w' = <[future := completed_by c f]> (heap w) ->
  callables w' = callables w -> executor_at w' = executor_at w ->
  heap w !! future = Some f ->
  forall fu, one_shot w fu -> one_shot w' fu.
Proof.
  intros Hh Hcs He Hf fu (f' & c' & Hf' & Hc' & Hp & Hx).
  destruct (decide (fu = future)) as [->|Hne].
  - exists (completed_by c f), c'. rewrite Hh, Hcs, He, lookup_insert_eq.
    rewrite Hf in Hf'. injection Hf' as <-. done.
  - exists f', c'. rewrite Hh, Hcs, He, lookup_insert_ne by done. done.
Qed.

Lemma served_next_frame future c f r w :
  let w' := served_next future c f r w in
  heap w' = <[future := completed_by c f]> (heap w) /\
  callables w' = callables w /\ executor_at w' = executor_at w /\
  clock w' = clock w /\ pool w' = pool w /\ threads w' = threads w /\
  Exec.keep_alive_time (the_executor w') = Exec.keep_alive_time (the_executor w) /\
  Exec.futures (the_executor w') = left_by r 1 0 (Exec.futures (the_executor w)).
Proof. by destruct w as [? ? [? ? ?] ? ? ?]. Qed.

(** A worker that serves one-shot futures goes through the queue in order:
    from [future] with [q] pending it reaches the last of them with the
    queue empty and the others served. *)
Lemma worker_drains ts sch : forall q fuel future w,
  executor_ok w -> future <> NULL -> queue w = q ->
  Forall (one_shot w) (future :: q) ->
  exists w1 lastf,
    pool_thread_loop (length q + fuel) future ts w sch
    = pool_thread_loop fuel lastf ts w1 sch /\
    executor_ok w1 /\ lastf <> NULL /\ queue w1 = [] /\ one_shot w1 lastf /\
    In lastf (future :: q) /\
    (forall fu, served w fu \/ (In fu (future :: q) /\ fu <> lastf) ->
                served w1 fu) /\
    callables w1 = callables w /\ executor_at w1 = executor_at w /\
    clock w1 = clock w /\ pool w1 = pool w /\ threads w1 = threads w /\
    Exec.keep_alive_time (the_executor w1) = Exec.keep_alive_time (the_executor w) /\
    capacity w1 = capacity w.
Proof.
  induction q as [|next rest IH]; intros fuel future w Hok Hn Hq Hos.
  - exists w, future. cbn [length Nat.add].
    apply Forall_cons in Hos as [Hos _].
    split_and!; try done; [by left|intros fu [?|[[?|[]] ?]]; done].
  - pose proof Hok as (Hs & Hm & Hpm & Hr & Hqs).
    apply Forall_cons in Hos as [(f & c & Hf & Hc & Hp & He) Hos].
    unfold queue in Hq.
    destruct (get_ok _ next rest Hr Hq) as (r & Hg & Hr' & Hc' & Hmax).
    fold (queue w) in Hq. rewrite Hq in Hqs.
    apply Forall_cons in Hqs as [[Hnext _] Hqs].
    cbn [length Nat.add].
    rewrite (worker_step _ future ts f c next r) by done.
    pose proof (served_next_frame future c f r w) as
      (Hh2 & Hcs2 & He2 & Hck2 & Hp2 & Ht2 & Hk2 & Hq2).
    set (w2 := served_next future c f r w) in *. clearbody w2.
    assert (Hqueue2 : queue w2 = rest) by (unfold queue; by rewrite Hq2).
    assert (Hok2 : executor_ok w2).
    { unfold executor_ok. fold (queue w2). rewrite Hqueue2, Hq2, Hp2.
      split_and!; try done.
      eapply Forall_impl; [exact Hqs|]. intros x [? ?]. split; [done|].
      rewrite Hh2. apply lookup_insert_is_Some.
      destruct (decide (future = x)); auto. }
    assert (Hos2 : Forall (one_shot w2) (next :: rest)).
    { eapply Forall_impl; [exact Hos|]. by apply (one_shot_insert future c f w). }
    destruct (served_insert future c f w w2 Hh2 Hcs2 Hf Hc) as [Hsv Hkeep].
    destruct (IH fuel next w2 Hok2 Hnext Hqueue2 Hos2)
      as (w1 & lastf & Hrun & Hok1 & Hl1 & Hq1 & Hos1 & Hin & Hdone &
          Hcs1 & He1 & Hck1 & Hp1 & Ht1 & Hk1 & Hcap1).
    exists w1, lastf. split; [exact Hrun|].
    split_and!; try done; try congruence.
    + by right.
    + intros fu [Hfu|[[->|Hfu] Hne]].
      * apply Hdone. left. by apply Hkeep.
      * apply Hdone. left. exact Hsv.
      * apply Hdone. by right.
    + rewrite Hcap1. unfold capacity. rewrite Hq2. cbn. done.
Qed.

Lemma queue_nil_get w :
  queue w = [] ->
  circular_buffer_get (PB.buffer (Exec.futures (the_executor w)))
  = (NULL, PB.buffer (Exec.futures (the_executor w))).
Proof.
  intros H. apply get_empty. rewrite <- contents_length. unfold queue in H.
  by rewrite H.
Qed.

Lemma served_last_frame future c f w :
  let w' := served_last future c f w in
  heap w' = <[future := completed_by c f]> (heap w) /\
  callables w' = callables w /\ executor_at w' = executor_at w /\
  clock w' = clock w /\ pool w' = pool w /\ threads w' = threads w /\
  Exec.keep_alive_time (the_executor w') = Exec.keep_alive_time (the_executor w) /\
  queue w' = queue w.
Proof. by destruct w as [? ? [? ? ?] ? ? ?]. Qed.

Lemma worker_last_forever fuel future ts f c w :
  PB.sem_impl (Exec.futures (the_executor w)) = false ->
  PB.m (Exec.futures (the_executor w)) = false ->
  future <> NULL ->
  heap w !! future = Some f -> callables w !! Fut.callable f = Some c ->
  Call.period c = 0 -> Call.executor c = executor_at w ->
  queue w = [] -> Exec.keep_alive_time (the_executor w) = FOREVER ->
  pool_thread_loop (S fuel) future ts w []
  = Blocked (OnCond BufFull) (served_last future c f w).
Proof.
  intros Hs Hm Hn Hf Hc Hp He Hq Hk.
  cbn [pool_thread_loop]. apply Z.eqb_neq in Hn. rewrite Hn.
  unfold mbind at 1, M_bind at 1, load_future at 1. rewrite Hf.
  unfold mbind at 1, M_bind at 1, load_callable at 1. rewrite Hc.
  unfold mbind at 1, M_bind at 1.
  rewrite (run_callable_one_shot fuel future (Fut.callable f) _ ts c f) by done.
  set (w1 := with_heap _ w).
  unfold mbind at 1, M_bind at 1, load_executor at 1.
  change (executor_at w1) with (executor_at w). rewrite He, Z.eqb_refl.
  change (the_executor w1) with (the_executor w).
  unfold mbind at 1, M_bind at 1. rewrite Hk, Z.eqb_refl.
  unfold protected_buffer_get. cbn [deref pending].
  change (the_executor w1) with (the_executor w). rewrite Hs.
  rewrite (cond_get_parks pending pending_deref_assign pending_assign_assign)
    by (first [done | by apply queue_nil_get]).
  reflexivity.
Qed.

Lemma pending_poll_times_out abstime ms w sch :
  PB.sem_impl (Exec.futures (the_executor w)) = false ->
  PB.m (Exec.futures (the_executor w)) = false ->
  queue w = [] -> clock w < abstime <= clock w + ms ->
  protected_buffer_poll clock pending abstime w (tick ms :: sch)
  = Done NULL
         (tick ms (assign pending
                     (left_by (PB.buffer (Exec.futures (the_executor w))) 0 0
                              (Exec.futures (the_executor w))) w)) sch.
Proof.
  intros Hs Hm Hq [Hlt Hle]. apply queue_nil_get in Hq.
  unfold protected_buffer_poll. cbn [deref pending]. rewrite Hs.
  unfold cond_protected_buffer_poll, mbind, M_bind.
  rewrite (lock_free pending) by done.
  cbn [cond_poll_wait]. unfold ring_get, upd.
  rewrite pending_deref_assign. cbn [PB.buffer PB.with_m deref pending] in *.
  rewrite Hq, Z.eqb_refl. unfold timedwait_rc.
  rewrite !pending_clock_assign.
  destruct (Z.leb_spec abstime (clock w)); [lia|]. cbn [Z.eqb ETIMEDOUT].
  cbv zeta.
  replace (clock (acquire pending (tick ms (release pending _))))
    with (clock w + ms) by reflexivity.
  destruct (Z.leb_spec abstime (clock w + ms)); [|lia].
  cbn [Z.eqb Pos.eqb]. unfold pthread_mutex_unlock, modify, mret, M_ret.
  reflexivity.
Qed.

Lemma worker_last_timeout fuel future ts f c ms w sch :
  PB.sem_impl (Exec.futures (the_executor w)) = false ->
  PB.m (Exec.futures (the_executor w)) = false ->
  Pool.m (pool w) = false ->
  future <> NULL ->
  heap w !! future = Some f -> callables w !! Fut.callable f = Some c ->
  Call.period c = 0 -> Call.executor c = executor_at w ->
  queue w = [] -> Exec.keep_alive_time (the_executor w) <> FOREVER ->
  0 < Exec.keep_alive_time (the_executor w) <= ms ->
  exists w',
    pool_thread_loop (S fuel) future ts w (tick ms :: sch) = Done tt w' sch /\
    heap w' = <[future := completed_by c f]> (heap w) /\
    callables w' = callables w /\ clock w' = clock w + ms /\
    threads w' = threads w /\ queue w' = [] /\
    pool w' = Pool.mk (Pool.core_pool_size (pool w)) (Pool.max_pool_size (pool w))
                      (retired_size (pool w)) (Pool.shutdown (pool w)) false
                      (if retired_size (pool w) =? 0 then S (Pool.cond_var (pool w))
                       else Pool.cond_var (pool w)).
Proof.
  intros Hs Hm Hpm Hn Hf Hc Hp He Hq Hk Hms.
  cbn [pool_thread_loop]. apply Z.eqb_neq in Hn. rewrite Hn.
  unfold mbind at 1, M_bind at 1, load_future at 1. rewrite Hf.
  unfold mbind at 1, M_bind at 1, load_callable at 1. rewrite Hc.
  unfold mbind at 1, M_bind at 1.
  rewrite (run_callable_one_shot fuel future (Fut.callable f) _ ts c f) by done.
  set (w1 := with_heap _ w).
  unfold mbind at 1, M_bind at 1, load_executor at 1.
  change (executor_at w1) with (executor_at w). rewrite He, Z.eqb_refl.
  change (the_executor w1) with (the_executor w).
  unfold mbind at 1, M_bind at 1. apply Z.eqb_neq in Hk. rewrite Hk.
  unfold mbind at 1, M_bind at 1, gets at 1.
  unfold add_millis_to_timespec.
  rewrite pending_poll_times_out;
    [|done|done|done|change (clock w1) with (clock w); lia].
  rewrite Z.eqb_refl.
  set (w2 := tick ms _).
  assert (H2 : heap w2 = <[future := completed_by c f]> (heap w) /\
               callables w2 = callables w /\ clock w2 = clock w + ms /\
               threads w2 = threads w /\ queue w2 = queue w /\ pool w2 = pool w).
  { unfold w2, w1. by destruct w as [? ? [? ? ?] ? ? ?]. }
  clearbody w2. destruct H2 as (Hh2 & Hcs2 & Hck2 & Ht2 & Hq2 & Hp2).
  unfold mbind at 1, M_bind at 1.
  destruct (pool_thread_remove_quiet w2 sch ltac:(by rewrite Hp2))
    as (w3 & -> & (Hck3 & _ & Hcs3 & Hh3 & _ & Hq3) & Ht3 & Hp3).
  cbn [Z.eqb negb]. exists w3. split; [reflexivity|].
  rewrite Hp3, Hp2. unfold queue in *. rewrite Hq3.
  split_and!; try done; congruence.
Qed.

(** X18: a worker of an executor with keep-alive [FOREVER], started on a
    future while others are pending, all of them wrapping one-shot
    callables: it completes its future and then the pending ones in the
    order of the queue, each with the output of its callable, leaves the
    queue empty and parks in [protected_buffer_get]; the pool is as it
    was. *)
Theorem worker_serves_pending_futures (fuel : nat) (arg : ptr) (w : world) :
  executor_ok w -> arg <> NULL ->
  Exec.keep_alive_time (the_executor w) = FOREVER ->
  Forall (one_shot w) (arg :: queue w) ->
  (length (queue w) < fuel)%nat ->
  exists w',
    main_pool_thread fuel arg w [] = Blocked (OnCond BufFull) w' /\
    Forall (served w') (arg :: queue w) /\ queue w' = [] /\
    pool w' = pool w /\ threads w' = threads w.
Proof.
  intros Hok Hn Hk Hos Hfuel.
  destruct (worker_drains (clock w) [] (queue w) (S (fuel - S (length (queue w))))
              arg w Hok Hn eq_refl Hos)
    as (w1 & lastf & Hrun & Hok1 & Hl1 & Hq1 & (f & c & Hf & Hc & Hp & He) & Hin &
        Hdone & Hcs1 & He1 & Hck1 & Hp1 & Ht1 & Hk1 & _).
  replace (length (queue w) + S (fuel - S (length (queue w))))%nat with fuel
    in Hrun by lia.
  unfold main_pool_thread, mbind, M_bind, gets. rewrite Hrun.
  destruct Hok1 as (Hs1 & Hm1 & _).
  rewrite (worker_last_forever _ lastf _ f c) by (done || congruence).
  pose proof (served_last_frame lastf c f w1) as
    (Hh2 & Hcs2 & _ & _ & Hp2 & Ht2 & _ & Hq2).
  set (w2 := served_last lastf c f w1) in *. clearbody w2.
  destruct (served_insert lastf c f w1 w2 Hh2 Hcs2 Hf Hc) as [Hsv Hkeep].
  exists w2. split; [reflexivity|]. split_and!; try congruence.
  apply Forall_forall. intros fu Hfu.
  destruct (decide (fu = lastf)) as [Heq|Hne]; [subst fu; exact Hsv|].
  apply Hkeep, Hdone. right. split; [by apply list_elem_of_In|exact Hne].
Qed.

Lemma overloaded_world_ok : executor_ok overloaded_world.
Proof.
  assert (Hq : queue overloaded_world = [201]) by (vm_compute; reflexivity).
  unfold executor_ok. rewrite Hq. split; [reflexivity|].
  split; [reflexivity|]. split; [reflexivity|]. split.
  - vm_compute. split; [reflexivity|]. split; [lia|].
    split; [left; lia|reflexivity].
  - apply Forall_singleton. split; [discriminate|].
    eexists. vm_compute. reflexivity.
Qed.

Lemma worker_serves_pending_futures_witness :
  exists w',
    main_pool_thread 2 200 overloaded_world [] = Blocked (OnCond BufFull) w' /\
    Forall (served w') [200; 201] /\ queue w' = [].
Proof.
  destruct (worker_serves_pending_futures 2 200 overloaded_world)
    as (w' & Hrun & Hserved & Hq & _).
  - exact overloaded_world_ok.
  - discriminate.
  - reflexivity.
  - repeat constructor;
      (eexists (Fut.mk 100 0 0 false 0), (Call.with_executor 1000 (task 0));
       repeat split; reflexivity).
  - vm_compute. lia.
  - exists w'. split; [exact Hrun|]. split; [exact Hserved|exact Hq].
Defined.

(** X19: a worker of an executor with a keep-alive of [k] ms, [k > 0],
    serving one-shot callables: it completes its future and the pending
    ones, waits in [protected_buffer_poll], and, woken once [ms >= k]
    milliseconds have passed, retires: [main_pool_thread] returns [NULL];
    the size of the pool is then what [pool_thread_remove] computes, one
    less per condition that holds (more workers than the core size; a
    shutdown requested), so the size stays as it was for a core worker of
    a pool that is not shutting down. *)
Theorem idle_worker_retires (fuel : nat) (arg : ptr) (ms : Z) (w : world)
  (sch : schedule world) :
  executor_ok w -> arg <> NULL ->
  Exec.keep_alive_time (the_executor w) <> FOREVER ->
  0 < Exec.keep_alive_time (the_executor w) <= ms ->
  Forall (one_shot w) (arg :: queue w) ->
  (length (queue w) < fuel)%nat ->
  exists w',
    main_pool_thread fuel arg w (tick ms :: sch) = Done NULL w' sch /\
    Forall (served w') (arg :: queue w) /\ queue w' = [] /\
    clock w' = clock w + ms /\ threads w' = threads w /\
    Pool.size (pool w') = retired_size (pool w) /\
    Pool.m (pool w') = false.
Proof.
  intros Hok Hn Hk Hms Hos Hfuel.
  destruct (worker_drains (clock w) (tick ms :: sch) (queue w)
              (S (fuel - S (length (queue w)))) arg w Hok Hn eq_refl Hos)
    as (w1 & lastf & Hrun & Hok1 & Hl1 & Hq1 & (f & c & Hf & Hc & Hp & He) & Hin &
        Hdone & Hcs1 & He1 & Hck1 & Hp1 & Ht1 & Hk1 & _).
  replace (length (queue w) + S (fuel - S (length (queue w))))%nat with fuel
    in Hrun by lia.
  unfold main_pool_thread, mbind, M_bind, gets. rewrite Hrun.
  destruct Hok1 as (Hs1 & Hm1 & Hpm1 & _).
  destruct (worker_last_timeout (fuel - S (length (queue w))) lastf (clock w) f c
              ms w1 sch) as (w2 & -> & Hh2 & Hcs2 & Hck2 & Ht2 & Hq2 & Hp2);
    try done; try congruence.
  destruct (served_insert lastf c f w1 w2 Hh2 Hcs2 Hf Hc) as [Hsv Hkeep].
  exists w2. split; [reflexivity|]. rewrite Hp2, Hp1. cbn [Pool.size Pool.m].
  split_and!; try congruence.
  apply Forall_forall. intros fu Hfu.
  destruct (decide (fu = lastf)) as [Heq|Hne]; [subst fu; exact Hsv|].
  apply Hkeep, Hdone. right. split; [by apply list_elem_of_In|exact Hne].
Qed.

Lemma busy_world_ok : executor_ok busy_world.
Proof.
  assert (Hq : queue busy_world = [201]) by (vm_compute; reflexivity).
  unfold executor_ok. rewrite Hq. split; [reflexivity|].
  split; [reflexivity|]. split; [reflexivity|]. split.
  - vm_compute. split; [reflexivity|]. split; [lia|].
    split; [left; lia|reflexivity].
  - apply Forall_singleton. split; [discriminate|].
    eexists. vm_compute. reflexivity.
Qed.

Lemma idle_worker_retires_witness :
  exists w',
    main_pool_thread 2 200 busy_world [tick 10] = Done NULL w' [] /\
    Forall (served w') [200; 201] /\ queue w' = [] /\
    Pool.size (pool w') = 1.
Proof.
  destruct (idle_worker_retires 2 200 10 busy_world [])
    as (w' & Hrun & Hserved & Hq & _ & _ & Hsize & _).
  - exact busy_world_ok.
  - discriminate.
  - discriminate.
  - vm_compute. split; [reflexivity | discriminate].
  - repeat constructor;
      (eexists (Fut.mk 100 0 0 false 0), (Call.with_executor 1000 (task 0));
       repeat split; reflexivity).
  - vm_compute. lia.
  - exists w'. split; [exact Hrun|]. split; [exact Hserved|].
    split; [exact Hq|exact Hsize].
Defined.

(* ===================================================================== *)
(** * TP5: periodic callables *)
(* ===================================================================== *)

Lemma await_done {W} on (ready : W -> bool) (P : W -> Prop) sch : forall w w' sch',
  P w -> env_ok P sch ->
  await on ready w sch = Done tt w' sch' ->
  ready w' = true /\ P w' /\ env_ok P sch'.
Proof.
  induction sch as [|e sch IH]; intros w w' sch' Hw Hs; cbn [await];
    destruct (ready w) eqn:Hr; try discriminate;
    try (intros [= <- <-]; done).
  apply Forall_cons in Hs as [He Hs]. apply IH; auto.
Qed.

(** X20: a periodic callable is left only at a release at which a shutdown
    was requested.  When the inner loop of [main_pool_thread] ends for a
    callable of period [p <> 0], the deadline it leaves is the one it
    started from plus [n * p] for some [n >= 1], that deadline has passed
    and the shutdown flag is set, the other threads doing anything but
    change the callable; and the future holds the output of the callable,
    which the loop has stored, if the other threads leave it there. *)
Theorem periodic_task_stops_at_release (fuel : nat)
  (future callable executor : ptr) (c : callable_t) (ts ts' : Z)
  (w w' : world) (sch sch' : schedule world) :
  Call.period c <> 0 ->
  callables w !! callable = Some c ->
  env_ok (fun w => callables w !! callable = Some c) sch ->
  run_callable fuel future callable executor ts w sch = Done ts' w' sch' ->
  (exists n, (1 <= n <= fuel)%nat /\
             ts' = ts + Z.of_nat n * Call.period c /\
             ts' <= clock w' /\ Pool.shutdown (pool w') <> 0) /\
  (env_ok (holds_output future callable c) sch ->
   holds_output future callable c w').
Proof.
  revert ts w sch ts' w' sch'.
  induction fuel as [|fuel IH]; intros ts w sch ts' w' sch' Hp Hc Hs;
    [discriminate|].
  cbn [run_callable]. unfold mbind at 1, M_bind at 1, load_callable at 1.
  rewrite Hc. unfold mbind at 1, M_bind at 1.
  unfold upd_future at 1, mbind at 1, M_bind at 1, load_future at 1.
  destruct (heap w !! future) as [f|]; [|discriminate].
  unfold modify at 1.
  apply Z.eqb_neq in Hp. rewrite Hp. apply Z.eqb_neq in Hp.
  unfold mbind at 1, M_bind at 1, delay_until, add_millis_to_timespec.
  set (w1 := with_heap _ w).
  assert (Hc1 : callables w1 !! callable = Some c) by exact Hc.
  assert (Ho1 : holds_output future callable c w1).
  { split; [exact Hc|]. eexists. split; [apply lookup_insert_eq|reflexivity]. }
  clearbody w1.
  destruct (await OnTimer _ w1 sch) as [[] w2 sch2| | |] eqn:Hw; try discriminate.
  pose proof Hw as Hw'.
  apply (await_done _ _ (fun w => callables w !! callable = Some c)) in Hw
    as (Hready & Hc2 & Hs2); [|done|done].
  apply Z.leb_le in Hready.
  assert (Ho2 : env_ok (holds_output future callable c) sch ->
                holds_output future callable c w2 /\
                env_ok (holds_output future callable c) sch2).
  { intros Hso.
    by apply (await_done _ _ (holds_output future callable c)) in Hw'
      as (_ & ? & ?). }
  unfold mbind at 1, M_bind at 1, load_executor at 1.
  destruct (executor =? executor_at w2); [|discriminate].
  unfold mbind at 1, M_bind at 1, get_shutdown at 1, gets at 1.
  destruct (Z.eqb_spec (Pool.shutdown (pool w2)) 0) as [Hz|Hnz]; cbn [negb].
  - intros Hrun.
    destruct (IH _ _ _ _ _ _ Hp Hc2 Hs2 Hrun) as [(n & Hn & -> & Hck & Hsd) Hout].
    split.
    + exists (S n). split; [lia|]. split; [lia|]. done.
    + intros Hso. apply Hout. by apply Ho2.
  - intros [= <- <- <-]. split.
    + exists 1%nat. split; [lia|]. split; [lia|]. done.
    + intros Hso. by apply Ho2.
Qed.

Lemma periodic_task_stops_at_release_witness :
  exists w',
    run_callable 5 200 100 1000 0 periodic_world [tick 50; request_stop]
    = Done 100 w' [] /\
    100 <= clock w' /\ Pool.shutdown (pool w') <> 0 /\
    holds_output 200 100 (Call.with_executor 1000 (task 50)) w'.
Proof.
  assert (Hrun : exists w',
             run_callable 5 200 100 1000 0 periodic_world [tick 50; request_stop]
             = Done 100 w' []) by (eexists; vm_compute; reflexivity).
  destruct Hrun as [w' Hrun].
  destruct (periodic_task_stops_at_release 5 200 100 1000
              (Call.with_executor 1000 (task 50)) 0 100 periodic_world w'
              [tick 50; request_stop] [])
    as [(n & _ & _ & Hck & Hsd) Hout].
  - discriminate.
  - reflexivity.
  - repeat constructor; intros w H; exact H.
  - exact Hrun.
  - exists w'. split; [exact Hrun|]. split; [exact Hck|]. split; [exact Hsd|].
    apply Hout.
    constructor; [intros w H; exact H|]. constructor; [intros w H; exact H|].
    constructor.
Defined.

(* ===================================================================== *)
(** * TP5: shutdown and submission *)
(* ===================================================================== *)

(** X21: [executor_shutdown] on a pool that counts no worker sets the flag
    and returns at once.  On a pool that counts workers it parks on the
    pool's condition, and returns when another thread's
    [pool_thread_remove] leaves the size at 0, which is the case when the
    size, less one if it exceeds the core size, is 1.  The queue of pending
    futures is as it was. *)
Theorem shutdown_returns_after_last_retire (executor : ptr) (w : world)
  (sch : schedule world) :
  executor = executor_at w -> Pool.m (pool w) = false ->
  (Pool.size (pool w) = 0 ->
   exists w', executor_shutdown executor w sch = Done tt w' sch /\
              Pool.shutdown (pool w') = 1 /\ Pool.size (pool w') = 0 /\
              queue w' = queue w) /\
  (Pool.size (pool w) <> 0 ->
   (exists w0, executor_shutdown executor w [] = Blocked (OnCond PoolCond) w0) /\
   (Pool.size (pool w)
    - (if Pool.core_pool_size (pool w) <? Pool.size (pool w) then 1 else 0) = 1 ->
    exists w', executor_shutdown executor w (other_thread pool_thread_remove :: sch)
               = Done tt w' sch /\
               Pool.shutdown (pool w') = 1 /\ Pool.size (pool w') = 0 /\
               queue w' = queue w)).
Proof.
  intros -> Hm.
  unfold executor_shutdown, mbind, M_bind, load_executor, thread_pool_shutdown,
         modify.
  rewrite Z.eqb_refl.
  set (w1 := upd_pool (Pool.with_shutdown 1) w).
  assert (Hp1 : pool w1 = Pool.with_shutdown 1 (pool w))
    by (unfold w1; by rewrite pool_upd_pool).
  assert (Hq1 : queue w1 = queue w) by (unfold w1; by destruct w as [? ? [] ? ? ?]).
  assert (Hm1 : Pool.m (pool w1) = false) by (by rewrite Hp1).
  clearbody w1. split; [|intros Hnz; split].
  - intros Hz. unfold wait_thread_pool_empty, mbind, M_bind.
    rewrite pool_lock_free by done.
    rewrite pool_empty_wait_ready by (by rewrite pool_upd_pool, Hp1).
    unfold pool_unlock, modify. eexists. split; [reflexivity|].
    rewrite !pool_upd_pool, Hp1. cbn. split_and!; done.
  - unfold wait_thread_pool_empty, mbind, M_bind.
    rewrite pool_lock_free by done. cbn [pool_empty_wait].
    rewrite pool_upd_pool, Hp1. cbn [Pool.size Pool.with_m Pool.with_shutdown].
    apply Z.eqb_neq in Hnz. rewrite Hnz. eauto.
  - intros Hr.
    destruct (wait_after_last_retire w1 sch Hm1) as (w' & Hrun & Hf & _ & Hp).
    + by rewrite Hp1.
    + rewrite Hp1. unfold retired_size. cbn.
      destruct (Pool.core_pool_size (pool w) <? Pool.size (pool w)); lia.
    + exists w'. split; [exact Hrun|]. rewrite Hp, Hp1. cbn.
      split_and!; try done. destruct Hf as (_ & _ & _ & _ & _ & Hq).
      unfold queue. rewrite Hq. exact Hq1.
Qed.

Lemma shutdown_returns_after_last_retire_witness :
  exists w',
    executor_shutdown 1000
      (after (pool_thread_create 200 0) (boot 1 2 FOREVER 1 0))
      [other_thread pool_thread_remove] = Done tt w' [] /\
    Pool.size (pool w') = 0.
Proof.
  destruct (shutdown_returns_after_last_retire 1000
              (after (pool_thread_create 200 0) (boot 1 2 FOREVER 1 0)) []
              eq_refl eq_refl) as [_ H].
  destruct (H ltac:(discriminate)) as [_ H'].
  destruct (H' eq_refl) as (w' & Hrun & _ & Hsize & _).
  exists w'. split; [exact Hrun | exact Hsize].
Defined.

(** X22: where [submit_callable] puts the new future.  Below the core size a
    thread is started on it.  Otherwise, while the queue has room, it is
    appended to the queue.  Otherwise the queue is full: the future
    returned is the head of the queue followed by the new future, the
    queue keeps the rest, and a forced creation is attempted for the future
    returned; below the maximum size a thread is started on it, and at the
    maximum size the future returned is neither in the queue nor handed to
    a thread. *)
Theorem submit_places_the_future
  (executor callable future : ptr) (w : world) (sch : schedule world) :
  executor_ok w -> executor = executor_at w ->
  is_Some (callables w !! callable) ->
  exists r w',
    submit_callable executor callable future w sch = Done r w' sch /\
    if Pool.size (pool w) <? Pool.core_pool_size (pool w) then
      r = future /\ threads w' = threads w ++ [future] /\ queue w' = queue w /\
      Pool.size (pool w') = Pool.size (pool w) + 1
    else if (length (queue w) <? capacity w)%nat then
      r = future /\ threads w' = threads w /\ queue w' = queue w ++ [future] /\
      Pool.size (pool w') = Pool.size (pool w)
    else
      r :: queue w' = queue w ++ [future] /\
      if Pool.size (pool w) <? Pool.max_pool_size (pool w) then
        threads w' = threads w ++ [r] /\
        Pool.size (pool w') = Pool.size (pool w) + 1
      else
        threads w' = threads w /\ Pool.size (pool w') = Pool.size (pool w).
Proof.
  intros (Hsem & Hqm & Hpm & Hring & Hq) -> [c Hc].
  unfold submit_callable.
  unfold mbind at 1, M_bind at 1, load_callable at 1. rewrite Hc.
  unfold mbind at 1, M_bind at 1, modify at 1.
  unfold mbind at 1, M_bind at 1, modify at 1.
  set (w2 := with_heap _ _).
  assert (Hp2 : pool w2 = pool w) by reflexivity.
  assert (Ht2 : threads w2 = threads w) by reflexivity.
  assert (He2 : Exec.futures (the_executor w2) = Exec.futures (the_executor w))
    by reflexivity.
  unfold mbind at 1, M_bind at 1, load_executor at 1.
  change (executor_at w2) with (executor_at w). rewrite Z.eqb_refl.
  unfold mbind at 1, M_bind at 1.
  destruct (pool_thread_create_quiet future 0 w2 sch Hpm)
    as (w3 & -> & (_ & _ & _ & _ & _ & He3) & Hp3 & Ht3).
  clearbody w2. rewrite Hp2 in *. rewrite He2 in He3. rewrite Ht2 in Ht3.
  clear Hp2 Ht2 He2 w2.
  unfold granted in *. cbn [Z.eqb negb andb] in *. rewrite orb_false_r in *.
  assert (Hq3 : queue w3 = queue w) by (unfold queue; by rewrite He3).
  assert (Hc3 : capacity w3 = capacity w) by (unfold capacity; by rewrite He3).
  destruct (Pool.size (pool w) <? Pool.core_pool_size (pool w)) eqn:Hcore.
  { exists future, w3. cbn [Z.eqb negb]. split; [done|].
    rewrite Hp3. done. }
  cbn [Z.eqb negb].
  unfold mbind at 1, M_bind at 1.
  destruct (pending_add_step future w3 sch) as
    (done4 & w4 & -> & (_ & _ & _ & _ & Ht4 & Hp4 & Hs4 & Hm4 & Hc4) & Hr4 & Hadd);
    try (rewrite He3; done).
  rewrite Hq3, Hc3 in Hadd. rewrite Hp3 in Hp4. rewrite Ht3 in Ht4.
  rewrite Hc3 in Hc4.
  destruct Hadd as [(Hroom & -> & Hq4)|(Hfull & -> & Hq4)].
  { exists future, w4. cbn [Z.eqb]. split; [done|].
    apply Nat.ltb_lt in Hroom. rewrite Hroom, Hp4. done. }
  assert (Hnoroom : (length (queue w) <? capacity w)%nat = false)
    by (apply Nat.ltb_ge; lia).
  rewrite Hnoroom.
  cbn [Z.eqb].
  unfold mbind at 1, M_bind at 1.
  destruct (pending_remove_step w4 sch Hs4 Hm4 Hr4) as
    (d & w5 & -> & (_ & _ & _ & _ & Ht5 & Hp5 & Hs5 & Hm5 & Hc5) & Hr5 & Hrem).
  rewrite Hq4 in Hrem. rewrite Hp4 in Hp5. rewrite Ht4 in Ht5.
  rewrite Hc4 in Hc5.
  unfold mbind at 1, M_bind at 1.
  destruct Hrem as [(Hempty & -> & Hq5)|(rest & Hcons & Hq5)].
  { cbn [Z.eqb NULL negb]. unfold mret at 1, M_ret at 1.
    unfold mbind at 1, M_bind at 1.
    assert (Hpm5 : Pool.m (pool w5) = false) by by rewrite Hp5.
    destruct (pool_thread_create_quiet future 1 w5 sch Hpm5)
      as (w7 & -> & (_ & _ & _ & _ & _ & He7) & Hp7 & Ht7).
    exists future, w7. split; [done|].
    assert (Hq7 : queue w7 = []) by (unfold queue in *; by rewrite He7).
    rewrite Hq7, Hempty. split; [done|].
    rewrite Hp7, Ht7, Hp5, Ht5. unfold granted. rewrite Hcore. cbn.
    destruct (Pool.size (pool w) <? Pool.max_pool_size (pool w)); done. }
  rewrite Hcons in Hq. apply Forall_cons in Hq as [[Hdn _] _].
  assert (Hdz : (d =? NULL) = false) by (apply Z.eqb_neq; done).
  rewrite Hdz. cbn [negb].
  unfold mbind at 1, M_bind at 1.
  destruct (pending_add_step future w5 sch Hs5 Hm5 Hr5) as
    (done6 & w6 & -> & (_ & _ & _ & _ & Ht6 & Hp6 & Hs6 & Hm6 & Hc6) & Hr6 & Hadd).
  rewrite Hq5, Hc5 in Hadd. rewrite Hp5 in Hp6. rewrite Ht5 in Ht6.
  assert (Hq6 : queue w6 = rest ++ [future]).
  { destruct Hadd as [(_ & _ & ?)|(Hbad & _)]; [done|].
    rewrite Hcons in Hfull. simpl in Hfull. lia. }
  unfold mret at 1, M_ret at 1. unfold mbind at 1, M_bind at 1.
  assert (Hpm6 : Pool.m (pool w6) = false) by by rewrite Hp6.
  destruct (pool_thread_create_quiet d 1 w6 sch Hpm6)
    as (w7 & -> & (_ & _ & _ & _ & _ & He7) & Hp7 & Ht7).
  exists d, w7. split; [done|].
  assert (Hq7 : queue w7 = rest ++ [future]) by (unfold queue in *; by rewrite He7).
  rewrite Hq7, Hcons. split; [done|].
  rewrite Hp7, Ht7, Hp6, Ht6. unfold granted. rewrite Hcore. cbn.
  destruct (Pool.size (pool w) <? Pool.max_pool_size (pool w)); done.
Qed.

Lemma submit_places_the_future_witness :
  exists w',
    submit_callable 1000 100 203
      (after (submit_callable 1000 100 202) overloaded_world) []
    = Done 202 w' [] /\
    queue w' = [203] /\ threads w' = [200; 201].
Proof.
  assert (Hok : executor_ok (after (submit_callable 1000 100 202) overloaded_world)).
  { assert (Hq : queue (after (submit_callable 1000 100 202) overloaded_world)
                 = [202]) by (vm_compute; reflexivity).
    unfold executor_ok. rewrite Hq. split; [reflexivity|].
    split; [reflexivity|]. split; [reflexivity|]. split.
    - vm_compute. split; [reflexivity|]. split; [lia|].
      split; [left; lia|reflexivity].
    - apply Forall_singleton. split; [discriminate|].
      eexists. vm_compute. reflexivity. }
  destruct (submit_places_the_future 1000 100 203
              (after (submit_callable 1000 100 202) overloaded_world) [] Hok
              eq_refl ltac:(eexists; reflexivity))
    as (r & w' & Hrun & Hcase).
  vm_compute in Hcase. destruct Hcase as (Hrq & Ht & _).
  injection Hrq as -> Hq.
  exists w'. split; [exact Hrun|]. split; [exact Hq | exact Ht].
Defined.

(* ===================================================================== *)
(** * TP5: a task from submission to result *)
(* ===================================================================== *)

Lemma submit_starts_worker executor callable future c w sch :
  executor = executor_at w -> callables w !! callable = Some c ->
  Pool.m (pool w) = false ->
  Pool.size (pool w) < Pool.core_pool_size (pool w) ->
  exists w1,
    submit_callable executor callable future w sch = Done future w1 sch /\
    heap w1 = <[future := Fut.mk callable 0 0 false 0]> (heap w) /\
    callables w1 = <[callable := Call.with_executor executor c]> (callables w) /\
    executor_at w1 = executor_at w /\ clock w1 = clock w /\
    Exec.keep_alive_time (the_executor w1) = Exec.keep_alive_time (the_executor w) /\
    Exec.futures (the_executor w1) = Exec.futures (the_executor w) /\
    threads w1 = threads w ++ [future] /\
    pool w1 = Pool.with_size (Pool.size (pool w) + 1) (pool w).
Proof.
  intros -> Hc Hpm Hlt.
  unfold submit_callable.
  unfold mbind at 1, M_bind at 1, load_callable at 1. rewrite Hc.
  unfold mbind at 1, M_bind at 1, modify at 1.
  unfold mbind at 1, M_bind at 1, modify at 1.
  set (w2 := with_heap _ _).
  unfold mbind at 1, M_bind at 1, load_executor at 1.
  change (executor_at w2) with (executor_at w). rewrite Z.eqb_refl.
  unfold mbind at 1, M_bind at 1.
  destruct (pool_thread_create_quiet future 0 w2 sch Hpm)
    as (w3 & -> & (Hck & Hea & Hcs & Hh & Hk & Hq) & Hp3 & Ht3).
  assert (Hg : granted 0 (pool w2) = true).
  { unfold granted. change (pool w2) with (pool w).
    apply Z.ltb_lt in Hlt. by rewrite Hlt. }
  rewrite Hg in *. cbn [Z.eqb negb]. exists w3. split; [reflexivity|].
  rewrite Hh, Hcs, Hea, Hck, Hk, Hq, Ht3, Hp3. done.
Qed.

(** X23: a one-shot task from submission to result.  On an executor with
    keep-alive [FOREVER], an empty queue and fewer workers than its core
    size, [submit_callable] returns the new future and starts a thread on
    it; that thread, [main_pool_thread], runs the callable, completes the
    future and parks waiting for more work; [get_callable_result] on the
    future then returns the output of the callable, [main (params)]. *)
Theorem submitted_task_is_run_and_delivered
  (executor callable future : ptr) (c : callable_t) (fuel : nat) (w : world)
  (sch : schedule world) :
  executor_ok w -> executor = executor_at w ->
  callables w !! callable = Some c -> Call.period c = 0 ->
  future <> NULL -> queue w = [] ->
  Pool.size (pool w) < Pool.core_pool_size (pool w) ->
  Exec.keep_alive_time (the_executor w) = FOREVER -> (0 < fuel)%nat ->
  exists w1 w2,
    submit_callable executor callable future w sch = Done future w1 sch /\
    threads w1 = threads w ++ [future] /\
    main_pool_thread fuel future w1 [] = Blocked (OnCond BufFull) w2 /\
    get_callable_result future w2 sch
    = Done (Call.main c (Call.params c)) w2 sch.
Proof.
  intros (Hs & Hm & Hpm & Hr & _) He Hc Hp Hn Hq Hlt Hk Hfuel.
  destruct (submit_starts_worker executor callable future c w sch He Hc Hpm Hlt)
    as (w1 & Hrun & Hh1 & Hcs1 & Hea1 & Hck1 & Hk1 & Hq1 & Ht1 & Hp1).
  destruct fuel as [|fuel]; [lia|].
  set (c' := Call.with_executor executor c) in *.
  set (f0 := Fut.mk callable 0 0 false 0) in *.
  exists w1, (served_last future c' f0 w1).
  split; [exact Hrun|]. split; [exact Ht1|].
  assert (Hf1 : heap w1 !! future = Some f0) by (rewrite Hh1; apply lookup_insert_eq).
  assert (Hc1 : callables w1 !! Fut.callable f0 = Some c')
    by (rewrite Hcs1; apply lookup_insert_eq).
  split.
  - unfold main_pool_thread, mbind, M_bind, gets.
    rewrite (worker_last_forever fuel future (clock w1) f0 c'); try done.
    + by rewrite Hq1.
    + by rewrite Hq1.
    + cbn. congruence.
    + unfold queue. rewrite Hq1. exact Hq.
    + congruence.
  - pose proof (served_last_frame future c' f0 w1) as (Hh2 & _).
    rewrite (get_callable_result_ready future (completed_by c' f0));
      [done| |done|done].
    rewrite Hh2. apply lookup_insert_eq.
Qed.

Lemma submitted_task_is_run_and_delivered_witness :
  exists w1 w2,
    submit_callable 1000 100 200 (boot 1 1 FOREVER 1 0) [] = Done 200 w1 [] /\
    main_pool_thread 1 200 w1 [] = Blocked (OnCond BufFull) w2 /\
    get_callable_result 200 w2 [] = Done 42 w2 [].
Proof.
  destruct (submitted_task_is_run_and_delivered 1000 100 200 (task 0) 1
              (boot 1 1 FOREVER 1 0) [])
    as (w1 & w2 & Hsub & _ & Hrun & Hget).
  - split_and!; try reflexivity; [apply ring_init_ok | constructor].
  - reflexivity.
  - reflexivity.
  - reflexivity.
  - discriminate.
  - reflexivity.
  - reflexivity.
  - reflexivity.
  - lia.
  - exists w1, w2. split; [exact Hsub|]. split; [exact Hrun | exact Hget].
Defined.
